(** * Grid rasterisation utilities of [kwave/utils/maputils.py]

    A shallow embedding of the rasterisation core of the module
    ([createPixelDim], [makePixelMap], [makeDisc], [makeBall], [makeCircle],
    [makeCartCircle], [makeLine], [makeArc], [ind2sub]) together with the
    properties of that core.

    Conventions of the embedding.
    - Python integers are [Z]; [int(round(v))] is the identity on them.
    - A two-dimensional numpy array is a list of rows, [list (list Z)].
      Reads and writes go through [py_index], which implements numpy's
      negative indexing and its [IndexError].
    - A Python exception is a value [Raise e] of the [result] type.  A
      [while] loop is a recursion on an iteration bound; [Raise Unfinished]
      is not a Python exception but the mark of a bound that was reached
      before the loop ended, and the properties show where it cannot occur.
    - Quotients of integers (the gradient of a line between two grid
      points) are exact rationals [Q].
    - Angles are real numbers [R]; comparisons on them are the decisions
      of the Standard Library's real numbers.  The one test whose outcome
      depends on the rounding of floating-point numbers, the angle test of
      [makeArc], is a parameter of the embedding of [makeArc]. *)

From Stdlib Require Import String Reals Lra QArith Qabs ZArith List Bool Lia.
Import ListNotations.

Local Open Scope string_scope.
Local Open Scope Z_scope.

(** ** Exceptions *)

Inductive exn : Type :=
| ValueError
| AssertionError
| IndexError
| TypeError
| Unfinished.

Inductive result (A : Type) : Type :=
| Ok (a : A)
| Raise (e : exn).

Arguments Ok {A} a.
Arguments Raise {A} e.

Definition bind {A B : Type} (r : result A) (k : A -> result B) : result B :=
  match r with
  | Ok a => k a
  | Raise e => Raise e
  end.

Notation "'do' x <- r ; k" := (bind r (fun x => k))
  (at level 10, x name, r at level 100, k at level 200).

(** ** Two-dimensional arrays *)

Definition grid : Type := list (list Z).

(** [np.zeros((Nx, Ny))]; numpy refuses negative dimensions. *)
Definition np_zeros (Nx Ny : Z) : result grid :=
  if (Nx <? 0) || (Ny <? 0) then Raise ValueError
  else Ok (repeat (repeat 0 (Z.to_nat Ny)) (Z.to_nat Nx)).

(** Index [i] into an axis of length [n]: [-n <= i < 0] counts from the
    end, anything outside [-n <= i < n] is an [IndexError]. *)
Definition py_index (n : nat) (i : Z) : option nat :=
  if (0 <=? i) && (i <? Z.of_nat n) then Some (Z.to_nat i)
  else if (- Z.of_nat n <=? i) && (i <? 0) then Some (Z.to_nat (i + Z.of_nat n))
  else None.

Fixpoint list_set {A : Type} (l : list A) (k : nat) (v : A) : list A :=
  match l, k with
  | [], _ => []
  | _ :: t, O => v :: t
  | h :: t, S k' => h :: list_set t k' v
  end.

(** Cell [(i, j)] with natural indices; [0] outside the array. *)
Definition cell (g : grid) (i j : nat) : Z := nth j (nth i g []) 0.

(** [g[i, j] = v] *)
Definition grid_set (g : grid) (i j : Z) (v : Z) : result grid :=
  match py_index (length g) i with
  | None => Raise IndexError
  | Some i' =>
      let row := nth i' g [] in
      match py_index (length row) j with
      | None => Raise IndexError
      | Some j' => Ok (list_set g i' (list_set row j' v))
      end
  end.

(** ** PixelDistanceField: [createPixelDim] and [makePixelMap] *)

(** [np.arange(start, stop, 1)] on integer-valued bounds. *)
Definition arange (start stop : Z) : list Z :=
  map (fun k => start + Z.of_nat k) (seq 0 (Z.to_nat (stop - start))).

(** [createPixelDim(Nx, origin_size, shift)].  On the even branch [Nx / 2]
    is an integer and on the odd branch [(Nx - 1) / 2] is, so the float
    bounds of the source are exactly these integers. *)
Definition createPixelDim (Nx : Z) (origin_size : string) (shift : Z) : list Z :=
  if Nx mod 2 =? 0 then
    if String.eqb origin_size "single" then
      if shift =? 1 then arange (- (Nx / 2)) (Nx / 2 - 1 + 1)
      else arange (- (Nx / 2) + 1) (Nx / 2 + 1)
    else
      arange (- (Nx / 2) + 1) (0 + 1) ++ arange 0 (- (Nx / 2) - 1 + 1)
  else
    if String.eqb origin_size "single" then
      arange (- ((Nx - 1) / 2)) ((Nx - 1) / 2 + 1)
    else
      if shift =? 1 then
        arange (- ((Nx - 1) / 2)) (0 + 1) ++ arange 0 ((Nx - 1) / 2 - 1 + 1)
      else
        arange (- ((Nx - 1) / 2) + 1) (0 + 1) ++ arange 0 ((Nx - 1) / 2 + 1).

(** The optional [*args] of [makePixelMap]: a flat list of parameter names
    and values. *)
Inductive argval : Type :=
| AStr (s : string)
| AInts (l : list Z).

(** [v == name] for a string [name]. *)
Definition is_name (v : argval) (name : string) : bool :=
  match v with
  | AStr s => String.eqb s name
  | AInts _ => false
  end.

(** The loop [for input_index in range(0, len(args), 2)]: a value is stored
    as it is given, whatever its type; it is checked after the loop. *)
Fixpoint parse_args (args : list argval) (origin_size shift : argval)
  : result (argval * argval) :=
  match args with
  | [] => Ok (origin_size, shift)
  | k :: rest =>
      if is_name k "Shift" then
        match rest with
        | v :: rest' => parse_args rest' origin_size v
        | [] => Raise IndexError
        end
      else if is_name k "OriginSize" then
        match rest with
        | v :: rest' => parse_args rest' v shift
        | [] => Raise IndexError
        end
      else Raise ValueError
  end.

(** [shift] as the rest of [makePixelMap] uses it: [len(shift)] and the
    entries [shift[0]], [shift[1]], ... that [createPixelDim] compares with
    [1].  No character of a string equals [1]; a character is represented
    by [0]. *)
Definition shift_entries (shift : argval) : list Z :=
  match shift with
  | AInts l => l
  | AStr s => map (fun _ => 0) (list_ascii_of_string s)
  end.

(** [makePixelMap(Nx, Ny, None, *args)], the two-dimensional path.  The
    field holds the exact squared distance [r_x ** 2 + r_y ** 2]; the source
    takes its square root and the callers compare it with a radius, see
    [within_radius]. *)
Definition makePixelMap (Nx Ny : Z) (args : list argval) : result grid :=
  if negb (Z.of_nat (length args) mod 2 =? 0) then Raise AssertionError else
  do os <- parse_args args (AStr "single") (AInts [1; 1]);
  let '(origin_size, shift) := os in
  match origin_size with
  | AInts _ => Raise AssertionError
  | AStr origin_size =>
      if negb (String.eqb origin_size "single" || String.eqb origin_size "double")
      then Raise AssertionError else
      match shift_entries shift with
      | [s0; s1] =>
          let nx := createPixelDim Nx origin_size s0 in
          let ny := createPixelDim Ny origin_size s1 in
          Ok (map (fun rx => map (fun ry => rx * rx + ry * ry) ny) nx)
      | _ => Raise AssertionError
      end
  end.

(** [sqrt(s) <= radius] for an integer squared distance [s] and an integer
    radius. *)
Definition within_radius (s radius : Z) : bool :=
  (0 <=? radius) && (s <=? radius * radius).

(** ** ShapeRasterizer: [makeDisc] *)

Definition same_shape (a b : grid) : bool :=
  (length a =? length b)%nat &&
  forallb (fun p => (length (fst p) =? length (snd p))%nat) (combine a b).

(** [disc[r <= radius] = MAGNITUDE]: a boolean mask must have the shape of
    the array it indexes. *)
Definition mask_assign (disc r : grid) (radius magnitude : Z) : result grid :=
  if same_shape disc r then
    Ok (map (fun p =>
               map (fun q => if within_radius (snd q) radius then magnitude else fst q)
                   (combine (fst p) (snd p)))
            (combine disc r))
  else Raise IndexError.

(** [np.roll] along one axis: the element at [i] moves to [(i + s) mod n]. *)
Definition roll {A : Type} (d : A) (s : Z) (l : list A) : list A :=
  let n := Z.of_nat (length l) in
  map (fun k => nth (Z.to_nat ((Z.of_nat k - s) mod n)) l d) (seq 0 (length l)).

Definition roll2 (sx sy : Z) (g : grid) : grid :=
  map (roll 0 sy) (roll [] sx g).

(** [int(math.ceil(N / 2))] *)
Definition ceil_half (N : Z) : Z := - ((- N) / 2).

(** [makeDisc(Nx, Ny, cx, cy, radius)] *)
Definition makeDisc (Nx Ny cx cy radius : Z) : result grid :=
  let MAGNITUDE := 1 in
  let cx := if cx =? 0 then Nx / 2 + 1 else cx in
  let cy := if cy =? 0 then Ny / 2 + 1 else cy in
  if negb (((0 <=? cx) && (cx <? Nx)) && ((0 <=? cy) && (cy <? Ny)))
  then Raise AssertionError else
  do disc <- np_zeros Nx Ny;
  do r <- makePixelMap Nx Ny [AStr "Shift"; AInts [0; 0]];
  do disc <- mask_assign disc r radius MAGNITUDE;
  let cx := cx - ceil_half Nx in
  let cy := cy - ceil_half Ny in
  Ok (roll2 cx cy disc).

(** ** CircleRasterizer: [makeCircle] *)

Section MidpointCircle.

(** The angular filter of the source,
    [(np.arctan2(px_i - cx, py_i - cy) + np.pi) <= arc_angle], as a test
    on the offset [(px_i - cx, py_i - cy)]. *)
Variable in_arc : Z -> Z -> bool.

Variables Nx Ny cx cy : Z.

Definition in_grid (px py : Z) : bool :=
  (1 <=? px) && (px <=? Nx) && (1 <=? py) && (py <=? Ny).

(** One pass of the body of the two [for] loops over [zip(px, py)]. *)
Definition plot (circle : grid) (p : Z * Z) : result grid :=
  let '(px_i, py_i) := p in
  if in_arc (px_i - cx) (py_i - cy) then
    if in_grid px_i py_i then grid_set circle (px_i - 1) (py_i - 1) 1
    else Ok circle
  else Ok circle.

Fixpoint plot_all (pts : list (Z * Z)) (circle : grid) : result grid :=
  match pts with
  | [] => Ok circle
  | p :: rest => do circle' <- plot circle p; plot_all rest circle'
  end.

(** The first point, written under the bounds test alone. *)
Definition plot_first (y : Z) (circle : grid) : result grid :=
  if in_grid cx (cy - y) then grid_set circle (cx - 1) (cy - y - 1) 1
  else Ok circle.

Definition cardinal_points (y : Z) : list (Z * Z) :=
  [(cx, cy + y); (cx + y, cy); (cx - y, cy)].

(** The decision-variable update of one iteration. *)
Definition midpoint_step (x y d : Z) : Z * Z * Z :=
  let x := x + 1 in
  if d <? 0 then (x, y, d + x + x + 1)
  else
    let y := y - 1 in
    let a := x - y + 1 in
    (x, y, d + a + a).

Definition octant_points (x y : Z) : list (Z * Z) :=
  [(x + cx, y + cy); (y + cx, x + cy); (y + cx, - x + cy); (x + cx, - y + cy);
   (- x + cx, - y + cy); (- y + cx, - x + cy); (- y + cx, x + cy); (- x + cx, y + cy)].

(** [while x < (y - 1)], at most [n] iterations; the final loop variables
    are returned with the array so that the exit can be observed. *)
Fixpoint circle_loop (n : nat) (x y d : Z) (circle : grid)
  : result (Z * Z * Z * grid) :=
  match n with
  | O => Ok (x, y, d, circle)
  | S n' =>
      if x <? y - 1 then
        let '(x', y', d') := midpoint_step x y d in
        do circle' <- plot_all (octant_points x' y') circle;
        circle_loop n' x' y' d' circle'
      else Ok (x, y, d, circle)
  end.

End MidpointCircle.

(** [makeCircle] with the angular filter given as a test on offsets. *)
Definition makeCircle_with (in_arc : Z -> Z -> bool) (Nx Ny cx cy radius : Z)
  : result grid :=
  let cx := if cx =? 0 then Nx / 2 + 1 else cx in
  let cy := if cy =? 0 then Ny / 2 + 1 else cy in
  do circle <- np_zeros Nx Ny;
  let x := 0 in
  let y := radius in
  let d := 1 - radius in
  do circle <- plot_first Nx Ny cx cy y circle;
  do circle <- plot_all in_arc Nx Ny cx cy (cardinal_points cx cy y) circle;
  do st <- circle_loop in_arc Nx Ny cx cy (Z.to_nat (y - 1 - x)) x y d circle;
  Ok (snd st).

(** [np.arctan2(y, x)] on real numbers; a zero argument is [+0.0], as it is
    for the integer differences the source passes. *)
Definition arctan2 (y x : R) : R :=
  if Rlt_dec 0 x then atan (y / x)
  else if Rlt_dec x 0 then
    if Rle_dec 0 y then (atan (y / x) + PI)%R else (atan (y / x) - PI)%R
  else if Rlt_dec 0 y then (PI / 2)%R
  else if Rlt_dec y 0 then (- PI / 2)%R
  else 0%R.

Definition arc_filter (arc_angle : R) (dx dy : Z) : bool :=
  if Rle_dec (arctan2 (IZR dx) (IZR dy) + PI) arc_angle then true else false.

(** The clamping of [arc_angle] at the head of [makeCircle]. *)
Definition clamp_arc_angle (arc_angle : option R) : R :=
  match arc_angle with
  | None => (2 * PI)%R
  | Some a =>
      if Rgt_dec a (2 * PI) then (2 * PI)%R
      else if Rlt_dec a 0 then 0%R
      else a
  end.

(** [makeCircle(Nx, Ny, cx, cy, radius, arc_angle)] *)
Definition makeCircle (Nx Ny cx cy radius : Z) (arc_angle : option R) : result grid :=
  makeCircle_with (arc_filter (clamp_arc_angle arc_angle)) Nx Ny cx cy radius.

(** ** LineRasterizer: [makeLine] *)

(** *** Nearest-candidate search

    The search is the same on the exact rationals of the two-point mode and on
    the real numbers of the angle mode; it is written once over the
    operations it uses. *)

Section NearestCandidate.

Variable num : Type.
Variable of_int : Z -> num.
Variables add sub mul div : num -> num -> num.
Variable leb : num -> num -> bool.

(** [diff == min(diff)]: an entry equals the minimum when no entry is
    below it. *)
Definition min_mask (diff : list num) : list bool :=
  map (fun d => forallb (leb d) diff) diff.

(** Modelled from the spec: [matlab_find] of [kwave.utils.matrixutils] is
    not among the sources.  It returns the 1-based positions of the true
    entries in enumeration order, so that [matlab_find(...)[0]] is the first
    match (the spec: ties are broken by the first match in enumeration
    order). *)
Definition matlab_find (mask : list bool) : list Z :=
  map (fun p => Z.of_nat (fst p) + 1)
      (filter (fun p => snd p) (combine (seq 0 (length mask)) mask)).

(** [index = matlab_find(diff == min(diff))[0]], then
    [poss_x[index[0] - 1], poss_y[index[0] - 1]]. *)
Definition closest (poss_x poss_y : list Z) (diff : list num) : result (Z * Z) :=
  match matlab_find (min_mask diff) with
  | [] => Raise IndexError
  | index :: _ =>
      match nth_error poss_x (Z.to_nat (index - 1)),
            nth_error poss_y (Z.to_nat (index - 1)) with
      | Some x, Some y => Ok (x, y)
      | _, _ => Raise IndexError
      end
  end.

(** [true_y = m * poss_x + c; diff = (poss_y - true_y)**2] *)
Definition diff_y (m c : num) (poss_x poss_y : list Z) : list num :=
  map (fun p =>
         let true_y := add (mul m (of_int (fst p))) c in
         let e := sub (of_int (snd p)) true_y in
         mul e e)
      (combine poss_x poss_y).

(** [true_x = (poss_y - c) / m; diff = (poss_x - true_x)**2] *)
Definition diff_x (m c : num) (poss_x poss_y : list Z) : list num :=
  map (fun p =>
         let true_x := div (sub (of_int (snd p)) c) m in
         let e := sub (of_int (fst p)) true_x in
         mul e e)
      (combine poss_x poss_y).

Definition closest_y (m c : num) (poss_x poss_y : list Z) : result (Z * Z) :=
  closest poss_x poss_y (diff_y m c poss_x poss_y).

Definition closest_x (m c : num) (poss_x poss_y : list Z) : result (Z * Z) :=
  closest poss_x poss_y (diff_x m c poss_x poss_y).

End NearestCandidate.

Definition Qclosest_x : Q -> Q -> list Z -> list Z -> result (Z * Z) :=
  closest_x Q inject_Z Qminus Qmult Qdiv Qle_bool.

Definition Rleb (a b : R) : bool := if Rle_dec a b then true else false.
Definition Rltb (a b : R) : bool := if Rlt_dec a b then true else false.
Definition Reqb (a b : R) : bool := if Req_dec_T a b then true else false.

Definition Rclosest_y : R -> R -> list Z -> list Z -> result (Z * Z) :=
  closest_y R IZR Rplus Rminus Rmult Rleb.

(** *** Line between two points *)

Section AtoB.

Variables (m c : Q).

(** [m * poss_x] for the [numpy.float64] gradient [m] and the Python list
    [poss_x]: numpy leaves the product to the list, and the repetition of a
    list refuses a factor that is not an integer. *)
Definition float_times_list (m : Q) (poss : list Z) : result (list Q) :=
  Raise TypeError.

(** [abs(m) < 1]: step along x.  The first statement that uses the list of
    candidates, [true_y = m * poss_x + c], multiplies a float by a list. *)
Fixpoint shallow_loop (n : nat) (x_end x y : Z) (line : grid) : result grid :=
  if x <? x_end then
    match n with
    | O => Raise Unfinished
    | S n' =>
        let poss_x := [x; x; x + 1; x + 1; x + 1] in
        let poss_y := [y - 1; y + 1; y - 1; y; y + 1] in
        do m_poss_x <- float_times_list m poss_x;
        let true_y := map (fun v => (v + c)%Q) m_poss_x in
        let diff :=
          map (fun p => let e := (inject_Z (fst p) - snd p)%Q in (e * e)%Q)
              (combine poss_y true_y) in
        do p <- closest Q Qle_bool poss_x poss_y diff;
        let '(x, y) := p in
        do line <- grid_set line (x - 1) (y - 1) 1;
        shallow_loop n' x_end x y line
    end
  else Ok line.

(** [abs(m) >= 1], finite: step along y. *)
Fixpoint steep_loop (n : nat) (y_end x y : Z) (line : grid) : result grid :=
  if y <? y_end then
    match n with
    | O => Raise Unfinished
    | S n' =>
        let poss_y := [y; y; y + 1; y + 1; y + 1] in
        let poss_x := [x - 1; x + 1; x - 1; x; x + 1] in
        do p <- Qclosest_x m c poss_x poss_y;
        let '(x, y) := p in
        do line <- grid_set line x y 1;
        steep_loop n' y_end x y line
    end
  else Ok line.

End AtoB.

(** [m = +-Inf]: a vertical step rule. *)
Fixpoint vertical_loop (n : nat) (y_end x y : Z) (line : grid) : result grid :=
  if y <? y_end then
    match n with
    | O => Raise Unfinished
    | S n' =>
        let y := y + 1 in
        do line <- grid_set line x y 1;
        vertical_loop n' y_end x y line
    end
  else Ok line.

Definition Qltb (p q : Q) : bool := negb (Qle_bool q p).

(** The section "calculate a line from a to b", on the 0-based points [a]
    and [b].  The quotient of two numpy integers with a zero divisor is an
    infinity (the points differ, so the dividend is not zero). *)
Definition line_a_to_b (Nx Ny : Z) (a b : Z * Z) : result grid :=
  do line <- np_zeros Nx Ny;
  if fst b - fst a =? 0 then
    let '(x, y, y_end) :=
      if snd a <? snd b then (fst a, snd a, snd b) else (fst b, snd b, snd a) in
    do line <- grid_set line x y 1;
    vertical_loop (Z.to_nat (y_end - y)) y_end x y line
  else
    let m := (inject_Z (snd b - snd a) / inject_Z (fst b - fst a))%Q in
    let c := (inject_Z (snd a) - m * inject_Z (fst a))%Q in
    if Qltb (Qabs m) 1 then
      let '(x, y, x_end) :=
        if fst a <? fst b then (fst a, snd a, fst b) else (fst b, snd b, fst a) in
      do line <- grid_set line x y 1;
      shallow_loop m c (Z.to_nat (x_end - x)) x_end x y line
    else
      let '(x, y, y_end) :=
        if snd a <? snd b then (fst a, snd a, snd b) else (fst b, snd b, snd a) in
      do line <- grid_set line x y 1;
      steep_loop m c (Z.to_nat (y_end - y)) y_end x y line.

(** *** Angled line *)

Section Angled.

Variables Nx Ny : Z.
Variable startpoint : Z * Z.
Variable linelength : Z.

(** [line_length < linelength].  The model keeps the square of
    [line_length], an integer, and [sqrt(s) < l] is [0 < l] and
    [s < l * l]. *)
Definition shorter (line_length2 : Z) : bool :=
  (0 <? linelength) && (line_length2 <? linelength * linelength).

Definition length2 (x y : Z) : Z :=
  (x - fst startpoint) * (x - fst startpoint)
  + (y - snd startpoint) * (y - snd startpoint).

(** The eight [while line_length < linelength] loops share their shape:
    [next] gives the next point and [stop] is the edge test before
    [break]. *)
Variable next : Z -> Z -> result (Z * Z).
Variable stop : Z -> Z -> bool.

Fixpoint trace (n : nat) (x y line_length2 : Z) (line : grid) : result grid :=
  if shorter line_length2 then
    match n with
    | O => Raise Unfinished
    | S n' =>
        do p <- next x y;
        let '(x, y) := p in
        if stop x y then Ok line
        else
          do line <- grid_set line (x - 1) (y - 1) 1;
          trace n' x y (length2 x y) line
    end
  else Ok line.

End Angled.

(** Python's [a % b] on floats, for a positive [b]. *)
Definition Rmod (a b : R) : R := (a - IZR (Int_part (a / b)) * b)%R.

(** "angle must lie between -np.pi and np.pi" *)
Definition normalise_angle (angle : R) : R :=
  let angle := Rmod angle (2 * PI) in
  if Rltb PI angle then (angle - 2 * PI)%R
  else if Rltb angle (- PI) then (angle + 2 * PI)%R
  else angle.

(** The stepping rule of each branch of the angle dispatch. *)
Inductive sector : Type :=
| AlongPi
| BetweenHalfPiAndPi (m : R)
| AlongHalfPi
| BetweenZeroAndHalfPi (m : R)
| AlongZero
| BetweenMinusHalfPiAndZero (m : R)
| AlongMinusHalfPi
| BetweenMinusPiAndMinusHalfPi (m : R).

(** The [if]/[elif] chain on the normalised angle; [None] when no branch is
    taken. *)
Definition sector_of (angle : R) : option sector :=
  if Reqb (Rabs angle) PI then Some AlongPi
  else if Rltb angle PI && Rltb (PI / 2) angle then
    Some (BetweenHalfPiAndPi (- tan (angle - PI / 2)))
  else if Reqb angle (PI / 2) then Some AlongHalfPi
  else if Rltb angle (PI / 2) && Rltb 0 angle then
    Some (BetweenZeroAndHalfPi (tan (PI / 2 - angle)))
  else if Reqb angle 0 then Some AlongZero
  else if Rltb angle 0 && Rltb (- PI / 2) angle then
    Some (BetweenMinusHalfPiAndZero (- tan (PI / 2 + angle)))
  else if Reqb angle (- PI / 2) then Some AlongMinusHalfPi
  else if Rltb angle (- PI / 2) && Rltb (- PI) angle then
    Some (BetweenMinusPiAndMinusHalfPi (tan (- angle - PI / 2)))
  else None.

Definition sector_next (startpoint : Z * Z) (s : sector) (x y : Z) : result (Z * Z) :=
  let c m := (IZR (snd startpoint) - m * IZR (fst startpoint))%R in
  match s with
  | AlongPi => Ok (x, y + 1)
  | BetweenHalfPiAndPi m => Rclosest_y m (c m) [x - 1; x - 1; x] [y; y + 1; y + 1]
  | AlongHalfPi => Ok (x - 1, y)
  | BetweenZeroAndHalfPi m => Rclosest_y m (c m) [x - 1; x - 1; x] [y; y - 1; y - 1]
  | AlongZero => Ok (x, y - 1)
  | BetweenMinusHalfPiAndZero m => Rclosest_y m (c m) [x + 1; x + 1; x] [y; y - 1; y - 1]
  | AlongMinusHalfPi => Ok (x + 1, y)
  | BetweenMinusPiAndMinusHalfPi m => Rclosest_y m (c m) [x + 1; x + 1; x] [y; y + 1; y + 1]
  end.

(** "stop the points incrementing at the edges" *)
Definition sector_stop (Nx Ny : Z) (s : sector) (x y : Z) : bool :=
  match s with
  | AlongPi => Ny <? y
  | BetweenHalfPiAndPi _ => (x <? 0) || (Ny - 1 <? y)
  | AlongHalfPi => x <? 1
  | BetweenZeroAndHalfPi _ => (x <? 1) || (y <? 1)
  | AlongZero => y <? 1
  | BetweenMinusHalfPiAndZero _ => (Nx <? x) || (y <? 1)
  | AlongMinusHalfPi => Nx <? x
  | BetweenMinusPiAndMinusHalfPi _ => (Nx <? x) || (Ny <? y)
  end.

(** The section "calculate an angled line", on the normalised angle.  A
    missing [length] fails at the first loop test. *)
Definition line_angled (Nx Ny : Z) (startpoint : Z * Z) (angle : R)
           (length : option Z) : result grid :=
  do line <- np_zeros Nx Ny;
  let '(x, y) := startpoint in
  do line <- grid_set line (x - 1) (y - 1) 1;
  let line_length2 := 0 in
  match sector_of angle with
  | None => Ok line
  | Some s =>
      match length with
      | None => Raise TypeError
      | Some linelength =>
          trace startpoint linelength (sector_next startpoint s) (sector_stop Nx Ny s)
                (Z.to_nat (2 * linelength)) x y line_length2 line
      end
  end.

(** The test on the start point at the head of [makeLine]; the exception it
    guards is built and dropped, not raised. *)
Definition start_outside_grid (Nx Ny : Z) (startpoint : Z * Z) : bool :=
  ((fst startpoint <? 1) || (snd startpoint <? 1))
  || (Nx <? fst startpoint) || (Ny <? snd startpoint).

(** [makeLine(Nx, Ny, startpoint, endpoint, angle, length)] *)
Definition makeLine (Nx Ny : Z) (startpoint : Z * Z) (endpoint : option (Z * Z))
           (angle : option R) (length : option Z) : result grid :=
  let _ := if start_outside_grid Nx Ny startpoint then Some ValueError else None in
  match endpoint with
  | Some endpoint =>
      let a := (fst startpoint - 1, snd startpoint - 1) in
      let b := (fst endpoint - 1, snd endpoint - 1) in
      if (fst a =? fst b) && (snd a =? snd b) then Raise ValueError else
      if ((fst a <? 0) || (snd a <? 0)) || ((fst b <? 0) || (snd b <? 0))
         || ((Nx - 1 <? fst a) || (Nx - 1 <? fst b))
         || ((Ny - 1 <? snd a) || (Ny - 1 <? snd b))
      then Raise ValueError else
      line_a_to_b Nx Ny a b
  | None =>
      match angle with
      | None => Raise TypeError
      | Some angle => line_angled Nx Ny startpoint (normalise_angle angle) length
      end
  end.

(** ** ArcBuilder: [makeArc] *)

(** The radius after [int(radius)]: an integer, or the infinity that [int]
    refuses and the [except] branch keeps as a float. *)
Inductive radius_t : Type :=
| Radius (r : Z)
| RadiusInf
| RadiusNegInf.

(** [np.logical_or] of two arrays of the same shape. *)
Definition logical_or (g1 g2 : grid) : grid :=
  map (fun rows =>
         map (fun v => if negb (fst v =? 0) || negb (snd v =? 0) then 1 else 0)
             (combine (fst rows) (snd rows)))
      (combine g1 g2).

(** Python's [round] on a float: to the nearest integer, halves to the even
    one. *)
Definition py_round (r : R) : Z :=
  let f := Int_part r in
  let frac := (r - IZR f)%R in
  if Rltb frac (1 / 2) then f
  else if Rltb (1 / 2) frac then f + 1
  else if Z.even f then f else f + 1.

(** The test [theta > half_arc_angle] of the loop over the points of the
    circle is made in floating point: [theta] is
    [np.arccos(sum(v1 * v2 / (l1 * l2)))], and the rounded sum can leave the
    interval from [-1] to [1], where [np.arccos] gives not-a-number and the
    test is false.  No formula on real numbers gives its outcome, so the
    embedding takes it as a parameter: [theta_above c arc_pos diameter radius
    p] stands for the outcome of the test at the grid point [p], computed
    from the centre [c], the arc position, the diameter and the radius. *)
Definition angle_test : Type := Z * Z -> Z * Z -> Z -> Z -> Z * Z -> bool.

(** The loop over [matlab_find(arc, mode='eq', val=1)].  Modelled from the
    spec: [matlab_find] is not among the sources; the loop visits every set
    point of the circle and clears it when the test on its angle holds. *)
Definition clip_arc (above : Z * Z -> bool) (arc : grid) : grid :=
  map (fun ir =>
         map (fun jv =>
                let p := (Z.of_nat (fst ir) + 1, Z.of_nat (fst jv) + 1) in
                if (snd jv =? 1) && above p then 0 else snd jv)
             (combine (seq 0 (length (snd ir))) (snd ir)))
      (combine (seq 0 (length arc)) arc).

(** [np.arctan((fx - ax) / (fy - ay))]: the quotient of two numpy integers
    with a zero divisor is an infinity, whose arc tangent is [+-pi/2]. *)
Definition arctan_quotient (p q : Z) : R :=
  if q =? 0 then (if 0 <? p then PI / 2 else - PI / 2)%R
  else atan (IZR p / IZR q).

(** [makeArc(grid_size, arc_pos, radius, diameter, focus_pos)] *)
Definition makeArc (theta_above : angle_test) (grid_size arc_pos : Z * Z)
           (radius : radius_t) (diameter : Z) (focus_pos : Z * Z) : result grid :=
  let radius_not_positive :=
    match radius with
    | Radius r => r <=? 0
    | RadiusInf => false
    | RadiusNegInf => true
    end in
  let diameter_above_twice_radius :=
    match radius with
    | Radius r => 2 * r <? diameter
    | RadiusInf => false
    | RadiusNegInf => true
    end in
  if (fst grid_size <? 1) || (snd grid_size <? 1) then Raise ValueError else
  if radius_not_positive then Raise ValueError else
  if diameter <=? 0 then Raise ValueError else
  if ((fst arc_pos <? 1) || (snd arc_pos <? 1))
     || ((fst grid_size <? fst arc_pos) || (snd grid_size <? snd arc_pos))
  then Raise ValueError else
  if diameter_above_twice_radius then Raise ValueError else
  if negb (diameter mod 2 =? 1) then Raise ValueError else
  if (fst arc_pos =? fst focus_pos) && (snd arc_pos =? snd focus_pos)
  then Raise ValueError else
  let '(Nx, Ny) := grid_size in
  let '(ax, ay) := arc_pos in
  let '(fx, fy) := focus_pos in
  match radius with
  | Radius r =>
      let distance_cf := sqrt (IZR ((ax - fx) * (ax - fx) + (ay - fy) * (ay - fy))) in
      let cx := py_round (IZR r / distance_cf * IZR (fx - ax) + IZR ax) in
      let cy := py_round (IZR r / distance_cf * IZR (fy - ay) + IZR ay) in
      do arc <- makeCircle Nx Ny cx cy r None;
      Ok (clip_arc (theta_above (cx, cy) arc_pos diameter r) arc)
  | _ =>
      let ang := (arctan_quotient (fx - ax) (fy - ay) + PI / 2)%R in
      do line1 <- makeLine Nx Ny arc_pos None (Some ang) (Some ((diameter - 1) / 2));
      do line2 <- makeLine Nx Ny arc_pos None (Some (ang + PI)%R) (Some ((diameter - 1) / 2));
      Ok (logical_or line1 line2)
  end.

(** ** CartesianCircleSampler: [makeCartCircle] *)

(** A numpy float: a real number, an infinity or not-a-number. *)
Inductive npfloat : Type :=
| Fin (r : R)
| PosInf
| NegInf
| NaN.

(** [a / n] for a finite float [a] and a Python integer [n]; numpy divides
    by zero without raising. *)
Definition np_divide (a : R) (n : Z) : npfloat :=
  if n =? 0 then
    if Rltb 0 a then PosInf else if Rltb a 0 then NegInf else NaN
  else Fin (a / IZR n).

Definition np_add (v : npfloat) (r : R) : npfloat :=
  match v with
  | Fin a => Fin (a + r)
  | other => other
  end.

Definition np_neg (v : npfloat) : npfloat :=
  match v with
  | Fin a => Fin (- a)
  | PosInf => NegInf
  | NegInf => PosInf
  | NaN => NaN
  end.

(** [np.cos] and [np.sin]: not-a-number outside the finite floats. *)
Definition np_trig (f : R -> R) (v : npfloat) : npfloat :=
  match v with
  | Fin a => Fin (f a)
  | _ => NaN
  end.

Definition np_scale (radius : R) (v : npfloat) : npfloat :=
  match v with
  | Fin a => Fin (radius * a)
  | PosInf => if Rltb 0 radius then PosInf else if Rltb radius 0 then NegInf else NaN
  | NegInf => if Rltb 0 radius then NegInf else if Rltb radius 0 then PosInf else NaN
  | NaN => NaN
  end.

(** The divisor of the angle step: [num_points], decremented when the arc
    is not the full circle. *)
Definition angle_divisor (num_points : Z) (arc_angle : R) : Z :=
  if Reqb arc_angle (2 * PI) then num_points else num_points - 1.

(** [makeCartCircle(radius, num_points, center_pos, arc_angle)]: the two rows
    of the returned array. *)
Definition makeCartCircle (radius : R) (num_points : Z) (center_pos : option (R * R))
           (arc_angle : R) : list npfloat * list npfloat :=
  let full_circle := Reqb arc_angle (2 * PI) in
  let '(cx, cy) := match center_pos with None => (0%R, 0%R) | Some c => c end in
  let num_points := if negb full_circle then num_points - 1 else num_points in
  let angles :=
    map (fun k => np_add (np_divide (IZR k * arc_angle) num_points) (PI / 2))
        (arange 0 (num_points + 1)) in
  let angles := if full_circle then removelast angles else angles in
  (map (fun a => np_add (np_scale radius (np_trig cos a)) cx) angles,
   map (fun a => np_add (np_scale radius (np_trig sin (np_neg a))) cy) angles).

(** ** ShapeRasterizer: [makeBall] *)

(** A three-dimensional numpy array: a list of two-dimensional slices. *)
Definition volume : Type := list grid.

(** [np.zeros((Nx, Ny, Nz))] *)
Definition np_zeros3 (Nx Ny Nz : Z) : result volume :=
  if (Nx <? 0) || (Ny <? 0) || (Nz <? 0) then Raise ValueError
  else Ok (repeat (repeat (repeat 0 (Z.to_nat Nz)) (Z.to_nat Ny)) (Z.to_nat Nx)).

(** [makePixelMap(Nx, Ny, Nz, *args)], the three-dimensional path; as in
    [makePixelMap] the field holds the squared distance. *)
Definition makePixelMap3 (Nx Ny Nz : Z) (args : list argval) : result volume :=
  if negb (Z.of_nat (length args) mod 2 =? 0) then Raise AssertionError else
  do os <- parse_args args (AStr "single") (AInts [1; 1; 1]);
  let '(origin_size, shift) := os in
  match origin_size with
  | AInts _ => Raise AssertionError
  | AStr origin_size =>
      if negb (String.eqb origin_size "single" || String.eqb origin_size "double")
      then Raise AssertionError else
      match shift_entries shift with
      | [s0; s1; s2] =>
          let nx := createPixelDim Nx origin_size s0 in
          let ny := createPixelDim Ny origin_size s1 in
          let nz := createPixelDim Nz origin_size s2 in
          Ok (map (fun rx =>
                     map (fun ry => map (fun rz => rx * rx + ry * ry + rz * rz) nz) ny) nx)
      | _ => Raise AssertionError
      end
  end.

(** [ball[r <= radius] = MAGNITUDE] *)
Definition mask_assign3 (ball r : volume) (radius magnitude : Z) : result volume :=
  if (length ball =? length r)%nat
     && forallb (fun p => same_shape (fst p) (snd p)) (combine ball r)
  then
    Ok (map (fun p =>
               map (fun q =>
                      map (fun u => if within_radius (snd u) radius then magnitude else fst u)
                          (combine (fst q) (snd q)))
                   (combine (fst p) (snd p)))
            (combine ball r))
  else Raise IndexError.

(** [np.roll(ball, (sx, sy, sz), axis=(0, 1, 2))] *)
Definition roll3 (sx sy sz : Z) (v : volume) : volume :=
  map (roll2 sy sz) (roll [] sx v).

(** The element type of the returned array. *)
Inductive dtype : Type :=
| np_bool
| np_float32.

(** [makeBall(Nx, Ny, Nz, cx, cy, cz, radius, plot_ball=False, binary)]: the
    element type and the cells of the returned array. *)
Definition makeBall (Nx Ny Nz cx cy cz radius : Z) (binary : bool)
  : result (dtype * volume) :=
  let MAGNITUDE := 1 in
  let cx := if cx =? 0 then Nx / 2 + 1 else cx in
  let cy := if cy =? 0 then Ny / 2 + 1 else cy in
  let cz := if cz =? 0 then Nz / 2 + 1 else cz in
  do ball <- np_zeros3 Nx Ny Nz;
  do r <- makePixelMap3 Nx Ny Nz [AStr "Shift"; AInts [0; 0; 0]];
  do ball <- mask_assign3 ball r radius MAGNITUDE;
  let cx := cx - ceil_half Nx in
  let cy := cy - ceil_half Ny in
  let cz := cz - ceil_half Nz in
  Ok (if binary then np_bool else np_float32, roll3 cx cy cz ball).

(** ** IndexConversion: [ind2sub] *)

(** [ind2sub(array_shape, ind)] for a two-dimensional shape of positive
    extents and a one-dimensional array [ind] of 1-based linear indices.
    [np.unravel_index(ind - 1, array_shape, order='F')] refuses an index
    outside the array with a [ValueError] and lets the first axis vary
    fastest; [row[0]] of an empty array is an [IndexError]. *)
Definition ind2sub (array_shape : Z * Z) (ind : list Z) : result (Z * Z) :=
  let '(Nx, Ny) := array_shape in
  if existsb (fun i => (i - 1 <? 0) || (Nx * Ny <=? i - 1)) ind then Raise ValueError
  else
    match ind with
    | [] => Raise IndexError
    | i :: _ => Ok ((i - 1) mod Nx + 1, (i - 1) / Nx + 1)
    end.

(** * Vocabulary of the properties *)

(** The value at the 1-based grid point [(px, py)]; [0] outside the array. *)
Definition at1 (g : grid) (px py : Z) : Z :=
  if (1 <=? px) && (1 <=? py) then cell g (Z.to_nat (px - 1)) (Z.to_nat (py - 1))
  else 0.

(** [g.shape == (Nx, Ny)] *)
Definition shape (g : grid) (Nx Ny : Z) : Prop :=
  Z.of_nat (length g) = Nx /\ Forall (fun row => Z.of_nat (length row) = Ny) g.

(** The cells that are set, as 1-based grid points in row-major order. *)
Definition marked_row (i : Z) (row : list Z) : list (Z * Z) :=
  map (fun jv => (i, Z.of_nat (fst jv) + 1))
      (filter (fun jv => negb (snd jv =? 0)) (combine (seq 0 (length row)) row)).

Definition marked (g : grid) : list (Z * Z) :=
  flat_map (fun ir => marked_row (Z.of_nat (fst ir) + 1) (snd ir))
           (combine (seq 0 (length g)) g).

(** The centre used by the rasterisers: [0] stands for the grid midpoint. *)
Definition effective_centre (N c : Z) : Z := if c =? 0 then N / 2 + 1 else c.

(** ** makeCircle *)

(** A candidate point of [makeCircle] reaches the array when it passes the
    angular test and the bounds test. *)
Definition accepted (in_arc : Z -> Z -> bool) (Nx Ny cx cy : Z) (p : Z * Z) : bool :=
  in_arc (fst p - cx) (snd p - cy) && in_grid Nx Ny (fst p) (snd p).

Definition hits (in_arc : Z -> Z -> bool) (Nx Ny cx cy qx qy : Z) (p : Z * Z) : bool :=
  accepted in_arc Nx Ny cx cy p && (qx =? fst p) && (qy =? snd p).

(** What a set cell of the result of [makeCircle] satisfies: it is inside
    the grid, and it is the first point or passes the angular test. *)
Definition filtered (in_arc : Z -> Z -> bool) (Nx Ny cx cy radius : Z) (g : grid) : Prop :=
  forall px py, at1 g px py <> 0 ->
    in_grid Nx Ny px py = true /\
    ((px = cx /\ py = cy - radius) \/ in_arc (px - cx) (py - cy) = true).

(** The two generators of the eight reflections about [(cx, cy)]: exchange
    of the offsets and negation of the first one. *)
Definition sym_grid (cx cy : Z) (g : grid) : Prop :=
  forall dx dy,
    at1 g (cx + dx) (cy + dy) = at1 g (cx + dy) (cy + dx) /\
    at1 g (cx + dx) (cy + dy) = at1 g (cx - dx) (cy + dy).

Definition sym_pts (cx cy : Z) (pts : list (Z * Z)) : Prop :=
  forall dx dy, In (cx + dx, cy + dy) pts ->
    In (cx + dy, cy + dx) pts /\ In (cx - dx, cy + dy) pts.

(** The four points written before the loop. *)
Definition first_points (cx cy r : Z) : list (Z * Z) :=
  (cx, cy - r) :: cardinal_points cx cy r.

(** The points that the [while] loop generates: the eight reflections of
    every [(x, y)] it reaches, whatever the filters answer. *)
Fixpoint loop_points (cx cy : Z) (n : nat) (x y d : Z) : list (Z * Z) :=
  match n with
  | O => []
  | S n' =>
      if x <? y - 1 then
        let '(x', y', d') := midpoint_step x y d in
        (octant_points cx cy x' y' ++ loop_points cx cy n' x' y' d')%list
      else []
  end.

(** The candidate points of [makeCircle] after the first one: the three
    other cardinal points and the points of the loop, in the order of the
    source. *)
Definition candidates (cx cy radius : Z) : list (Z * Z) :=
  (cardinal_points cx cy radius
   ++ loop_points cx cy (Z.to_nat (radius - 1 - 0)) 0 radius (1 - radius))%list.

(** The writes [circle[px - 1, py - 1] = 1] at the points of a list, one
    after the other and without any test. *)
Fixpoint write_all (pts : list (Z * Z)) (circle : grid) : result grid :=
  match pts with
  | [] => Ok circle
  | p :: rest =>
      do circle' <- grid_set circle (fst p - 1) (snd p - 1) 1;
      write_all rest circle'
  end.

(** ** makeLine *)

(** A path that moves to the next column at every step, staying on its row
    or moving to the next one. *)
Fixpoint rising (x y : Z) (path : list (Z * Z)) : Prop :=
  match path with
  | [] => True
  | (x', y') :: rest => (x' = x \/ x' = x + 1) /\ y' = y + 1 /\ rising x' y' rest
  end.

Definition on_path (path : list (Z * Z)) (px py : Z) : bool :=
  existsb (fun pt => (px =? fst pt) && (py =? snd pt)) path.

(** The deviation of the point [(x, y)] from the line through [(0, 0)] and
    [(p, q)], scaled by [q]. *)
Definition deviation (p q x y : Z) : Z := x * q - y * p.

(** An entry of [diff = (poss_x - true_x)**2]. *)
Definition diff_x_entry (m c : Q) (px py : Z) : Q :=
  let true_x := ((inject_Z py - c) / m)%Q in
  let e := (inject_Z px - true_x)%Q in
  (e * e)%Q.

(** The invariant of the loop of the branch [abs(m) >= 1] on the diagonal:
    the current point is within half a cell of the line, and on it when the
    line is the exact diagonal. *)
Definition near_line (p q x y : Z) : Prop :=
  2 * Z.abs (deviation p q x y) <= q /\ (p = q -> deviation p q x y = 0).

(** The direction in which each branch moves. *)
Definition sector_dir (s : sector) : Z * Z :=
  match s with
  | AlongPi => (0, 1)
  | BetweenHalfPiAndPi _ => (-1, 1)
  | AlongHalfPi => (-1, 0)
  | BetweenZeroAndHalfPi _ => (-1, -1)
  | AlongZero => (0, -1)
  | BetweenMinusHalfPiAndZero _ => (1, -1)
  | AlongMinusHalfPi => (1, 0)
  | BetweenMinusPiAndMinusHalfPi _ => (1, 1)
  end.

(** The points a branch can reach from the start point, and the number of
    steps that lead to them. *)
Definition sector_region (startpoint : Z * Z) (s : sector) (x y : Z) : Prop :=
  let '(sx, sy) := startpoint in
  let '(ux, uy) := sector_dir s in
  0 <= ux * (x - sx) /\ 0 <= uy * (y - sy) /\
  (ux = 0 -> x = sx) /\ (uy = 0 -> y = sy).

Definition sector_progress (startpoint : Z * Z) (s : sector) (x y : Z) : Z :=
  let '(sx, sy) := startpoint in
  let '(ux, uy) := sector_dir s in
  ux * (x - sx) + uy * (y - sy).

(** ** makeArc *)

(** The inputs that pass the validation of [makeArc] when the radius is
    infinite. *)
Definition valid_flat_arc (grid_size arc_pos : Z * Z) (diameter : Z) (focus_pos : Z * Z)
  : Prop :=
  1 <= fst grid_size /\ 1 <= snd grid_size /\
  0 < diameter /\ diameter mod 2 = 1 /\
  1 <= fst arc_pos <= fst grid_size /\ 1 <= snd arc_pos <= snd grid_size /\
  arc_pos <> focus_pos.

(** ** Results of the evaluations *)

Definition disc_5 : grid :=
  [[0;0;0;0;0]; [0;0;1;0;0]; [0;1;1;1;0]; [0;0;1;0;0]; [0;0;0;0;0]].

Definition circle_5_zero_aperture : grid :=
  [[0;0;0;0;0]; [0;0;0;0;0]; [0;1;0;0;0]; [0;0;0;0;0]; [0;0;0;0;0]].

Definition circle_9_full : grid :=
  [[0;0;0;0;0;0;0;0;0]; [0;0;0;1;1;1;0;0;0]; [0;0;1;0;0;0;1;0;0];
   [0;1;0;0;0;0;0;1;0]; [0;1;0;0;0;0;0;1;0]; [0;1;0;0;0;0;0;1;0];
   [0;0;1;0;0;0;1;0;0]; [0;0;0;1;1;1;0;0;0]; [0;0;0;0;0;0;0;0;0]].



Definition line_from_outside : grid := [[0;0;0]; [0;0;0]; [1;0;0]].

Definition flat_arc_5 : grid :=
  [[0;0;0;0;0]; [0;0;1;0;0]; [0;0;1;0;0]; [0;0;1;0;0]; [0;0;0;0;0]].

(** ** makeDisc and makeBall *)

(** The offset [d] from the centre, taken modulo the size [N] of the axis
    into the range of the centred coordinates. *)
Definition wrap_offset (N d : Z) : Z :=
  (d + (ceil_half N - 1)) mod N - (ceil_half N - 1).

(** The value of a volume at the 1-based grid point [(px, py, pz)]. *)
Definition at3 (v : volume) (px py pz : Z) : Z :=
  if 1 <=? px then at1 (nth (Z.to_nat (px - 1)) v []) py pz else 0.

(** [v.shape == (Nx, Ny, Nz)] *)
Definition shape3 (v : volume) (Nx Ny Nz : Z) : Prop :=
  Z.of_nat (length v) = Nx /\ Forall (fun g => shape g Ny Nz) v.

(** ** makeCircle: the ring of the set cells *)

(** The set cells lie on a ring about the circle of radius [r]. *)
Definition on_ring (cx cy r : Z) (g : grid) : Prop :=
  forall px py, at1 g px py <> 0 ->
    r * r - r <= (px - cx) * (px - cx) + (py - cy) * (py - cy) <= r * r + r.

(** The decision variable as a function of the loop variables, and its
    bounds. *)
Definition decision (r x y d : Z) : Prop :=
  0 <= x <= y /\ y <= r /\
  d = x * x + y * y + 2 * x - 2 * y + 1 + r - r * r /\
  - 2 * y <= d <= 2 * x /\ 2 * x - 2 * y + 1 <= d.

(** ** makeCartCircle *)

(** The point of [makeCartCircle] at the angle [t]. *)
Definition cart_x (radius cx t : R) : R := (radius * cos t + cx)%R.
Definition cart_y (radius cy t : R) : R := (radius * sin (- t) + cy)%R.

(** ** makeLine: the branches of the two modes *)

(** A grid point inside the grid. *)
Definition inside (Nx Ny : Z) (p : Z * Z) : Prop :=
  1 <= fst p <= Nx /\ 1 <= snd p <= Ny.

(** The deviation of the point [(x, y)] from the line through [(x0, y0)]
    and [(x0 + p, y0 + q)], scaled by [q]. *)
Definition deviation_from (x0 y0 p q x y : Z) : Z := deviation p q (x - x0) (y - y0).

(** The invariant of the loop of the branch [abs(m) >= 1]: the current point
    is within half a cell of the line along x, and on the line when the
    line is a diagonal. *)
Definition steep_near (p q d : Z) : Prop :=
  2 * Z.abs d <= q /\ (Z.abs p = q -> d = 0).

(** The offset of the point [(x, y)] from the line through [a] and [b]: its
    distance from the line along x times the extent of the line along y,
    which is, up to the sign, its distance along y times the extent along
    x. *)
Definition line_offset (a b : Z * Z) (x y : Z) : Z :=
  (x - fst a) * (snd b - snd a) - (y - snd a) * (fst b - fst a).

(** The cell [(px, py)] is the point number [j] of the ray from [(sx, sy)]
    in the direction [(ux, uy)] of an axis, for some [lo < j <= hi], and it
    lies inside the grid. *)
Definition axis_cell (Nx Ny sx sy ux uy lo hi px py : Z) : bool :=
  let j := (px - sx) * ux + (py - sy) * uy in
  (lo <? j) && (j <=? hi) && (px =? sx + j * ux) && (py =? sy + j * uy)
  && (1 <=? px) && (px <=? Nx) && (1 <=? py) && (py <=? Ny).

(** The angles of the four branches that step along an axis, with the step
    of each. *)
Definition axis_direction (angle : R) (u : Z * Z) : Prop :=
  (angle = 0%R /\ u = (0, -1)) \/ (angle = (PI / 2)%R /\ u = (-1, 0)) \/
  (angle = PI /\ u = (0, 1)) \/ (angle = (- PI / 2)%R /\ u = (1, 0)).

Definition axis_sector (s : sector) : bool :=
  match s with
  | AlongPi | AlongHalfPi | AlongZero | AlongMinusHalfPi => true
  | _ => false
  end.

(** ** makeArc: the validation and the two kinds of arc *)

(** The inputs that pass the validation of [makeArc]. *)
Definition valid_arc (grid_size arc_pos : Z * Z) (radius : radius_t) (diameter : Z)
           (focus_pos : Z * Z) : Prop :=
  1 <= fst grid_size /\ 1 <= snd grid_size /\
  match radius with
  | Radius r => 0 < r /\ diameter <= 2 * r
  | RadiusInf => True
  | RadiusNegInf => False
  end /\
  0 < diameter /\ diameter mod 2 = 1 /\
  inside (fst grid_size) (snd grid_size) arc_pos /\ arc_pos <> focus_pos.

(** The centre of the circle on which the arc lies, as [makeArc] rounds
    it. *)
Definition arc_centre (arc_pos focus_pos : Z * Z) (r : Z) : Z * Z :=
  let '(ax, ay) := arc_pos in
  let '(fx, fy) := focus_pos in
  let distance_cf := sqrt (IZR ((ax - fx) * (ax - fx) + (ay - fy) * (ay - fy))) in
  (py_round (IZR r / distance_cf * IZR (fx - ax) + IZR ax),
   py_round (IZR r / distance_cf * IZR (fy - ay) + IZR ay)).

(** What [makeArc] computes once the validation is passed. *)
Definition arc_body (theta_above : angle_test) (grid_size arc_pos : Z * Z)
           (radius : radius_t) (diameter : Z) (focus_pos : Z * Z) : result grid :=
  let '(Nx, Ny) := grid_size in
  match radius with
  | Radius r =>
      let c := arc_centre arc_pos focus_pos r in
      do arc <- makeCircle Nx Ny (fst c) (snd c) r None;
      Ok (clip_arc (theta_above c arc_pos diameter r) arc)
  | _ =>
      let ang := (arctan_quotient (fst focus_pos - fst arc_pos)
                                  (snd focus_pos - snd arc_pos) + PI / 2)%R in
      do line1 <- makeLine Nx Ny arc_pos None (Some ang) (Some ((diameter - 1) / 2));
      do line2 <- makeLine Nx Ny arc_pos None (Some (ang + PI)%R) (Some ((diameter - 1) / 2));
      Ok (logical_or line1 line2)
  end.

(** * Lemmas *)

(** ** Arrays *)

Lemma length_list_set {A : Type} (l : list A) (k : nat) (v : A) :
  length (list_set l k v) = length l.
Proof.
  revert k; induction l as [|h t IH]; intros [|k]; simpl; auto.
Qed.

Lemma nth_list_set {A : Type} (l : list A) (k m : nat) (v d : A) :
  (k < length l)%nat ->
  nth m (list_set l k v) d = if (m =? k)%nat then v else nth m l d.
Proof.
  revert k m; induction l as [|h t IH]; intros k m Hk; simpl in Hk; [lia|].
  destruct k as [|k], m as [|m]; simpl; auto.
  apply IH; lia.
Qed.

Lemma Forall_list_set {A : Type} (P : A -> Prop) (l : list A) (k : nat) (v : A) :
  Forall P l -> P v -> Forall P (list_set l k v).
Proof.
  intros Hl Hv; revert k; induction Hl as [|h t Hh Ht IH]; intros [|k]; simpl;
    constructor; auto.
Qed.

Lemma py_index_in_range (n : nat) (i : Z) :
  0 <= i < Z.of_nat n -> py_index n i = Some (Z.to_nat i).
Proof.
  intros H. unfold py_index.
  replace ((0 <=? i) && (i <? Z.of_nat n)) with true; [reflexivity|].
  symmetry; apply andb_true_iff; split; [apply Z.leb_le | apply Z.ltb_lt]; lia.
Qed.

Lemma py_index_valid (n : nat) (i : Z) :
  - Z.of_nat n <= i < Z.of_nat n -> exists k, py_index n i = Some k /\ (k < n)%nat.
Proof.
  intros H. unfold py_index.
  destruct ((0 <=? i) && (i <? Z.of_nat n)) eqn:E1.
  - apply andb_true_iff in E1. rewrite Z.leb_le, Z.ltb_lt in E1.
    eexists; split; [reflexivity|lia].
  - destruct ((- Z.of_nat n <=? i) && (i <? 0)) eqn:E2.
    + apply andb_true_iff in E2. rewrite Z.leb_le, Z.ltb_lt in E2.
      eexists; split; [reflexivity|lia].
    + apply andb_false_iff in E1. apply andb_false_iff in E2.
      rewrite Z.leb_gt, Z.ltb_ge in E1. rewrite Z.leb_gt, Z.ltb_ge in E2. lia.
Qed.

Lemma np_zeros_ok (Nx Ny : Z) :
  0 <= Nx -> 0 <= Ny ->
  exists g, np_zeros Nx Ny = Ok g /\ shape g Nx Ny /\ forall px py, at1 g px py = 0.
Proof.
  intros Hx Hy. unfold np_zeros.
  replace ((Nx <? 0) || (Ny <? 0)) with false
    by (symmetry; apply orb_false_iff; split; apply Z.ltb_ge; lia).
  eexists; split; [reflexivity|]. split.
  - split; [rewrite repeat_length; lia|].
    apply Forall_forall. intros row Hrow. apply repeat_spec in Hrow. subst row.
    rewrite repeat_length; lia.
  - intros px py. unfold at1, cell.
    destruct ((1 <=? px) && (1 <=? py)); [|reflexivity].
    set (i := Z.to_nat (px - 1)). set (j := Z.to_nat (py - 1)).
    destruct (Nat.lt_ge_cases i (Z.to_nat Nx)) as [Hi|Hi].
    + rewrite nth_repeat_lt by exact Hi.
      destruct (Nat.lt_ge_cases j (Z.to_nat Ny)) as [Hj|Hj].
      * now rewrite nth_repeat_lt.
      * apply nth_overflow. rewrite repeat_length. exact Hj.
    + rewrite (nth_overflow (repeat _ (Z.to_nat Nx))) by (rewrite repeat_length; exact Hi).
      now destruct j.
Qed.

Lemma np_zeros_neg (Nx Ny : Z) :
  Nx < 0 \/ Ny < 0 -> np_zeros Nx Ny = Raise ValueError.
Proof.
  intros H. unfold np_zeros.
  replace ((Nx <? 0) || (Ny <? 0)) with true; [reflexivity|].
  symmetry; apply orb_true_iff. destruct H; [left|right]; apply Z.ltb_lt; lia.
Qed.

(** A write at a grid point inside the array succeeds, keeps the shape and
    changes that point alone. *)
Lemma grid_set_in_grid (g : grid) (Nx Ny px py v : Z) :
  shape g Nx Ny -> 1 <= px <= Nx -> 1 <= py <= Ny ->
  exists g', grid_set g (px - 1) (py - 1) v = Ok g' /\ shape g' Nx Ny /\
    forall qx qy, at1 g' qx qy = if (qx =? px) && (qy =? py) then v else at1 g qx qy.
Proof.
  intros [Hlen Hrows] Hx Hy. unfold grid_set.
  rewrite py_index_in_range by lia.
  set (i := Z.to_nat (px - 1)).
  assert (Hi : (i < length g)%nat) by lia.
  assert (Hrow : Z.of_nat (length (nth i g [])) = Ny).
  { rewrite Forall_forall in Hrows. apply Hrows. now apply nth_In. }
  rewrite py_index_in_range by lia.
  set (j := Z.to_nat (py - 1)).
  assert (Hj : (j < length (nth i g []))%nat) by lia.
  eexists; split; [reflexivity|]. split.
  - split; [rewrite length_list_set; exact Hlen|].
    apply Forall_list_set; [exact Hrows|]. now rewrite length_list_set.
  - intros qx qy. unfold at1, cell.
    destruct (1 <=? qx) eqn:Eqx; simpl.
    2:{ destruct (qx =? px) eqn:E; [|reflexivity].
        apply Z.eqb_eq in E. apply Z.leb_gt in Eqx. lia. }
    destruct (1 <=? qy) eqn:Eqy; simpl.
    2:{ destruct (qy =? py) eqn:E; [|now rewrite andb_false_r].
        apply Z.eqb_eq in E. apply Z.leb_gt in Eqy. lia. }
    apply Z.leb_le in Eqx, Eqy.
    rewrite (nth_list_set g i _ _ []) by exact Hi.
    destruct (qx =? px) eqn:Ex; simpl.
    + apply Z.eqb_eq in Ex. subst qx. rewrite Nat.eqb_refl.
      rewrite (nth_list_set _ j _ _ 0) by exact Hj.
      destruct (qy =? py) eqn:Ey.
      * apply Z.eqb_eq in Ey. subst qy. now rewrite Nat.eqb_refl.
      * apply Z.eqb_neq in Ey.
        replace (Z.to_nat (qy - 1) =? j)%nat with false; [reflexivity|].
        symmetry; apply Nat.eqb_neq. unfold j. lia.
    + apply Z.eqb_neq in Ex.
      replace (Z.to_nat (qx - 1) =? i)%nat with false; [reflexivity|].
      symmetry; apply Nat.eqb_neq. unfold i. lia.
Qed.

(** A write through indices that numpy accepts succeeds and keeps the
    shape. *)
Lemma grid_set_index (g : grid) (Nx Ny i j v : Z) :
  shape g Nx Ny -> - Nx <= i < Nx -> - Ny <= j < Ny ->
  exists g', grid_set g i j v = Ok g' /\ shape g' Nx Ny.
Proof.
  intros [Hlen Hrows] Hi Hj. unfold grid_set.
  destruct (py_index_valid (length g) i) as (i' & Ei & Hi'); [lia|]. rewrite Ei.
  assert (Hrow : Z.of_nat (length (nth i' g [])) = Ny).
  { rewrite Forall_forall in Hrows. apply Hrows. now apply nth_In. }
  destruct (py_index_valid (length (nth i' g [])) j) as (j' & Ej & Hj'); [lia|].
  rewrite Ej. eexists; split; [reflexivity|].
  split; [rewrite length_list_set; exact Hlen|].
  apply Forall_list_set; [exact Hrows|]. now rewrite length_list_set.
Qed.

Lemma last_cons_default {A : Type} (a d : A) (l : list A) : last (a :: l) d = last l a.
Proof.
  revert a d. induction l as [|b l IH]; intros a d; [reflexivity|].
  change (last (a :: b :: l) d) with (last (b :: l) d). rewrite !IH. reflexivity.
Qed.

(** ** Arrays: cells and the cell-wise OR *)

Lemma nth_map_combine {A B C : Type} (f : A * B -> C) (la : list A) (lb : list B)
      (i : nat) (da : A) (db : B) (dc : C) :
  length la = length lb -> (i < length la)%nat ->
  nth i (map f (combine la lb)) dc = f (nth i la da, nth i lb db).
Proof.
  intros Hlen Hi.
  rewrite (nth_indep _ dc (f (da, db))) by (rewrite length_map, length_combine; lia).
  rewrite (map_nth f). now rewrite combine_nth.
Qed.

Lemma shape_row (g : grid) (Nx Ny : Z) (i : nat) :
  shape g Nx Ny -> Z.of_nat i < Nx -> Z.of_nat (length (nth i g [])) = Ny.
Proof.
  intros [Hlen Hrows] Hi. rewrite Forall_forall in Hrows.
  apply Hrows. apply nth_In. lia.
Qed.

Lemma at1_cell (g : grid) (px py : Z) :
  1 <= px -> 1 <= py -> at1 g px py = cell g (Z.to_nat (px - 1)) (Z.to_nat (py - 1)).
Proof.
  intros Hx Hy. unfold at1.
  now replace ((1 <=? px) && (1 <=? py)) with true
    by (symmetry; rewrite andb_true_iff, !Z.leb_le; lia).
Qed.

Lemma at1_outside (g : grid) (Nx Ny px py : Z) :
  shape g Nx Ny -> ~ (1 <= px <= Nx /\ 1 <= py <= Ny) -> at1 g px py = 0.
Proof.
  intros Hs Hout. unfold at1.
  destruct ((1 <=? px) && (1 <=? py)) eqn:E; [|reflexivity].
  apply andb_true_iff in E. rewrite !Z.leb_le in E. unfold cell.
  destruct (Z_lt_le_dec (px - 1) Nx) as [Hx|Hx].
  - apply nth_overflow.
    pose proof (shape_row g Nx Ny (Z.to_nat (px - 1)) Hs ltac:(lia)). lia.
  - rewrite (nth_overflow g) by (destruct Hs as [Hlen _]; lia).
    now destruct (Z.to_nat (py - 1)).
Qed.

Lemma logical_or_cells (g1 g2 : grid) (Nx Ny : Z) :
  shape g1 Nx Ny -> shape g2 Nx Ny ->
  shape (logical_or g1 g2) Nx Ny /\
  forall px py, at1 (logical_or g1 g2) px py
                = if negb (at1 g1 px py =? 0) || negb (at1 g2 px py =? 0) then 1 else 0.
Proof.
  intros Hs1 Hs2.
  assert (Hs : shape (logical_or g1 g2) Nx Ny).
  { destruct Hs1 as [Hl1 Hr1], Hs2 as [Hl2 Hr2]. unfold logical_or. split.
    - rewrite length_map, length_combine. lia.
    - apply Forall_forall. intros row Hrow. apply in_map_iff in Hrow.
      destruct Hrow as ([r1 r2] & <- & Hin). cbn [fst snd].
      rewrite length_map, length_combine.
      rewrite Forall_forall in Hr1, Hr2.
      pose proof (Hr1 r1 (in_combine_l _ _ _ _ Hin)).
      pose proof (Hr2 r2 (in_combine_r _ _ _ _ Hin)). lia. }
  split; [exact Hs|]. intros px py.
  destruct (Z_le_gt_dec 1 px) as [Hx1|Hx1].
  2:{ rewrite !(at1_outside _ Nx Ny px py) by (assumption || lia). reflexivity. }
  destruct (Z_le_gt_dec px Nx) as [Hx2|Hx2].
  2:{ rewrite !(at1_outside _ Nx Ny px py) by (assumption || lia). reflexivity. }
  destruct (Z_le_gt_dec 1 py) as [Hy1|Hy1].
  2:{ rewrite !(at1_outside _ Nx Ny px py) by (assumption || lia). reflexivity. }
  destruct (Z_le_gt_dec py Ny) as [Hy2|Hy2].
  2:{ rewrite !(at1_outside _ Nx Ny px py) by (assumption || lia). reflexivity. }
  rewrite !at1_cell by lia. unfold cell, logical_or.
  set (i := Z.to_nat (px - 1)). set (j := Z.to_nat (py - 1)).
  assert (Hl1 : Z.of_nat (length g1) = Nx) by apply Hs1.
  assert (Hl2 : Z.of_nat (length g2) = Nx) by apply Hs2.
  rewrite (nth_map_combine _ g1 g2 i [] [] []) by lia. cbn [fst snd].
  pose proof (shape_row g1 Nx Ny i Hs1 ltac:(lia)) as Hr1.
  pose proof (shape_row g2 Nx Ny i Hs2 ltac:(lia)) as Hr2.
  rewrite (nth_map_combine _ (nth i g1 []) (nth i g2 []) j 0 0 0) by lia.
  reflexivity.
Qed.

(** ** Real and rational numbers *)

Lemma Reqb_false (a b : R) : a <> b -> Reqb a b = false.
Proof.
  intros H. unfold Reqb. destruct (Req_dec_T a b); [contradiction|reflexivity].
Qed.

Lemma Reqb_true (a : R) : Reqb a a = true.
Proof.
  unfold Reqb. destruct (Req_dec_T a a); [reflexivity|contradiction].
Qed.

Lemma Rltb_true (a b : R) : (a < b)%R -> Rltb a b = true.
Proof.
  intros H. unfold Rltb. destruct (Rlt_dec a b); [reflexivity|contradiction].
Qed.

Lemma Rltb_false (a b : R) : (b <= a)%R -> Rltb a b = false.
Proof.
  intros H. unfold Rltb. destruct (Rlt_dec a b); [lra|reflexivity].
Qed.

Lemma Rleb_total (a b : R) : Rleb a b = true \/ Rleb b a = true.
Proof.
  unfold Rleb. destruct (Rle_dec a b); [now left|].
  destruct (Rle_dec b a); [now right|lra].
Qed.

Lemma Rleb_trans (a b c : R) : Rleb a b = true -> Rleb b c = true -> Rleb a c = true.
Proof.
  unfold Rleb. destruct (Rle_dec a b); [|discriminate].
  destruct (Rle_dec b c); [|discriminate].
  destruct (Rle_dec a c); [reflexivity|lra].
Qed.

Lemma atan_nonpos (t : R) : (t <= 0)%R -> (atan t <= 0)%R.
Proof.
  intros [H|H].
  - left. rewrite <- atan_0. now apply atan_increasing.
  - subst t. rewrite atan_0. lra.
Qed.

Lemma atan_pos (t : R) : (0 < t)%R -> (0 < atan t)%R.
Proof.
  intros H. rewrite <- atan_0. now apply atan_increasing.
Qed.

Lemma arctan2_bounds (y x : R) : (- PI < arctan2 y x <= PI)%R.
Proof.
  pose proof PI_RGT_0 as Hpi. unfold arctan2.
  destruct (Rlt_dec 0 x) as [Hx|Hx].
  - pose proof (atan_bound (y / x)). lra.
  - destruct (Rlt_dec x 0) as [Hx'|Hx'].
    + destruct (Rle_dec 0 y) as [Hy|Hy].
      * pose proof (atan_bound (y / x)).
        assert (atan (y / x) <= 0)%R.
        { apply atan_nonpos. unfold Rdiv.
          assert (/ x < 0)%R by now apply Rinv_lt_0_compat.
          nra. }
        lra.
      * pose proof (atan_bound (y / x)).
        assert (0 < atan (y / x))%R.
        { apply atan_pos. unfold Rdiv.
          assert (/ x < 0)%R by now apply Rinv_lt_0_compat.
          nra. }
        lra.
    + destruct (Rlt_dec 0 y); [lra|]. destruct (Rlt_dec y 0); lra.
Qed.

Lemma arctan2_zero_negative (t : R) : (t < 0)%R -> arctan2 0 t = PI.
Proof.
  intros Ht. unfold arctan2.
  destruct (Rlt_dec 0 t); [lra|]. destruct (Rlt_dec t 0); [|lra].
  destruct (Rle_dec 0 0); [|lra].
  unfold Rdiv. rewrite Rmult_0_l, atan_0. lra.
Qed.

Lemma Int_part_0 : Int_part 0 = 0.
Proof. symmetry. apply Int_part_spec. simpl. lra. Qed.

Lemma Qle_bool_total (a b : Q) : Qle_bool a b = true \/ Qle_bool b a = true.
Proof.
  rewrite !Qle_bool_iff. destruct (Qlt_le_dec a b) as [H|H]; [left|right]; auto.
  now apply Qlt_le_weak.
Qed.

Lemma Qle_bool_trans (a b c : Q) :
  Qle_bool a b = true -> Qle_bool b c = true -> Qle_bool a c = true.
Proof. rewrite !Qle_bool_iff. apply Qle_trans. Qed.

Lemma inject_Z_sub (x y : Z) : inject_Z (x - y) = (inject_Z x - inject_Z y)%Q.
Proof.
  unfold Z.sub. now rewrite inject_Z_plus, inject_Z_opp.
Qed.

Lemma square_le_abs (a b : Z) : a * a <= b * b -> Z.abs a <= Z.abs b.
Proof.
  intros H. rewrite <- (Z.abs_square a), <- (Z.abs_square b) in H.
  apply Z.square_le_simpl_nonneg; [apply Z.abs_nonneg|exact H].
Qed.

(** ** createPixelDim *)

Lemma arange_length (a b : Z) : length (arange a b) = Z.to_nat (b - a).
Proof. unfold arange. now rewrite length_map, length_seq. Qed.

Lemma arange_empty (a b : Z) : b <= a -> arange a b = [].
Proof.
  intros H. unfold arange.
  replace (Z.to_nat (b - a)) with O by lia. reflexivity.
Qed.

Lemma createPixelDim_even_double (N shift : Z) :
  0 < N -> N mod 2 = 0 ->
  createPixelDim N "double" shift = arange (- (N / 2) + 1) 1 /\
  Z.of_nat (length (createPixelDim N "double" shift)) = N / 2.
Proof.
  intros Hpos Heven. unfold createPixelDim.
  rewrite Heven. cbn [Z.eqb String.eqb Ascii.eqb Bool.eqb].
  replace (0 + 1) with 1 by lia.
  assert (Hhalf : 0 < N / 2).
  { apply Z.div_str_pos. pose proof (Z.mod_divide N 2). 
    destruct (Z.eq_dec N 1) as [->|]; [discriminate|]. lia. }
  rewrite (arange_empty 0 (- (N / 2) - 1 + 1)) by lia.
  rewrite app_nil_r. split; [reflexivity|].
  rewrite arange_length. lia.
Qed.

(** ** makeCircle: the two filters *)

Section MidpointCircleFacts.

Variable in_arc : Z -> Z -> bool.
Variables Nx Ny cx cy : Z.

Lemma in_grid_bounds (px py : Z) :
  in_grid Nx Ny px py = true <-> 1 <= px <= Nx /\ 1 <= py <= Ny.
Proof.
  unfold in_grid. rewrite !andb_true_iff, !Z.leb_le. lia.
Qed.

Lemma plot_spec (g : grid) (p : Z * Z) :
  shape g Nx Ny ->
  exists g', plot in_arc Nx Ny cx cy g p = Ok g' /\ shape g' Nx Ny /\
    forall qx qy, at1 g' qx qy = if hits in_arc Nx Ny cx cy qx qy p then 1 else at1 g qx qy.
Proof.
  intros Hs. destruct p as [px py]. unfold plot, hits, accepted. simpl.
  destruct (in_arc (px - cx) (py - cy)); simpl.
  2:{ exists g. auto. }
  destruct (in_grid Nx Ny px py) eqn:Hg; simpl.
  2:{ exists g. auto. }
  apply in_grid_bounds in Hg. destruct Hg as [Hx Hy].
  destruct (grid_set_in_grid g Nx Ny px py 1 Hs Hx Hy) as (g' & Hset & Hs' & Hat).
  exists g'. auto.
Qed.

Lemma plot_all_spec (pts : list (Z * Z)) (g : grid) :
  shape g Nx Ny ->
  exists g', plot_all in_arc Nx Ny cx cy pts g = Ok g' /\ shape g' Nx Ny /\
    forall qx qy, at1 g' qx qy = if existsb (hits in_arc Nx Ny cx cy qx qy) pts then 1 else at1 g qx qy.
Proof.
  revert g; induction pts as [|p rest IH]; intros g Hs; simpl.
  - exists g. auto.
  - destruct (plot_spec g p Hs) as (g1 & E1 & Hs1 & Hat1).
    rewrite E1. simpl.
    destruct (IH g1 Hs1) as (g2 & E2 & Hs2 & Hat2).
    exists g2. split; [exact E2|]. split; [exact Hs2|].
    intros qx qy. rewrite Hat2, Hat1.
    destruct (hits in_arc Nx Ny cx cy qx qy p); simpl; [|reflexivity].
    now destruct (existsb (hits in_arc Nx Ny cx cy qx qy) rest).
Qed.

Lemma plot_first_spec (y : Z) (g : grid) :
  shape g Nx Ny ->
  exists g', plot_first Nx Ny cx cy y g = Ok g' /\ shape g' Nx Ny /\
    forall qx qy,
      at1 g' qx qy =
      if in_grid Nx Ny cx (cy - y) && (qx =? cx) && (qy =? cy - y) then 1
      else at1 g qx qy.
Proof.
  intros Hs. unfold plot_first.
  destruct (in_grid Nx Ny cx (cy - y)) eqn:Hg; simpl.
  2:{ exists g. auto. }
  apply in_grid_bounds in Hg. destruct Hg as [Hx Hy].
  destruct (grid_set_in_grid g Nx Ny cx (cy - y) 1 Hs Hx Hy) as (g' & Hset & Hs' & Hat).
  exists g'. auto.
Qed.

Lemma midpoint_step_measure (x y d : Z) :
  let '(x', y', _) := midpoint_step x y d in
  x' = x + 1 /\ y - 1 <= y' <= y.
Proof.
  unfold midpoint_step. destruct (d <? 0); lia.
Qed.

(** The rule of the [while] loop: an invariant kept by the body holds at the
    exit, and [n] iterations suffice as soon as [y - 1 - x <= n]. *)
Lemma circle_loop_rule (P : Z -> Z -> grid -> Prop) :
  (forall x y d g, P x y g -> x < y - 1 ->
     let '(x', y', _) := midpoint_step x y d in
     exists g', plot_all in_arc Nx Ny cx cy (octant_points cx cy x' y') g = Ok g' /\
                P x' y' g') ->
  forall n x y d g,
    P x y g -> y - 1 - x <= Z.of_nat n ->
    exists x' y' d' g',
      circle_loop in_arc Nx Ny cx cy n x y d g = Ok (x', y', d', g') /\
      P x' y' g' /\ y' - 1 <= x'.
Proof.
  intros Hbody. induction n as [|n IH]; intros x y d g HP Hn; cbn [circle_loop].
  - exists x, y, d, g. repeat split; auto. lia.
  - destruct (x <? y - 1) eqn:Hc.
    + apply Z.ltb_lt in Hc.
      specialize (Hbody x y d g HP Hc).
      pose proof (midpoint_step_measure x y d) as Hm.
      destruct (midpoint_step x y d) as [[x1 y1] d1].
      destruct Hbody as (g1 & E1 & HP1). rewrite E1. cbn [bind].
      apply IH; [exact HP1|lia].
    + apply Z.ltb_ge in Hc.
      exists x, y, d, g. repeat split; auto.
Qed.

Lemma hits_accepted (qx qy : Z) (pts : list (Z * Z)) :
  existsb (hits in_arc Nx Ny cx cy qx qy) pts = true ->
  in_grid Nx Ny qx qy = true /\ in_arc (qx - cx) (qy - cy) = true.
Proof.
  intros H. apply existsb_exists in H. destruct H as ([px py] & _ & H).
  unfold hits, accepted in H. simpl in H.
  apply andb_true_iff in H. destruct H as [H Hy].
  apply andb_true_iff in H. destruct H as [H Hx].
  apply andb_true_iff in H. destruct H as [Ha Hg].
  apply Z.eqb_eq in Hx, Hy. subst. auto.
Qed.

Lemma plot_all_filtered (radius : Z) (pts : list (Z * Z)) (g : grid) :
  shape g Nx Ny -> filtered in_arc Nx Ny cx cy radius g ->
  exists g', plot_all in_arc Nx Ny cx cy pts g = Ok g' /\
             shape g' Nx Ny /\ filtered in_arc Nx Ny cx cy radius g'.
Proof.
  intros Hs Hf.
  destruct (plot_all_spec pts g Hs) as (g' & E & Hs' & Hat).
  exists g'. split; [exact E|]. split; [exact Hs'|].
  intros px py Hne. rewrite Hat in Hne.
  destruct (existsb (hits in_arc Nx Ny cx cy px py) pts) eqn:Hh.
  - apply hits_accepted in Hh. destruct Hh. auto.
  - auto.
Qed.

Lemma circle_body_filtered (radius : Z) (g0 : grid) :
  shape g0 Nx Ny -> (forall px py, at1 g0 px py = 0) ->
  exists g1 g2 x y d g,
    plot_first Nx Ny cx cy radius g0 = Ok g1 /\
    plot_all in_arc Nx Ny cx cy (cardinal_points cx cy radius) g1 = Ok g2 /\
    circle_loop in_arc Nx Ny cx cy (Z.to_nat (radius - 1 - 0)) 0 radius (1 - radius) g2
      = Ok (x, y, d, g) /\
    shape g Nx Ny /\ filtered in_arc Nx Ny cx cy radius g /\ y - 1 <= x.
Proof.
  intros Hs H0.
  destruct (plot_first_spec radius g0 Hs) as (g1 & E1 & Hs1 & Hat1).
  assert (Hf1 : filtered in_arc Nx Ny cx cy radius g1).
  { intros px py Hne. rewrite Hat1, H0 in Hne.
    destruct (in_grid Nx Ny cx (cy - radius)) eqn:Hg; simpl in Hne; [|congruence].
    destruct (px =? cx) eqn:Ex; simpl in Hne; [|congruence].
    destruct (py =? cy - radius) eqn:Ey; [|congruence].
    apply Z.eqb_eq in Ex, Ey. subst. auto. }
  destruct (plot_all_filtered radius (cardinal_points cx cy radius) g1 Hs1 Hf1)
    as (g2 & E2 & Hs2 & Hf2).
  destruct (circle_loop_rule (fun _ _ g => shape g Nx Ny /\ filtered in_arc Nx Ny cx cy radius g))
    with (n := Z.to_nat (radius - 1 - 0)) (x := 0) (y := radius) (d := 1 - radius) (g := g2)
    as (x & y & d & g & E3 & [Hs3 Hf3] & Hexit).
  - intros x y d g [Hsg Hfg] _.
    destruct (midpoint_step x y d) as [[x' y'] d'].
    destruct (plot_all_filtered radius (octant_points cx cy x' y') g Hsg Hfg)
      as (g' & E & Hs' & Hf').
    exists g'. auto.
  - auto.
  - lia.
  - exists g1, g2, x, y, d, g. auto 10.
Qed.

End MidpointCircleFacts.

Lemma effective_centre_nonzero (N c : Z) : c <> 0 -> effective_centre N c = c.
Proof.
  intros H. unfold effective_centre. now apply Z.eqb_neq in H as ->.
Qed.

Lemma makeCircle_with_returns (in_arc : Z -> Z -> bool) (Nx Ny cx cy radius : Z) :
  0 <= Nx -> 0 <= Ny ->
  exists g, makeCircle_with in_arc Nx Ny cx cy radius = Ok g /\ shape g Nx Ny /\
    filtered in_arc Nx Ny (effective_centre Nx cx) (effective_centre Ny cy) radius g.
Proof.
  intros Hx Hy. unfold makeCircle_with.
  destruct (np_zeros_ok Nx Ny Hx Hy) as (g0 & E0 & Hs0 & Hz0). rewrite E0. cbn [bind].
  fold (effective_centre Nx cx). fold (effective_centre Ny cy).
  destruct (circle_body_filtered in_arc Nx Ny (effective_centre Nx cx)
              (effective_centre Ny cy) radius g0 Hs0 Hz0)
    as (g1 & g2 & x & y & d & g & E1 & E2 & E3 & Hs & Hf & _).
  rewrite E1. cbn [bind]. rewrite E2. cbn [bind]. rewrite E3. cbn [bind snd].
  exists g. auto.
Qed.

Lemma makeCircle_with_raises (in_arc : Z -> Z -> bool) (Nx Ny cx cy radius : Z) :
  Nx < 0 \/ Ny < 0 -> makeCircle_with in_arc Nx Ny cx cy radius = Raise ValueError.
Proof.
  intros H. unfold makeCircle_with. now rewrite (np_zeros_neg Nx Ny H).
Qed.

(** [makeCircle] returns an array of the requested shape on every input with
    non-negative dimensions. *)
Lemma makeCircle_returns (Nx Ny cx cy radius : Z) (arc_angle : option R) :
  0 <= Nx -> 0 <= Ny ->
  exists g, makeCircle Nx Ny cx cy radius arc_angle = Ok g /\ shape g Nx Ny.
Proof.
  intros Hx Hy. unfold makeCircle.
  destruct (makeCircle_with_returns (arc_filter (clamp_arc_angle arc_angle))
              Nx Ny cx cy radius Hx Hy) as (g & E & Hs & _).
  exists g. auto.
Qed.

(** ** makeCircle: the angular filter on real numbers *)

(** With the full aperture every offset passes the angular test. *)
Lemma arc_filter_full (dx dy : Z) : arc_filter (2 * PI) dx dy = true.
Proof.
  unfold arc_filter. destruct (Rle_dec _ _) as [H|H]; [reflexivity|].
  pose proof (arctan2_bounds (IZR dx) (IZR dy)). lra.
Qed.

(** With a zero aperture no offset passes it. *)
Lemma arc_filter_zero (dx dy : Z) : arc_filter 0 dx dy = false.
Proof.
  unfold arc_filter. destruct (Rle_dec _ _) as [H|H]; [|reflexivity].
  pose proof (arctan2_bounds (IZR dx) (IZR dy)). lra.
Qed.

Lemma clamp_arc_angle_zero : clamp_arc_angle (Some 0%R) = 0%R.
Proof.
  pose proof PI_RGT_0. unfold clamp_arc_angle.
  destruct (Rgt_dec 0 (2 * PI)); [lra|]. destruct (Rlt_dec 0 0); [lra|reflexivity].
Qed.

Lemma clamp_arc_angle_range (a : option R) : (0 <= clamp_arc_angle a <= 2 * PI)%R.
Proof.
  pose proof PI_RGT_0. unfold clamp_arc_angle. destruct a as [a|]; [|lra].
  destruct (Rgt_dec a (2 * PI)); [lra|]. destruct (Rlt_dec a 0); lra.
Qed.

(** The rasteriser depends on the filter through its values alone. *)
Section FilterExt.

Variables f1 f2 : Z -> Z -> bool.
Hypothesis f12 : forall dx dy, f1 dx dy = f2 dx dy.
Variables Nx Ny cx cy : Z.

Lemma plot_all_ext (pts : list (Z * Z)) (g : grid) :
  plot_all f1 Nx Ny cx cy pts g = plot_all f2 Nx Ny cx cy pts g.
Proof.
  revert g; induction pts as [|[px py] rest IH]; intros g; simpl; [reflexivity|].
  rewrite f12. destruct (f2 (px - cx) (py - cy)); simpl; [|apply IH].
  destruct (in_grid Nx Ny px py); simpl; [|apply IH].
  destruct (grid_set g (px - 1) (py - 1) 1); simpl; [apply IH|reflexivity].
Qed.

Lemma circle_loop_ext (n : nat) (x y d : Z) (g : grid) :
  circle_loop f1 Nx Ny cx cy n x y d g = circle_loop f2 Nx Ny cx cy n x y d g.
Proof.
  revert x y d g; induction n as [|n IH]; intros x y d g; cbn [circle_loop];
    [reflexivity|].
  destruct (x <? y - 1); [|reflexivity].
  destruct (midpoint_step x y d) as [[x' y'] d'].
  rewrite plot_all_ext.
  destruct (plot_all f2 Nx Ny cx cy (octant_points cx cy x' y') g); cbn [bind];
    [apply IH|reflexivity].
Qed.

End FilterExt.

Lemma makeCircle_with_ext (f1 f2 : Z -> Z -> bool) (Nx Ny cx cy radius : Z) :
  (forall dx dy, f1 dx dy = f2 dx dy) ->
  makeCircle_with f1 Nx Ny cx cy radius = makeCircle_with f2 Nx Ny cx cy radius.
Proof.
  intros H. unfold makeCircle_with.
  destruct (np_zeros Nx Ny) as [g0|e]; cbn [bind]; [|reflexivity].
  destruct (plot_first _ _ _ _ _ g0) as [g1|e]; cbn [bind]; [|reflexivity].
  rewrite (plot_all_ext f1 f2 H).
  destruct (plot_all f2 _ _ _ _ _ g1) as [g2|e]; cbn [bind]; [|reflexivity].
  now rewrite (circle_loop_ext f1 f2 H).
Qed.

(** ** makeCircle: symmetry of the full circle *)

Ltac pick_point :=
  solve [ repeat (first [ left; solve [f_equal; lia] | right ]) ].

Ltac each_point H :=
  simpl in H;
  repeat (destruct H as [H|H]; [injection H as ? ? | ]); [ .. | contradiction ].

Section FullCircle.

Variable in_arc : Z -> Z -> bool.
Hypothesis full_aperture : forall dx dy, in_arc dx dy = true.
Variables Nx Ny cx cy r : Z.
Hypothesis r_nonneg : 0 <= r.
Hypothesis fits_x : 1 <= cx - r /\ cx + r <= Nx.
Hypothesis fits_y : 1 <= cy - r /\ cy + r <= Ny.

Lemma hits_In (pts : list (Z * Z)) (qx qy : Z) :
  (forall p, In p pts -> accepted in_arc Nx Ny cx cy p = true) ->
  existsb (hits in_arc Nx Ny cx cy qx qy) pts = true <-> In (qx, qy) pts.
Proof.
  intros Hacc. rewrite existsb_exists. split.
  - intros ([px py] & Hin & Hh). unfold hits in Hh. simpl in Hh.
    apply andb_true_iff in Hh. destruct Hh as [Hh Hy].
    apply andb_true_iff in Hh. destruct Hh as [_ Hx].
    apply Z.eqb_eq in Hx, Hy. now subst.
  - intros Hin. exists (qx, qy). split; [exact Hin|].
    unfold hits. rewrite (Hacc _ Hin). simpl. now rewrite !Z.eqb_refl.
Qed.

Lemma existsb_hits_sym (pts : list (Z * Z)) (dx dy : Z) :
  (forall p, In p pts -> accepted in_arc Nx Ny cx cy p = true) ->
  sym_pts cx cy pts ->
  existsb (hits in_arc Nx Ny cx cy (cx + dx) (cy + dy)) pts
    = existsb (hits in_arc Nx Ny cx cy (cx + dy) (cy + dx)) pts /\
  existsb (hits in_arc Nx Ny cx cy (cx + dx) (cy + dy)) pts
    = existsb (hits in_arc Nx Ny cx cy (cx - dx) (cy + dy)) pts.
Proof.
  intros Hacc Hsym. split; apply eq_true_iff_eq; rewrite !hits_In by exact Hacc.
  - split; intros H.
    + now apply Hsym.
    + now apply (Hsym dy dx).
  - split; intros H.
    + now apply Hsym.
    + replace (cx + dx) with (cx - (- dx)) by lia.
      apply (Hsym (- dx) dy). now replace (cx + - dx) with (cx - dx) by lia.
Qed.

Lemma plot_all_sym (pts : list (Z * Z)) (g : grid) :
  (forall p, In p pts -> accepted in_arc Nx Ny cx cy p = true) ->
  sym_pts cx cy pts -> shape g Nx Ny -> sym_grid cx cy g ->
  exists g', plot_all in_arc Nx Ny cx cy pts g = Ok g' /\
             shape g' Nx Ny /\ sym_grid cx cy g'.
Proof.
  intros Hacc Hsym Hs Hg.
  destruct (plot_all_spec in_arc Nx Ny cx cy pts g Hs) as (g' & E & Hs' & Hat).
  exists g'. split; [exact E|]. split; [exact Hs'|].
  intros dx dy. rewrite !Hat.
  destruct (existsb_hits_sym pts dx dy Hacc Hsym) as [E1 E2].
  destruct (Hg dx dy) as [G1 G2].
  rewrite <- E1, <- E2, <- G1, <- G2. auto.
Qed.

Lemma octant_points_sym (x y : Z) : sym_pts cx cy (octant_points cx cy x y).
Proof.
  intros dx dy H. each_point H; split; simpl; pick_point.
Qed.

Lemma octant_points_accepted (x y : Z) :
  0 <= x <= y -> y <= r ->
  forall p, In p (octant_points cx cy x y) -> accepted in_arc Nx Ny cx cy p = true.
Proof.
  intros Hxy Hyr [px py] H. unfold accepted. rewrite full_aperture. simpl.
  apply in_grid_bounds. each_point H; lia.
Qed.

Lemma first_points_sym : sym_pts cx cy (first_points cx cy r).
Proof.
  intros dx dy H. unfold first_points, cardinal_points in *.
  each_point H; split; simpl; pick_point.
Qed.

Lemma first_points_accepted :
  forall p, In p (first_points cx cy r) -> accepted in_arc Nx Ny cx cy p = true.
Proof.
  intros [px py] H. unfold accepted. rewrite full_aperture. simpl.
  apply in_grid_bounds. unfold first_points, cardinal_points in H.
  each_point H; lia.
Qed.

Lemma plot_first_is_plot (g : grid) :
  plot_first Nx Ny cx cy r g = plot in_arc Nx Ny cx cy g (cx, cy - r).
Proof.
  unfold plot_first, plot. rewrite full_aperture.
  destruct (in_grid Nx Ny cx (cy - r)); reflexivity.
Qed.

Lemma circle_body_sym (g0 : grid) :
  shape g0 Nx Ny -> (forall px py, at1 g0 px py = 0) ->
  exists g1 g2 x y d g,
    plot_first Nx Ny cx cy r g0 = Ok g1 /\
    plot_all in_arc Nx Ny cx cy (cardinal_points cx cy r) g1 = Ok g2 /\
    circle_loop in_arc Nx Ny cx cy (Z.to_nat (r - 1 - 0)) 0 r (1 - r) g2
      = Ok (x, y, d, g) /\
    sym_grid cx cy g.
Proof.
  intros Hs H0.
  assert (Hg0 : sym_grid cx cy g0) by (intros dx dy; now rewrite !H0).
  destruct (plot_all_sym (first_points cx cy r) g0 first_points_accepted first_points_sym Hs Hg0)
    as (g2 & E2 & Hs2 & Hg2).
  unfold first_points in E2. cbn [plot_all] in E2.
  rewrite <- plot_first_is_plot in E2.
  destruct (plot_first Nx Ny cx cy r g0) as [g1|e] eqn:E1; cbn [bind] in E2;
    [|discriminate].
  destruct (circle_loop_rule in_arc Nx Ny cx cy
              (fun x y g => shape g Nx Ny /\ sym_grid cx cy g /\ 0 <= x <= y /\ y <= r))
    with (n := Z.to_nat (r - 1 - 0)) (x := 0) (y := r) (d := 1 - r) (g := g2)
    as (x & y & d & g & E3 & (Hs3 & Hg3 & _) & _).
  - intros x y d g (Hsg & Hgg & Hxy & Hyr) Hlt.
    pose proof (midpoint_step_measure x y d) as Hm.
    destruct (midpoint_step x y d) as [[x' y'] d'].
    destruct (plot_all_sym (octant_points cx cy x' y') g) as (g' & E & Hs' & Hg');
      auto using octant_points_sym.
    + apply octant_points_accepted; lia.
    + exists g'. split; [exact E|]. split; [exact Hs'|]. split; [exact Hg'|]. lia.
  - split; [exact Hs2|]. split; [exact Hg2|]. lia.
  - lia.
  - exists g1, g2, x, y, d, g. auto.
Qed.

End FullCircle.

Lemma sym_grid_eightfold (cx cy : Z) (g : grid) :
  sym_grid cx cy g ->
  forall dx dy,
    let v := at1 g (cx + dx) (cy + dy) in
    at1 g (cx - dx) (cy + dy) = v /\ at1 g (cx + dx) (cy - dy) = v /\
    at1 g (cx - dx) (cy - dy) = v /\ at1 g (cx + dy) (cy + dx) = v /\
    at1 g (cx - dy) (cy + dx) = v /\ at1 g (cx + dy) (cy - dx) = v /\
    at1 g (cx - dy) (cy - dx) = v.
Proof.
  intros Hg dx dy v. subst v.
  assert (Hswap : forall a b, at1 g (cx + a) (cy + b) = at1 g (cx + b) (cy + a))
    by (intros a b; apply Hg).
  assert (Hneg : forall a b, at1 g (cx - a) (cy + b) = at1 g (cx + a) (cy + b))
    by (intros a b; symmetry; apply Hg).
  assert (Hneg' : forall a b, at1 g (cx + a) (cy - b) = at1 g (cx + a) (cy + b)).
  { intros a b. replace (cy - b) with (cy + - b) by lia.
    rewrite (Hswap a (- b)). replace (cx + - b) with (cx - b) by lia.
    rewrite Hneg. apply Hswap. }
  assert (Hnn : forall a b, at1 g (cx - a) (cy - b) = at1 g (cx + a) (cy + b)).
  { intros a b. replace (cx - a) with (cx + - a) by lia. rewrite Hneg'.
    replace (cx + - a) with (cx - a) by lia. apply Hneg. }
  rewrite Hneg, Hneg', Hnn, (Hneg dy dx), (Hneg' dy dx), (Hnn dy dx), (Hswap dy dx).
  auto 10.
Qed.

Lemma makeCircle_with_full_sym (in_arc : Z -> Z -> bool) (Nx Ny cx cy r : Z) (g : grid) :
  (forall dx dy, in_arc dx dy = true) ->
  0 <= r -> 1 <= cx - r /\ cx + r <= Nx -> 1 <= cy - r /\ cy + r <= Ny ->
  makeCircle_with in_arc Nx Ny cx cy r = Ok g -> sym_grid cx cy g.
Proof.
  intros Hfull Hr Hx Hy. unfold makeCircle_with.
  fold (effective_centre Nx cx). fold (effective_centre Ny cy).
  rewrite !effective_centre_nonzero by lia.
  destruct (np_zeros_ok Nx Ny) as (g0 & E0 & Hs0 & Hz0); [lia|lia|].
  rewrite E0. cbn [bind].
  destruct (circle_body_sym in_arc Hfull Nx Ny cx cy r Hr Hx Hy g0 Hs0 Hz0)
    as (g1 & g2 & x & y & d & g' & E1 & E2 & E3 & Hg).
  rewrite E1. cbn [bind]. rewrite E2. cbn [bind]. rewrite E3. cbn [bind snd].
  intros H. injection H as <-. exact Hg.
Qed.

(** ** makeCircle: evaluations *)

Lemma makeCircle_5_zero_aperture :
  makeCircle 5 5 3 3 1 (Some 0%R) = Ok circle_5_zero_aperture.
Proof.
  unfold makeCircle. rewrite clamp_arc_angle_zero.
  rewrite (makeCircle_with_ext (arc_filter 0) (fun _ _ => false))
    by (intros; apply arc_filter_zero).
  reflexivity.
Qed.

Lemma makeCircle_9_full : makeCircle 9 9 5 5 3 None = Ok circle_9_full.
Proof.
  unfold makeCircle. cbn [clamp_arc_angle].
  rewrite (makeCircle_with_ext (arc_filter (2 * PI)) (fun _ _ => true))
    by (intros; apply arc_filter_full).
  reflexivity.
Qed.

(** ** makeCartCircle *)

Lemma np_divide_zero_by_zero (a : R) : np_divide (0 * a) 0 = NaN.
Proof.
  unfold np_divide. cbn [Z.eqb]. rewrite Rmult_0_l.
  now rewrite !Rltb_false by lra.
Qed.

(** ** makeLine: the nearest candidate *)

Section NearestCandidateFacts.

Variable num : Type.
Variable leb : num -> num -> bool.
Hypothesis leb_total : forall a b, leb a b = true \/ leb b a = true.
Hypothesis leb_trans : forall a b c, leb a b = true -> leb b c = true -> leb a c = true.

Lemma least_exists (diff : list num) :
  diff <> [] -> exists d, In d diff /\ forallb (leb d) diff = true.
Proof.
  induction diff as [|d0 rest IH]; [congruence|]. intros _.
  destruct rest as [|d1 rest'].
  - exists d0. split; [now left|]. simpl.
    destruct (leb_total d0 d0) as [H|H]; now rewrite H.
  - destruct IH as (d & Hin & Hmin); [discriminate|].
    destruct (leb_total d0 d) as [H|H].
    + exists d0. split; [now left|].
      change (forallb (leb d0) (d0 :: d1 :: rest'))
        with (leb d0 d0 && forallb (leb d0) (d1 :: rest')).
      apply andb_true_iff. split.
      * destruct (leb_total d0 d0); assumption.
      * rewrite forallb_forall in *. intros e He. eauto.
    + exists d. split; [now right|].
      change (forallb (leb d) (d0 :: d1 :: rest'))
        with (leb d d0 && forallb (leb d) (d1 :: rest')).
      now rewrite H, Hmin.
Qed.

Lemma min_mask_length (diff : list num) : length (min_mask num leb diff) = length diff.
Proof. unfold min_mask. apply length_map. Qed.

Lemma min_mask_has_true (diff : list num) :
  diff <> [] -> In true (min_mask num leb diff).
Proof.
  intros H. destruct (least_exists diff H) as (d & Hin & Hmin).
  unfold min_mask. rewrite <- Hmin. now apply (in_map (fun d => forallb (leb d) diff)).
Qed.

Lemma matlab_find_bounds (mask : list bool) (index : Z) :
  In index (matlab_find mask) -> 1 <= index <= Z.of_nat (length mask).
Proof.
  unfold matlab_find. intros H. apply in_map_iff in H.
  destruct H as ([k b] & <- & H). apply filter_In in H. destruct H as [H _].
  apply in_combine_l in H. apply in_seq in H. simpl. lia.
Qed.

Lemma matlab_find_nonempty (mask : list bool) :
  In true mask -> matlab_find mask <> [].
Proof.
  intros H. apply In_nth with (d := false) in H. destruct H as (k & Hk & Hnth).
  assert (Hin : In (k, true) (combine (seq 0 (length mask)) mask)).
  { replace (k, true) with (nth k (combine (seq 0 (length mask)) mask) (O, false)).
    - apply nth_In. rewrite length_combine, length_seq. lia.
    - rewrite combine_nth by now rewrite length_seq.
      rewrite seq_nth by exact Hk. now rewrite Hnth. }
  unfold matlab_find. intros Hnil.
  assert (Hf : In (k, true) (filter (fun p : nat * bool => snd p)
                               (combine (seq 0 (length mask)) mask)))
    by (apply filter_In; auto).
  apply (in_map (fun p : nat * bool => Z.of_nat (fst p) + 1)) in Hf.
  rewrite Hnil in Hf. exact Hf.
Qed.

Lemma closest_in (poss_x poss_y : list Z) (diff : list num) :
  length poss_x = length diff -> length poss_y = length diff -> diff <> [] ->
  exists x y, closest num leb poss_x poss_y diff = Ok (x, y) /\
              In (x, y) (combine poss_x poss_y).
Proof.
  intros Hx Hy Hne. unfold closest.
  pose proof (matlab_find_nonempty _ (min_mask_has_true diff Hne)) as Hfind.
  destruct (matlab_find (min_mask num leb diff)) as [|index rest] eqn:E; [congruence|].
  assert (Hb : 1 <= index <= Z.of_nat (length diff)).
  { rewrite <- min_mask_length. apply matlab_find_bounds. rewrite E. now left. }
  set (k := Z.to_nat (index - 1)).
  assert (Hk : (k < length diff)%nat) by lia.
  rewrite (nth_error_nth' poss_x 0) by lia.
  rewrite (nth_error_nth' poss_y 0) by lia.
  exists (nth k poss_x 0), (nth k poss_y 0). split; [reflexivity|].
  rewrite <- combine_nth by lia. apply nth_In. rewrite length_combine. lia.
Qed.

Lemma matlab_find_true (mask : list bool) (index : Z) :
  In index (matlab_find mask) -> nth (Z.to_nat (index - 1)) mask false = true.
Proof.
  unfold matlab_find. intros H. apply in_map_iff in H.
  destruct H as ([k b] & <- & H). apply filter_In in H. destruct H as [H Hb].
  simpl in Hb. subst b. simpl.
  replace (Z.to_nat (Z.of_nat k + 1 - 1)) with k by lia.
  apply In_nth with (d := (O, false)) in H. destruct H as (i & Hi & Hnth).
  rewrite length_combine, length_seq, Nat.min_id in Hi.
  rewrite combine_nth in Hnth by now rewrite length_seq.
  rewrite seq_nth in Hnth by exact Hi. simpl in Hnth.
  injection Hnth as <- Hm. exact Hm.
Qed.

Lemma closest_least (poss_x poss_y : list Z) (diff : list num) (d0 : num) :
  length poss_x = length diff -> length poss_y = length diff -> diff <> [] ->
  exists k, (k < length diff)%nat /\
    closest num leb poss_x poss_y diff = Ok (nth k poss_x 0, nth k poss_y 0) /\
    forall j, (j < length diff)%nat -> leb (nth k diff d0) (nth j diff d0) = true.
Proof.
  intros Hx Hy Hne. unfold closest.
  pose proof (matlab_find_nonempty _ (min_mask_has_true diff Hne)) as Hfind.
  destruct (matlab_find (min_mask num leb diff)) as [|index rest] eqn:E; [congruence|].
  assert (Hin : In index (matlab_find (min_mask num leb diff))) by (rewrite E; now left).
  assert (Hb : 1 <= index <= Z.of_nat (length diff)).
  { rewrite <- min_mask_length. now apply matlab_find_bounds. }
  apply matlab_find_true in Hin.
  set (k := Z.to_nat (index - 1)) in *.
  assert (Hk : (k < length diff)%nat) by lia.
  exists k. split; [exact Hk|].
  rewrite (nth_error_nth' poss_x 0) by lia.
  rewrite (nth_error_nth' poss_y 0) by lia.
  split; [reflexivity|].
  intros j Hj. unfold min_mask in Hin.
  rewrite (nth_indep _ false (forallb (leb d0) diff)) in Hin by now rewrite length_map.
  rewrite (map_nth (fun d => forallb (leb d) diff)) in Hin.
  rewrite forallb_forall in Hin. apply Hin. now apply nth_In.
Qed.

End NearestCandidateFacts.

(** The choice among three candidates returns one of them. *)
Lemma Rclosest_y_three (m c : R) (x1 x2 x3 y1 y2 y3 : Z) :
  exists x y, Rclosest_y m c [x1; x2; x3] [y1; y2; y3] = Ok (x, y) /\
              ((x, y) = (x1, y1) \/ (x, y) = (x2, y2) \/ (x, y) = (x3, y3)).
Proof.
  unfold Rclosest_y, closest_y.
  destruct (closest_in R Rleb Rleb_total Rleb_trans [x1; x2; x3] [y1; y2; y3]
              (diff_y R IZR Rplus Rminus Rmult m c [x1; x2; x3] [y1; y2; y3]))
    as (x & y & E & Hin); try reflexivity; [discriminate|].
  exists x, y. split; [exact E|].
  simpl in Hin. destruct Hin as [H|[H|[H|[]]]]; auto.
Qed.

(** ** makeLine, two-point mode *)

(** The start-point test of the two-point mode does raise: a start point
    outside the grid is refused before the array is built. *)
Lemma makeLine_two_points_start_outside (Nx Ny : Z) (startpoint endpoint : Z * Z)
      (angle : option R) (length : option Z) :
  start_outside_grid Nx Ny startpoint = true ->
  makeLine Nx Ny startpoint (Some endpoint) angle length = Raise ValueError.
Proof.
  intros H. unfold makeLine. cbn [fst snd].
  destruct ((fst startpoint - 1 =? fst endpoint - 1)
            && (snd startpoint - 1 =? snd endpoint - 1)); [reflexivity|].
  match goal with |- (if ?b then _ else _) = _ => replace b with true; [reflexivity|] end.
  symmetry. unfold start_outside_grid in H.
  rewrite !orb_true_iff in *. rewrite !Z.ltb_lt in *. lia.
Qed.

(** *** The diagonal of a grid that is not wider than tall

    On [Nx <= Ny] the diagonal from [(1,1)] to [(Nx,Ny)] is traced by the
    branch [abs(m) >= 1], which writes at [(x, y)]. *)

Section Diagonal.

Variables p q : Z.
Hypothesis p_pos : 1 <= p.
Hypothesis p_le_q : p <= q.

Variables m c : Q.
Hypothesis m_value : (m == inject_Z q / inject_Z p)%Q.
Hypothesis c_value : (c == 0)%Q.

Lemma diff_x_entry_scaled (px py : Z) :
  (diff_x_entry m c px py * (inject_Z q * inject_Z q)
   == inject_Z (deviation p q px py * deviation p q px py))%Q.
Proof.
  unfold diff_x_entry, deviation. cbv zeta.
  rewrite m_value, c_value.
  rewrite !inject_Z_mult, !inject_Z_sub, !inject_Z_mult.
  assert (Hq : ~ (inject_Z q == 0)%Q).
  { intros H. apply (proj1 (inject_Z_injective q 0)) in H. lia. }
  assert (Hp : ~ (inject_Z p == 0)%Q).
  { intros H. apply (proj1 (inject_Z_injective p 0)) in H. lia. }
  field. split; assumption.
Qed.

Lemma diff_x_entry_le (px py px' py' : Z) :
  Qle_bool (diff_x_entry m c px py) (diff_x_entry m c px' py') = true ->
  Z.abs (deviation p q px py) <= Z.abs (deviation p q px' py').
Proof.
  rewrite Qle_bool_iff. intros H.
  apply square_le_abs. rewrite Zle_Qle.
  rewrite <- !diff_x_entry_scaled.
  apply Qmult_le_compat_r; [exact H|].
  rewrite <- inject_Z_mult. change 0%Q with (inject_Z 0). rewrite <- Zle_Qle. nia.
Qed.

Lemma diff_x_nth (poss_x poss_y : list Z) (k : nat) :
  length poss_x = length poss_y -> (k < length poss_x)%nat ->
  nth k (diff_x Q inject_Z Qminus Qmult Qdiv m c poss_x poss_y) 0%Q
  = diff_x_entry m c (nth k poss_x 0) (nth k poss_y 0).
Proof.
  intros Hlen Hk. unfold diff_x.
  set (f := fun p0 : Z * Z => _).
  rewrite (nth_indep _ 0%Q (f (0, 0))) by (rewrite length_map, length_combine; lia).
  rewrite (map_nth f). rewrite combine_nth by exact Hlen. reflexivity.
Qed.

Lemma steep_step (x y : Z) :
  near_line p q x y ->
  exists x',
    Qclosest_x m c [x - 1; x + 1; x - 1; x; x + 1] [y; y; y + 1; y + 1; y + 1]
      = Ok (x', y + 1) /\
    (x' = x \/ x' = x + 1) /\ near_line p q x' (y + 1).
Proof.
  intros [Hnear Hdiag]. unfold Qclosest_x, closest_x.
  set (poss_x := [x - 1; x + 1; x - 1; x; x + 1]).
  set (poss_y := [y; y; y + 1; y + 1; y + 1]).
  destruct (closest_least Q Qle_bool Qle_bool_total Qle_bool_trans poss_x poss_y
              (diff_x Q inject_Z Qminus Qmult Qdiv m c poss_x poss_y) 0%Q)
    as (k & Hk & E & Hleast); try reflexivity; [discriminate|].
  rewrite E. clear E.
  assert (Hdev : forall j, (j < 5)%nat ->
            Z.abs (deviation p q (nth k poss_x 0) (nth k poss_y 0))
            <= Z.abs (deviation p q (nth j poss_x 0) (nth j poss_y 0))).
  { intros j Hj. apply diff_x_entry_le.
    rewrite <- !diff_x_nth by (try reflexivity; simpl in *; lia).
    apply Hleast. simpl. lia. }
  clear Hleast.
  pose proof (Hdev 0%nat ltac:(lia)) as L0.
  pose proof (Hdev 1%nat ltac:(lia)) as L1.
  pose proof (Hdev 2%nat ltac:(lia)) as L2.
  pose proof (Hdev 3%nat ltac:(lia)) as L3.
  pose proof (Hdev 4%nat ltac:(lia)) as L4.
  clear Hdev. simpl in Hk.
  unfold near_line, deviation in *.
  destruct k as [|[|[|[|[|k]]]]]; [ .. | lia];
    cbn [nth poss_x poss_y] in *.
  - exfalso. destruct (Z.eq_dec p q) as [Heq|Hne]; [specialize (Hdiag Heq)|]; nia.
  - exfalso. destruct (Z.eq_dec p q) as [Heq|Hne]; [specialize (Hdiag Heq)|]; nia.
  - exfalso. nia.
  - exists x. split; [reflexivity|]. split; [now left|].
    split; [nia|]. intros Heq. specialize (Hdiag Heq). nia.
  - exists (x + 1). split; [reflexivity|]. split; [now right|].
    split; [nia|]. intros Heq. specialize (Hdiag Heq). nia.
Qed.

Lemma near_line_bounds (x y : Z) : near_line p q x y -> 0 <= y <= q -> 0 <= x <= p.
Proof.
  unfold near_line, deviation. intros [H _] Hy.
  destruct (Z_lt_le_dec x 0) as [Hneg|Hnn]; [exfalso; nia|].
  destruct (Z_lt_le_dec p x) as [Hbig|Hok]; [exfalso; nia|]. lia.
Qed.

Lemma near_line_end (x : Z) : near_line p q x q -> x = p.
Proof.
  unfold near_line, deviation. intros [H _].
  destruct (Z_lt_le_dec x p) as [Hlt|Hge]; [exfalso; nia|].
  destruct (Z_lt_le_dec p x) as [Hgt|Hle]; [exfalso; nia|]. lia.
Qed.

(** The loop [while y < y_end] of the branch [abs(m) >= 1] on the diagonal:
    it ends within its iteration bound, reaches the end point and sets
    exactly the points of a rising path. *)
Lemma steep_loop_diagonal (n : nat) (x y : Z) (line : grid) :
  shape line (p + 1) (q + 1) -> near_line p q x y -> 0 <= y -> Z.of_nat n = q - y ->
  exists g path,
    steep_loop m c n q x y line = Ok g /\ shape g (p + 1) (q + 1) /\
    rising (x + 1) (y + 1) path /\ length path = n /\
    last path (x + 1, y + 1) = (p + 1, q + 1) /\
    forall px py, at1 g px py = if on_path path px py then 1 else at1 line px py.
Proof.
  revert x y line; induction n as [|n IH]; intros x y line Hs Hnear Hy Hn;
    cbn [steep_loop].
  - replace y with q in * by lia. rewrite Z.ltb_irrefl.
    exists line, []. rewrite (near_line_end x Hnear). simpl. auto 10.
  - replace (y <? q) with true by (symmetry; apply Z.ltb_lt; lia).
    destruct (steep_step x y Hnear) as (x' & E & Hx' & Hnear').
    rewrite E. cbn [bind].
    pose proof (near_line_bounds x' (y + 1) Hnear' ltac:(lia)) as Hb.
    destruct (grid_set_in_grid line (p + 1) (q + 1) (x' + 1) (y + 1 + 1) 1 Hs)
      as (line1 & E1 & Hs1 & Hat1); [lia|lia|].
    replace (x' + 1 - 1) with x' in E1 by lia.
    replace (y + 1 + 1 - 1) with (y + 1) in E1 by lia.
    rewrite E1. cbn [bind].
    destruct (IH x' (y + 1) line1 Hs1 Hnear' ltac:(lia) ltac:(lia))
      as (g & path & Eg & Hsg & Hrise & Hlen & Hlast & Hat).
    exists g, ((x' + 1, y + 1 + 1) :: path).
    split; [exact Eg|]. split; [exact Hsg|]. split.
    { cbn [rising]. split; [lia|]. split; [reflexivity|exact Hrise]. }
    split; [simpl; lia|]. split.
    { rewrite last_cons_default. exact Hlast. }
    intros px py. rewrite Hat, Hat1. unfold on_path. cbn [existsb fst snd].
    destruct (existsb _ path); [now rewrite orb_true_r|].
    rewrite orb_false_r. reflexivity.
Qed.

End Diagonal.

Lemma diagonal_gradient_steep (p q : Z) :
  1 <= p <= q -> Qltb (Qabs (inject_Z q / inject_Z p)) 1 = false.
Proof.
  intros H. unfold Qltb. apply negb_false_iff. apply Qle_bool_iff.
  assert (Hp : (0 < inject_Z p)%Q) by (change 0%Q with (inject_Z 0); rewrite <- Zlt_Qlt; lia).
  assert (Hm : (1 <= inject_Z q / inject_Z p)%Q).
  { apply Qle_shift_div_l; [exact Hp|]. rewrite Qmult_1_l. rewrite <- Zle_Qle. lia. }
  rewrite Qabs_pos; [exact Hm|].
  apply Qle_trans with 1%Q; [discriminate|exact Hm].
Qed.

(** On a grid with [2 <= Nx <= Ny] the diagonal does what C6 says: the set
    cells are the points of a path from [(1,1)] to [(Nx,Ny)] that moves one
    column at a time and never back along x, [Ny = max(Nx, Ny)] points in
    all. *)
Lemma makeLine_diagonal_tall_grid (Nx Ny : Z) :
  2 <= Nx <= Ny ->
  exists g path,
    makeLine Nx Ny (1, 1) (Some (Nx, Ny)) None None = Ok g /\
    rising 1 1 path /\
    Z.of_nat (length ((1, 1) :: path)) = Z.max Nx Ny /\
    last path (1, 1) = (Nx, Ny) /\
    forall px py, at1 g px py = if on_path ((1, 1) :: path) px py then 1 else 0.
Proof.
  intros H. unfold makeLine. cbv zeta. cbn [fst snd].
  change (1 - 1) with 0.
  replace ((0 =? Nx - 1) && (0 =? Ny - 1)) with false
    by (symmetry; apply andb_false_iff; left; apply Z.eqb_neq; lia).
  match goal with |- context [if ?b then Raise ValueError else line_a_to_b _ _ _ _] =>
    replace b with false
      by (symmetry; rewrite !orb_false_iff, !Z.ltb_ge; lia)
  end.
  unfold line_a_to_b. cbn [fst snd].
  destruct (np_zeros_ok Nx Ny) as (g0 & E0 & Hs0 & Hz0); [lia|lia|].
  rewrite E0. cbn [bind]. rewrite !Z.sub_0_r.
  replace (Nx - 1 =? 0) with false by (symmetry; apply Z.eqb_neq; lia).
  rewrite (diagonal_gradient_steep (Nx - 1) (Ny - 1)) by lia.
  replace (0 <? Ny - 1) with true by (symmetry; apply Z.ltb_lt; lia).
  replace Nx with (Nx - 1 + 1) in Hs0 by lia. replace Ny with (Ny - 1 + 1) in Hs0 by lia.
  destruct (grid_set_in_grid g0 (Nx - 1 + 1) (Ny - 1 + 1) 1 1 1 Hs0)
    as (g1 & E1 & Hs1 & Hat1); [lia|lia|].
  change (1 - 1) with 0 in E1. rewrite E1. cbn [bind].
  set (m := (inject_Z (Ny - 1) / inject_Z (Nx - 1))%Q).
  set (c := (inject_Z 0 - m * inject_Z 0)%Q).
  destruct (steep_loop_diagonal (Nx - 1) (Ny - 1) ltac:(lia) ltac:(lia) m c
              ltac:(reflexivity) ltac:(unfold c; ring)
              (Z.to_nat (Ny - 1)) 0 0 g1 Hs1)
    as (g & path & Eg & Hsg & Hrise & Hlen & Hlast & Hat).
  - unfold near_line, deviation. split; [lia|]. intros _. lia.
  - lia.
  - lia.
  - rewrite Z.sub_0_r. exists g, path. split; [exact Eg|]. split; [exact Hrise|].
    split; [simpl; lia|]. split.
    { change (0 + 1) with 1 in Hlast. rewrite Hlast. f_equal; lia. }
    intros px py. rewrite Hat, Hat1, Hz0. unfold on_path. cbn [existsb fst snd].
    destruct (existsb _ path); [now rewrite orb_true_r|].
    rewrite orb_false_r. reflexivity.
Qed.


(** ** makeLine, angle mode *)

Lemma normalise_angle_0 : normalise_angle 0 = 0%R.
Proof.
  pose proof PI_RGT_0 as Hpi. unfold normalise_angle, Rmod.
  unfold Rdiv. rewrite Rmult_0_l, Int_part_0.
  replace (0 - 0 * (2 * PI))%R with 0%R by lra.
  rewrite !Rltb_false by lra. reflexivity.
Qed.

Lemma sector_of_0 : sector_of 0 = Some AlongZero.
Proof.
  pose proof PI_RGT_0 as Hpi. unfold sector_of.
  rewrite Rabs_R0.
  rewrite (Reqb_false 0 PI) by lra.
  rewrite (Rltb_false (PI / 2) 0) by lra. rewrite andb_false_r.
  rewrite (Reqb_false 0 (PI / 2)) by lra.
  rewrite (Rltb_false 0 0) by lra. rewrite andb_false_r.
  now rewrite Reqb_true.
Qed.

(** *** The loops end and stay inside the array *)

Section TraceFacts.

Variables Nx Ny : Z.
Variable startpoint : Z * Z.
Variable linelength : Z.
Variable next : Z -> Z -> result (Z * Z).
Variable stop : Z -> Z -> bool.

(** [region] holds of the points the loop can reach and [progress] counts
    the steps taken from the start point. *)
Variable region : Z -> Z -> Prop.
Variable progress : Z -> Z -> Z.

Hypothesis next_ok : forall x y, region x y ->
  exists x' y', next x y = Ok (x', y') /\ region x' y' /\
    progress x y + 1 <= progress x' y' /\
    (stop x' y' = false -> - Nx <= x' - 1 < Nx /\ - Ny <= y' - 1 < Ny).

Hypothesis progress_length : forall x y, region x y ->
  0 <= progress x y /\ progress x y * progress x y <= 2 * length2 startpoint x y.

Lemma trace_returns (n : nat) (x y : Z) (line : grid) :
  shape line Nx Ny -> region x y ->
  2 * linelength - Z.of_nat n <= progress x y ->
  exists line',
    trace startpoint linelength next stop n x y (length2 startpoint x y) line = Ok line'
    /\ shape line' Nx Ny.
Proof.
  revert x y line; induction n as [|n IH]; intros x y line Hs Hr Hp; cbn [trace].
  - destruct (shorter linelength (length2 startpoint x y)) eqn:Hsh.
    + exfalso. unfold shorter in Hsh. apply andb_true_iff in Hsh.
      rewrite !Z.ltb_lt in Hsh. destruct (progress_length x y Hr). nia.
    + exists line. auto.
  - destruct (shorter linelength (length2 startpoint x y)) eqn:Hsh.
    2:{ exists line. auto. }
    destruct (next_ok x y Hr) as (x' & y' & E & Hr' & Hp' & Hidx).
    rewrite E. cbn [bind].
    destruct (stop x' y') eqn:Hstop.
    { exists line. auto. }
    destruct (Hidx eq_refl) as [Hi Hj].
    destruct (grid_set_index line Nx Ny (x' - 1) (y' - 1) 1 Hs Hi Hj) as (line1 & E1 & Hs1).
    rewrite E1. cbn [bind].
    apply IH; auto. lia.
Qed.

End TraceFacts.

Lemma sector_next_ok (Nx Ny sx sy : Z) (s : sector) (x y : Z) :
  1 <= sx <= Nx -> 1 <= sy <= Ny ->
  sector_region (sx, sy) s x y ->
  exists x' y', sector_next (sx, sy) s x y = Ok (x', y') /\
    sector_region (sx, sy) s x' y' /\
    sector_progress (sx, sy) s x y + 1 <= sector_progress (sx, sy) s x' y' /\
    (sector_stop Nx Ny s x' y' = false -> - Nx <= x' - 1 < Nx /\ - Ny <= y' - 1 < Ny).
Proof.
  intros Hsx Hsy Hr.
  destruct s as [|m| |m| |m| |m]; unfold sector_region, sector_progress in *;
    cbn [sector_dir sector_next sector_stop] in *;
    try (eexists; eexists; split; [reflexivity|];
         rewrite ?orb_false_iff, ?Z.ltb_ge; lia);
    match goal with
    | |- context [Rclosest_y ?m ?c [?x1; ?x2; ?x3] [?y1; ?y2; ?y3]] =>
        destruct (Rclosest_y_three m c x1 x2 x3 y1 y2 y3)
          as (x' & y' & E & [H|[H|H]])
    end;
    injection H as -> ->; eexists; eexists; (split; [exact E|]);
    rewrite ?orb_false_iff, ?Z.ltb_ge; lia.
Qed.

Lemma sector_progress_length (sx sy : Z) (s : sector) (x y : Z) :
  sector_region (sx, sy) s x y ->
  0 <= sector_progress (sx, sy) s x y /\
  sector_progress (sx, sy) s x y * sector_progress (sx, sy) s x y
    <= 2 * length2 (sx, sy) x y.
Proof.
  unfold sector_region, sector_progress, length2. cbn [fst snd].
  generalize (x - sx), (y - sy). intros a b.
  pose proof (Z.square_nonneg (a + b)) as Hplus.
  pose proof (Z.square_nonneg (a - b)) as Hminus.
  pose proof (Z.square_nonneg a) as Ha.
  pose proof (Z.square_nonneg b) as Hb.
  destruct s; cbn [sector_dir]; intros H; split; nia.
Qed.

(** The angle mode returns an array of the requested shape for every start
    point inside the grid, every angle and every length. *)
Lemma line_angled_returns (Nx Ny sx sy : Z) (angle : R) (linelength : Z) :
  1 <= sx <= Nx -> 1 <= sy <= Ny ->
  exists line, line_angled Nx Ny (sx, sy) angle (Some linelength) = Ok line /\
               shape line Nx Ny.
Proof.
  intros Hsx Hsy. unfold line_angled.
  destruct (np_zeros_ok Nx Ny) as (g0 & E0 & Hs0 & _); [lia|lia|].
  rewrite E0. cbn [bind].
  destruct (grid_set_index g0 Nx Ny (sx - 1) (sy - 1) 1 Hs0) as (g1 & E1 & Hs1);
    [lia|lia|].
  rewrite E1. cbn [bind].
  destruct (sector_of angle) as [s|]; [|exists g1; auto].
  assert (H0 : length2 (sx, sy) sx sy = 0) by (unfold length2; cbn [fst snd]; lia).
  pose proof (trace_returns Nx Ny (sx, sy) linelength
                (sector_next (sx, sy) s) (sector_stop Nx Ny s)
                (sector_region (sx, sy) s) (sector_progress (sx, sy) s)) as Htrace.
  specialize (Htrace (fun x y Hr => sector_next_ok Nx Ny sx sy s x y Hsx Hsy Hr)).
  specialize (Htrace (fun x y Hr => sector_progress_length sx sy s x y Hr)).
  specialize (Htrace (Z.to_nat (2 * linelength)) sx sy g1 Hs1).
  rewrite H0 in Htrace. apply Htrace.
  - unfold sector_region. destruct (sector_dir s) as [ux uy].
    replace (sx - sx) with 0 by lia. replace (sy - sy) with 0 by lia. lia.
  - unfold sector_progress. destruct (sector_dir s) as [ux uy].
    replace (sx - sx) with 0 by lia. replace (sy - sy) with 0 by lia. lia.
Qed.

Lemma makeLine_angled_returns (Nx Ny : Z) (startpoint : Z * Z) (angle : R) (linelength : Z) :
  1 <= fst startpoint <= Nx -> 1 <= snd startpoint <= Ny ->
  exists line, makeLine Nx Ny startpoint None (Some angle) (Some linelength) = Ok line /\
               shape line Nx Ny.
Proof.
  destruct startpoint as [sx sy]. cbn [fst snd]. intros Hsx Hsy.
  unfold makeLine. cbv zeta. now apply line_angled_returns.
Qed.

(** *** A flat arc *)

Lemma Int_part_unit (r : R) : (0 <= r < 1)%R -> Int_part r = 0.
Proof. intros H. symmetry. apply Int_part_spec. simpl. lra. Qed.

Lemma Rmod_small (a b : R) : (0 <= a < b)%R -> Rmod a b = a.
Proof.
  intros H. unfold Rmod.
  set (t := (a / b)%R).
  assert (Ht : (t * b = a)%R) by (unfold t; field; lra).
  rewrite (Int_part_unit t) by nra. simpl. lra.
Qed.

Lemma normalise_angle_low (a : R) : (0 <= a <= PI)%R -> normalise_angle a = a.
Proof.
  pose proof PI_RGT_0 as Hpi. intros H. unfold normalise_angle.
  rewrite Rmod_small by lra. now rewrite !Rltb_false by lra.
Qed.

Lemma normalise_angle_high (a : R) :
  (PI < a < 2 * PI)%R -> normalise_angle a = (a - 2 * PI)%R.
Proof.
  pose proof PI_RGT_0 as Hpi. intros H. unfold normalise_angle.
  rewrite Rmod_small by lra. now rewrite Rltb_true by lra.
Qed.

Lemma sector_of_half_pi : sector_of (PI / 2) = Some AlongHalfPi.
Proof.
  pose proof PI_RGT_0 as Hpi. unfold sector_of.
  rewrite (Reqb_false (Rabs (PI / 2)) PI) by (rewrite Rabs_pos_eq; lra).
  rewrite (Rltb_false (PI / 2) (PI / 2)) by lra. rewrite andb_false_r.
  now rewrite Reqb_true.
Qed.

Lemma sector_of_minus_half_pi : sector_of (- PI / 2) = Some AlongMinusHalfPi.
Proof.
  pose proof PI_RGT_0 as Hpi. unfold sector_of.
  rewrite (Reqb_false (Rabs (- PI / 2)) PI)
    by (replace (- PI / 2)%R with (- (PI / 2))%R by lra;
        rewrite Rabs_Ropp, Rabs_pos_eq; lra).
  rewrite (Rltb_false (PI / 2) (- PI / 2)) by lra. rewrite andb_false_r.
  rewrite (Reqb_false (- PI / 2) (PI / 2)) by lra.
  rewrite (Rltb_false 0 (- PI / 2)) by lra. rewrite andb_false_r.
  rewrite (Reqb_false (- PI / 2) 0) by lra.
  rewrite (Rltb_false (- PI / 2) (- PI / 2)) by lra. rewrite andb_false_r.
  now rewrite Reqb_true.
Qed.

(** A flat arc of diameter 3 at the centre of a 5 x 5 grid, facing the focus
    [(3, 5)]: the three cells of the column through the centre. *)
Lemma makeArc_flat_5 (theta_above : angle_test) :
  makeArc theta_above (5, 5) (3, 3) RadiusInf 3 (3, 5) = Ok flat_arc_5.
Proof.
  pose proof PI_RGT_0 as Hpi.
  assert (Hang : (arctan_quotient (3 - 3) (5 - 3) + PI / 2 = PI / 2)%R).
  { unfold arctan_quotient. cbn [Z.sub Z.eqb Z.pos_sub Z.succ_double Z.pred_double
                                   Pos.pred_double Z.double Z.opp Z.add].
    unfold Rdiv at 1. rewrite Rmult_0_l, atan_0. lra. }
  unfold makeArc. cbn [fst snd Z.ltb Z.leb Z.eqb Z.compare Pos.compare Pos.compare_cont
                        orb andb negb Z.modulo Z.div_eucl Z.pos_div_eucl Pos.eqb].
  cbv zeta. rewrite Hang.
  unfold makeLine. cbv zeta.
  rewrite (normalise_angle_low (PI / 2)) by lra.
  rewrite (normalise_angle_high (PI / 2 + PI)) by lra.
  replace (PI / 2 + PI - 2 * PI)%R with (- PI / 2)%R by lra.
  unfold line_angled. rewrite sector_of_half_pi, sector_of_minus_half_pi.
  reflexivity.
Qed.

(** ** makeCircle: the writes *)

Lemma bind_assoc {A B C : Type} (r : result A) (k1 : A -> result B) (k2 : B -> result C) :
  bind (bind r k1) k2 = bind r (fun a => bind (k1 a) k2).
Proof. now destruct r. Qed.

Lemma write_all_app (l1 l2 : list (Z * Z)) (g : grid) :
  write_all (l1 ++ l2) g = do g' <- write_all l1 g; write_all l2 g'.
Proof.
  revert g; induction l1 as [|p l1 IH]; intros g; cbn [write_all app bind]; [reflexivity|].
  destruct (grid_set g (fst p - 1) (snd p - 1) 1) as [g1|e]; cbn [bind]; [apply IH|reflexivity].
Qed.

Section MidpointCircleWrites.

Variable in_arc : Z -> Z -> bool.
Variables Nx Ny cx cy : Z.

(** The two [for] loops over [zip(px, py)] write the points that pass both
    tests and no other. *)
Lemma plot_all_writes (pts : list (Z * Z)) (g : grid) :
  plot_all in_arc Nx Ny cx cy pts g
  = write_all (filter (accepted in_arc Nx Ny cx cy) pts) g.
Proof.
  revert g; induction pts as [|[px py] rest IH]; intros g; [reflexivity|].
  cbn [plot_all filter]. unfold accepted at 1, plot. cbn [fst snd].
  destruct (in_arc (px - cx) (py - cy)); cbn [andb bind].
  - destruct (in_grid Nx Ny px py); cbn [bind write_all fst snd].
    + destruct (grid_set g (px - 1) (py - 1) 1) as [g1|e]; cbn [bind];
        [apply IH|reflexivity].
    + apply IH.
  - apply IH.
Qed.

Lemma circle_loop_writes (n : nat) (x y d : Z) (g : grid) :
  (do st <- circle_loop in_arc Nx Ny cx cy n x y d g; Ok (snd st))
  = write_all (filter (accepted in_arc Nx Ny cx cy) (loop_points cx cy n x y d)) g.
Proof.
  revert x y d g; induction n as [|n IH]; intros x y d g;
    cbn [circle_loop loop_points]; [reflexivity|].
  destruct (x <? y - 1); [|reflexivity].
  destruct (midpoint_step x y d) as [[x' y'] d'].
  rewrite filter_app, write_all_app, bind_assoc, plot_all_writes.
  destruct (write_all _ g) as [g1|e]; cbn [bind]; [apply IH|reflexivity].
Qed.

End MidpointCircleWrites.

(** [makeCircle] builds its array by three steps: the array of zeros, the
    write of the first point under the bounds test, and the writes of the
    candidates that pass both tests. *)
Lemma makeCircle_with_writes (in_arc : Z -> Z -> bool) (Nx Ny cx cy radius : Z) :
  let ex := effective_centre Nx cx in
  let ey := effective_centre Ny cy in
  makeCircle_with in_arc Nx Ny cx cy radius
  = do zeros <- np_zeros Nx Ny;
    do first <- plot_first Nx Ny ex ey radius zeros;
    write_all (filter (accepted in_arc Nx Ny ex ey) (candidates ex ey radius)) first.
Proof.
  intros ex ey. unfold makeCircle_with.
  fold (effective_centre Nx cx). fold (effective_centre Ny cy). fold ex ey.
  destruct (np_zeros Nx Ny) as [zeros|e]; cbn [bind]; [|reflexivity].
  destruct (plot_first Nx Ny ex ey radius zeros) as [first|e]; cbn [bind]; [|reflexivity].
  unfold candidates. rewrite filter_app, write_all_app, plot_all_writes.
  destruct (write_all _ first) as [g1|e]; cbn [bind]; [|reflexivity].
  apply circle_loop_writes.
Qed.

Lemma accepted_passes (a : R) (Nx Ny cx cy : Z) (p : Z * Z) :
  accepted (arc_filter a) Nx Ny cx cy p = true <->
  (1 <= fst p <= Nx /\ 1 <= snd p <= Ny) /\
  (arctan2 (IZR (fst p - cx)) (IZR (snd p - cy)) + PI <= a)%R.
Proof.
  unfold accepted. rewrite andb_true_iff, in_grid_bounds. unfold arc_filter.
  destruct (Rle_dec _ _) as [Hle|Hgt]; split; intros [H1 H2]; auto; try discriminate.
Qed.

Lemma existsb_hits (in_arc : Z -> Z -> bool) (Nx Ny cx cy qx qy : Z) (pts : list (Z * Z)) :
  existsb (hits in_arc Nx Ny cx cy qx qy) pts = true <->
  In (qx, qy) pts /\ accepted in_arc Nx Ny cx cy (qx, qy) = true.
Proof.
  rewrite existsb_exists. unfold hits. split.
  - intros ([px py] & Hin & H). cbn [fst snd] in H.
    apply andb_true_iff in H. destruct H as [H Hy].
    apply andb_true_iff in H. destruct H as [Hacc Hx].
    apply Z.eqb_eq in Hx, Hy. subst. auto.
  - intros [Hin Hacc]. exists (qx, qy). split; [exact Hin|].
    cbn [fst snd]. now rewrite Hacc, !Z.eqb_refl.
Qed.

(** * The claims *)

(** C1 as stated fails: with [arc_angle = 0] the point [(3, 2)] of
    [makeCircle(5, 5, 3, 3, 1, 0)] is set, although its angle
    [arctan2(0, -1) + pi = 2 pi] is above the aperture [0]. *)
Lemma makeCircle_first_point_unfiltered :
  makeCircle 5 5 3 3 1 (Some 0%R) = Ok circle_5_zero_aperture /\
  at1 circle_5_zero_aperture 3 2 = 1 /\
  (arctan2 (IZR (3 - 3)) (IZR (2 - 3)) + PI = 2 * PI)%R /\
  (clamp_arc_angle (Some 0%R) < arctan2 (IZR (3 - 3)) (IZR (2 - 3)) + PI)%R /\
  arc_filter (clamp_arc_angle (Some 0%R)) (3 - 3) (2 - 3) = false.
Proof.
  pose proof PI_RGT_0 as Hpi.
  assert (Hang : (arctan2 (IZR (3 - 3)) (IZR (2 - 3)) = PI)%R).
  { replace (3 - 3) with 0 by lia. replace (2 - 3) with (-1) by lia.
    apply arctan2_zero_negative. lra. }
  split; [apply makeCircle_5_zero_aperture|].
  split; [reflexivity|].
  rewrite Hang, clamp_arc_angle_zero.
  split; [lra|]. split; [lra|]. apply arc_filter_zero.
Qed.

(** C1, amended.  For every centre, radius and aperture [makeCircle] builds
    its array from the array of zeros by the write of the first point
    [(cx, cy - radius)], made under the bounds test alone, followed by the
    writes of exactly those candidate points (the three other cardinal
    points and the eight-way symmetric points of the loop) that pass both
    tests: the point lies within [[1, Nx] x [1, Ny]] and its angle
    [arctan2(dx, dy) + pi] is at most the clamped aperture.  No other write
    is made, so that a cell is set exactly when it is the first point inside
    the grid or a candidate that passes both tests. *)
Theorem makeCircle_marks_filtered (Nx Ny cx cy radius : Z) (arc_angle : option R) :
  0 <= Nx -> 0 <= Ny ->
  let ex := effective_centre Nx cx in
  let ey := effective_centre Ny cy in
  let passes (p : Z * Z) :=
    (1 <= fst p <= Nx /\ 1 <= snd p <= Ny) /\
    (arctan2 (IZR (fst p - ex)) (IZR (snd p - ey)) + PI <= clamp_arc_angle arc_angle)%R in
  let test := accepted (arc_filter (clamp_arc_angle arc_angle)) Nx Ny ex ey in
  (forall p, test p = true <-> passes p) /\
  exists zeros first g,
    np_zeros Nx Ny = Ok zeros /\
    plot_first Nx Ny ex ey radius zeros = Ok first /\
    write_all (filter test (candidates ex ey radius)) first = Ok g /\
    makeCircle Nx Ny cx cy radius arc_angle = Ok g /\
    shape g Nx Ny /\
    forall px py,
      (at1 g px py = 1 \/ at1 g px py = 0) /\
      (at1 g px py = 1 <->
       (px = ex /\ py = ey - radius /\ 1 <= px <= Nx /\ 1 <= py <= Ny) \/
       (In (px, py) (candidates ex ey radius) /\ passes (px, py))).
Proof.
  intros Hx Hy ex ey passes test.
  split; [intros p; apply accepted_passes|].
  unfold makeCircle. rewrite makeCircle_with_writes. fold ex ey test.
  destruct (np_zeros_ok Nx Ny Hx Hy) as (zeros & E0 & Hs0 & Hz0).
  destruct (plot_first_spec Nx Ny ex ey radius zeros Hs0) as (first & E1 & Hs1 & Hat1).
  pose proof (plot_all_writes (arc_filter (clamp_arc_angle arc_angle)) Nx Ny ex ey
                (candidates ex ey radius) first) as Hw.
  fold test in Hw.
  destruct (plot_all_spec (arc_filter (clamp_arc_angle arc_angle)) Nx Ny ex ey
              (candidates ex ey radius) first Hs1) as (g & E2 & Hs2 & Hat2).
  rewrite Hw in E2.
  exists zeros, first, g. rewrite E0. cbn [bind]. rewrite E1. cbn [bind].
  repeat (split; [reflexivity || assumption|]).
  intros px py. rewrite Hat2, Hat1, Hz0.
  destruct (existsb _ _) eqn:Eh.
  - split; [now left|]. split; [|reflexivity]. intros _. right.
    apply existsb_hits in Eh. destruct Eh as [Hin Hacc].
    split; [exact Hin|]. now apply accepted_passes.
  - destruct (in_grid Nx Ny ex (ey - radius) && (px =? ex) && (py =? ey - radius)) eqn:Ef.
    + split; [now left|]. split; [|reflexivity]. intros _. left.
      apply andb_true_iff in Ef. destruct Ef as [Ef Epy].
      apply andb_true_iff in Ef. destruct Ef as [Eg Epx].
      apply in_grid_bounds in Eg. apply Z.eqb_eq in Epx, Epy. subst px py. tauto.
    + split; [now right|]. split; [discriminate|].
      intros [(-> & -> & Hbx & Hby)|[Hin Hp]]; exfalso.
      * rewrite !Z.eqb_refl, !andb_true_r in Ef.
        assert (in_grid Nx Ny ex (ey - radius) = true) by (apply in_grid_bounds; tauto).
        congruence.
      * assert (Eh' : existsb (hits (arc_filter (clamp_arc_angle arc_angle)) Nx Ny ex ey px py)
                        (candidates ex ey radius) = true).
        { apply existsb_hits. split; [exact Hin|]. now apply accepted_passes. }
        congruence.
Qed.

Lemma makeCircle_marks_filtered_witness :
  (0 <= 5 /\ 0 <= 5) /\
  exists g, makeCircle 5 5 3 3 1 (Some 0%R) = Ok g /\ shape g 5 5.
Proof.
  split; [lia|].
  destruct (makeCircle_marks_filtered 5 5 3 3 1 (Some 0%R)) as (_ & zeros & first & g & H);
    [lia|lia|].
  destruct H as (_ & _ & _ & E & Hs & _). exists g. split; assumption.
Defined.

(** C2 (the code departs from the claim).  For an even size and the double
    origin the second range of the source, [np.arange(0, -Nx/2 - 1 + 1, 1)],
    is empty: at [Nx = 4] the vector is [[-1; 0]], of length 2, with one
    zero, where the claim has the length 4 and two neighbouring zeros. *)
Theorem createPixelDim_double_4 :
  createPixelDim 4 "double" 1 = [-1; 0] /\
  createPixelDim 4 "double" 0 = [-1; 0] /\
  createPixelDim 5 "double" 1 = [-2; -1; 0; 0; 1].
Proof. repeat split. Qed.

(** C3 (the code departs from the claim).  In the angle mode the test on the
    start point builds its exception and drops it: for the start point
    [(0, 1)], outside the 3 x 3 grid, [makeLine] builds the array, writes
    through the wrapped index [-1] and returns; for [(5, 1)] the first write
    fails on its index, after the array was built. *)
Theorem makeLine_angled_start_outside :
  start_outside_grid 3 3 (0, 1) = true /\
  makeLine 3 3 (0, 1) None (Some 0%R) (Some 1) = Ok line_from_outside /\
  start_outside_grid 3 3 (5, 1) = true /\
  makeLine 3 3 (5, 1) None (Some 0%R) (Some 1) = Raise IndexError.
Proof.
  split; [reflexivity|]. split; [|split; [reflexivity|]].
  - unfold makeLine. cbv zeta. rewrite normalise_angle_0.
    unfold line_angled. rewrite sector_of_0. reflexivity.
  - unfold makeLine. cbv zeta. rewrite normalise_angle_0.
    unfold line_angled. rewrite sector_of_0. reflexivity.
Qed.

(** C4.  On every input that passes the validation, [makeArc] with an
    infinite radius returns the cell-wise logical OR of the two angle-mode
    lines that [makeLine] draws from [arc_pos] with the length
    [(diameter - 1) // 2], at the angle [ang] and at [ang + pi]: a cell of
    the arc is set exactly when it is set in one of the two lines.  The
    angle [ang] is [arctan((fx - ax) / (fy - ay)) + pi / 2], the quotient
    being an infinity when [fy = ay]. *)
Theorem makeArc_infinite_radius (theta_above : angle_test) (grid_size arc_pos : Z * Z)
        (diameter : Z) (focus_pos : Z * Z) :
  valid_flat_arc grid_size arc_pos diameter focus_pos ->
  let Nx := fst grid_size in
  let Ny := snd grid_size in
  let dx := fst focus_pos - fst arc_pos in
  let dy := snd focus_pos - snd arc_pos in
  let ang :=
    ((if dy =? 0 then (if 0 <? dx then PI / 2 else - PI / 2) else atan (IZR dx / IZR dy))
     + PI / 2)%R in
  exists line1 line2 arc,
    makeLine Nx Ny arc_pos None (Some ang) (Some ((diameter - 1) / 2)) = Ok line1 /\
    makeLine Nx Ny arc_pos None (Some (ang + PI)%R) (Some ((diameter - 1) / 2)) = Ok line2 /\
    makeArc theta_above grid_size arc_pos RadiusInf diameter focus_pos = Ok arc /\
    shape line1 Nx Ny /\ shape line2 Nx Ny /\ shape arc Nx Ny /\
    forall px py,
      at1 arc px py
      = if negb (at1 line1 px py =? 0) || negb (at1 line2 px py =? 0) then 1 else 0.
Proof.
  intros (Hnx & Hny & Hd & Hodd & Hax & Hay & Hfocus) Nx Ny dx dy ang.
  destruct grid_size as [Nx' Ny'], arc_pos as [ax ay], focus_pos as [fx fy].
  cbn [fst snd] in *. subst Nx Ny.
  destruct (makeLine_angled_returns Nx' Ny' (ax, ay) ang ((diameter - 1) / 2))
    as (line1 & E1 & Hs1); [exact Hax|exact Hay|].
  destruct (makeLine_angled_returns Nx' Ny' (ax, ay) (ang + PI) ((diameter - 1) / 2))
    as (line2 & E2 & Hs2); [exact Hax|exact Hay|].
  destruct (logical_or_cells line1 line2 Nx' Ny' Hs1 Hs2) as [Hs Hat].
  exists line1, line2, (logical_or line1 line2).
  split; [exact E1|]. split; [exact E2|]. split; [|auto].
  unfold makeArc. cbn [fst snd].
  replace ((Nx' <? 1) || (Ny' <? 1)) with false
    by (symmetry; apply orb_false_iff; rewrite !Z.ltb_ge; lia).
  replace (diameter <=? 0) with false by (symmetry; apply Z.leb_gt; lia).
  replace ((ax <? 1) || (ay <? 1) || ((Nx' <? ax) || (Ny' <? ay))) with false
    by (symmetry; rewrite !orb_false_iff, !Z.ltb_ge; lia).
  rewrite Hodd. cbn [Z.eqb negb].
  replace ((ax =? fx) && (ay =? fy)) with false.
  - unfold arctan_quotient. fold dx dy. fold ang. rewrite E1. cbn [bind]. rewrite E2.
    reflexivity.
  - symmetry. apply andb_false_iff.
    destruct (Z.eq_dec ax fx) as [->|Hne]; [right|left]; apply Z.eqb_neq; congruence.
Qed.

Lemma makeArc_infinite_radius_witness :
  valid_flat_arc (5, 5) (3, 3) 3 (3, 5) /\
  exists arc, makeArc (fun _ _ _ _ _ => false) (5, 5) (3, 3) RadiusInf 3 (3, 5) = Ok arc /\
              shape arc 5 5.
Proof.
  assert (Hvalid : valid_flat_arc (5, 5) (3, 3) 3 (3, 5)).
  { unfold valid_flat_arc. cbn [fst snd].
    repeat split; try lia; try reflexivity. discriminate. }
  split; [exact Hvalid|].
  destruct (makeArc_infinite_radius (fun _ _ _ _ _ => false) (5, 5) (3, 3) 3 (3, 5) Hvalid)
    as (line1 & line2 & arc & _ & _ & E & _ & _ & Hs & _).
  exists arc. split; assumption.
Defined.

(** C5.  When the circle of radius [r] about [(cx, cy)] lies within the grid
    and the aperture is full, the set cells of [makeCircle] are symmetric
    under the eight reflections about [(cx, cy)]. *)
Theorem makeCircle_eightfold_symmetry (Nx Ny cx cy r : Z) (arc_angle : option R)
        (g : grid) :
  0 <= r -> 1 <= cx - r -> cx + r <= Nx -> 1 <= cy - r -> cy + r <= Ny ->
  clamp_arc_angle arc_angle = (2 * PI)%R ->
  makeCircle Nx Ny cx cy r arc_angle = Ok g ->
  forall dx dy, at1 g (cx + dx) (cy + dy) = 1 ->
    at1 g (cx - dx) (cy + dy) = 1 /\ at1 g (cx + dx) (cy - dy) = 1 /\
    at1 g (cx - dx) (cy - dy) = 1 /\ at1 g (cx + dy) (cy + dx) = 1 /\
    at1 g (cx - dy) (cy + dx) = 1 /\ at1 g (cx + dy) (cy - dx) = 1 /\
    at1 g (cx - dy) (cy - dx) = 1.
Proof.
  intros Hr Hx1 Hx2 Hy1 Hy2 Hfull E dx dy Hset.
  unfold makeCircle in E. rewrite Hfull in E.
  assert (Hsym : sym_grid cx cy g).
  { apply (makeCircle_with_full_sym (arc_filter (2 * PI)) Nx Ny cx cy r g);
      auto using arc_filter_full. }
  pose proof (sym_grid_eightfold cx cy g Hsym dx dy) as H8.
  cbv zeta in H8. rewrite Hset in H8. exact H8.
Qed.

Lemma makeCircle_eightfold_symmetry_witness :
  (0 <= 3 /\ 1 <= 5 - 3 /\ 5 + 3 <= 9 /\ 1 <= 5 - 3 /\ 5 + 3 <= 9) /\
  clamp_arc_angle None = (2 * PI)%R /\
  makeCircle 9 9 5 5 3 None = Ok circle_9_full /\
  at1 circle_9_full (5 + 1) (5 + 3) = 1 /\
  (at1 circle_9_full (5 - 1) (5 + 3) = 1 /\ at1 circle_9_full (5 + 1) (5 - 3) = 1 /\
   at1 circle_9_full (5 - 1) (5 - 3) = 1 /\ at1 circle_9_full (5 + 3) (5 + 1) = 1 /\
   at1 circle_9_full (5 - 3) (5 + 1) = 1 /\ at1 circle_9_full (5 + 3) (5 - 1) = 1 /\
   at1 circle_9_full (5 - 3) (5 - 1) = 1).
Proof.
  split; [lia|]. split; [reflexivity|].
  split; [apply makeCircle_9_full|]. split; [reflexivity|].
  apply (makeCircle_eightfold_symmetry 9 9 5 5 3 None circle_9_full);
    try lia; try reflexivity.
  apply makeCircle_9_full.
Defined.

(** C6 (the code departs from the claim).  On a grid that is longer along x
    the diagonal is left to the branch [abs(m) < 1], whose first loop pass
    multiplies the [numpy.float64] gradient by a Python list:
    [makeLine(3, 2, (1,1), (3,2))] and [makeLine(4, 3, (1,1), (4,3))] raise a
    [TypeError] and mark no cell, where the claim has a sequence of
    [max(Nx, Ny)] cells. *)
Theorem makeLine_diagonal_wide_grid :
  makeLine 3 2 (1, 1) (Some (3, 2)) None None = Raise TypeError /\
  makeLine 4 3 (1, 1) (Some (4, 3)) None None = Raise TypeError /\
  (forall g, makeLine 3 2 (1, 1) (Some (3, 2)) None None <> Ok g).
Proof.
  assert (H : makeLine 3 2 (1, 1) (Some (3, 2)) None None = Raise TypeError)
    by reflexivity.
  split; [exact H|]. split; [reflexivity|].
  intros g E. rewrite H in E. discriminate.
Qed.

(** C7.  [makeDisc(5, 5, 3, 3, 1)] is a 5 x 5 grid with five set cells: the
    centre [(3, 3)] and its four axis neighbours. *)
Theorem makeDisc_5_5_3_3_1 :
  makeDisc 5 5 3 3 1 = Ok disc_5 /\
  shape disc_5 5 5 /\
  marked disc_5 = [(2, 3); (3, 2); (3, 3); (3, 4); (4, 3)] /\
  length (marked disc_5) = 5%nat.
Proof.
  split; [reflexivity|]. split.
  - split; [reflexivity|]. repeat constructor.
  - split; reflexivity.
Qed.

(** C8 (the code departs from the claim).  [makeLine(3, 3, (1,1), (3,1))]
    returns no grid: the start cell is written into the new array, and the
    first pass of the loop of the branch [abs(m) < 1] raises a [TypeError]
    at [true_y = m * poss_x + c], before any further cell is chosen. *)
Theorem makeLine_3_3_horizontal :
  makeLine 3 3 (1, 1) (Some (3, 1)) None None = Raise TypeError /\
  (forall g, makeLine 3 3 (1, 1) (Some (3, 1)) None None <> Ok g).
Proof.
  assert (H : makeLine 3 3 (1, 1) (Some (3, 1)) None None = Raise TypeError)
    by reflexivity.
  split; [exact H|]. intros g E. rewrite H in E. discriminate.
Qed.

(** C9.  [makeDisc] fails its assertion whenever the requested centre has
    [cx >= Nx] or [cy >= Ny]; a centre on the last row or the last column is
    such a centre. *)
Theorem makeDisc_rejects_centre (Nx Ny cx cy radius : Z) :
  Nx <= cx \/ Ny <= cy ->
  makeDisc Nx Ny cx cy radius = Raise AssertionError.
Proof.
  intros H. unfold makeDisc.
  set (cx' := if cx =? 0 then Nx / 2 + 1 else cx).
  set (cy' := if cy =? 0 then Ny / 2 + 1 else cy).
  assert (Hbad : ((0 <=? cx') && (cx' <? Nx)) && ((0 <=? cy') && (cy' <? Ny)) = false).
  { apply andb_false_iff. destruct H as [H|H]; [left|right];
      apply andb_false_iff.
    - subst cx'. destruct (cx =? 0) eqn:E.
      + apply Z.eqb_eq in E. subst cx.
        destruct (Z.le_gt_cases 0 (Nx / 2 + 1)) as [Hc|Hc].
        * right. apply Z.ltb_ge. lia.
        * left. apply Z.leb_gt. lia.
      + right. apply Z.ltb_ge. lia.
    - subst cy'. destruct (cy =? 0) eqn:E.
      + apply Z.eqb_eq in E. subst cy.
        destruct (Z.le_gt_cases 0 (Ny / 2 + 1)) as [Hc|Hc].
        * right. apply Z.ltb_ge. lia.
        * left. apply Z.leb_gt. lia.
      + right. apply Z.ltb_ge. lia. }
  rewrite Hbad. reflexivity.
Qed.

Lemma makeDisc_rejects_centre_witness :
  (5 <= 5 \/ 5 <= 3) /\ makeDisc 5 5 5 3 1 = Raise AssertionError.
Proof.
  split; [left; lia|]. apply (makeDisc_rejects_centre 5 5 5 3 1). left. lia.
Defined.

(** C10.  With [num_points = 1] and an arc angle below [2 pi] the divisor of
    the angle step is [0]; the single angle is the quotient [0 / 0], and both
    rows of the returned array hold not-a-number in place of a coordinate. *)
Theorem makeCartCircle_single_point_arc (radius : R) (center_pos : option (R * R))
        (arc_angle : R) :
  (arc_angle < 2 * PI)%R ->
  angle_divisor 1 arc_angle = 0 /\
  np_divide (IZR 0 * arc_angle) (angle_divisor 1 arc_angle) = NaN /\
  makeCartCircle radius 1 center_pos arc_angle = ([NaN], [NaN]).
Proof.
  intros Hlt.
  assert (Hfull : Reqb arc_angle (2 * PI) = false) by (apply Reqb_false; lra).
  assert (Hdiv : angle_divisor 1 arc_angle = 0)
    by (unfold angle_divisor; now rewrite Hfull).
  split; [exact Hdiv|]. split.
  - rewrite Hdiv. apply np_divide_zero_by_zero.
  - unfold makeCartCircle. rewrite Hfull. cbn [negb].
    destruct (match center_pos with None => (0%R, 0%R) | Some c => c end) as [cx cy].
    replace (1 - 1) with 0 by lia.
    change (arange 0 (0 + 1)) with [0]. cbn [map].
    rewrite np_divide_zero_by_zero. reflexivity.
Qed.

Lemma makeCartCircle_single_point_arc_witness :
  (PI < 2 * PI)%R /\
  angle_divisor 1 PI = 0 /\
  np_divide (IZR 0 * PI) (angle_divisor 1 PI) = NaN /\
  makeCartCircle 1 1 None PI = ([NaN], [NaN]).
Proof.
  assert (H : (PI < 2 * PI)%R) by (pose proof PI_RGT_0; lra).
  split; [exact H|]. apply (makeCartCircle_single_point_arc 1 None PI H).
Defined.

(** * Further properties *)

(** ** Vectors and arrays *)

Lemma nth_arange (a b : Z) (i : nat) (d : Z) :
  Z.of_nat i < b - a -> nth i (arange a b) d = a + Z.of_nat i.
Proof.
  intros H. unfold arange.
  rewrite (nth_indep _ d (a + Z.of_nat 0)) by (rewrite length_map, length_seq; lia).
  rewrite (map_nth (fun k => a + Z.of_nat k)). rewrite seq_nth by lia. reflexivity.
Qed.

Lemma length_roll {A : Type} (d : A) (s : Z) (l : list A) : length (roll d s l) = length l.
Proof. unfold roll. now rewrite length_map, length_seq. Qed.

(** [np.roll]: the element at index [k] of the result comes from index
    [(k - s) mod n]. *)
Lemma nth_roll {A : Type} (d : A) (s : Z) (l : list A) (k : nat) :
  (k < length l)%nat ->
  nth k (roll d s l) d = nth (Z.to_nat ((Z.of_nat k - s) mod Z.of_nat (length l))) l d.
Proof.
  intros H. unfold roll.
  set (f := fun k0 : nat => _).
  rewrite (nth_indep _ d (f O)) by (rewrite length_map, length_seq; exact H).
  rewrite (map_nth f). rewrite seq_nth by exact H. reflexivity.
Qed.

(** A shift by the length of the axis is no shift. *)
Lemma roll_period {A : Type} (d : A) (s : Z) (l : list A) :
  roll d (s + Z.of_nat (length l)) l = roll d s l.
Proof.
  unfold roll. apply map_ext_in. intros k Hk. apply in_seq in Hk.
  f_equal. f_equal.
  replace (Z.of_nat k - (s + Z.of_nat (length l)))
    with (Z.of_nat k - s + (-1) * Z.of_nat (length l)) by lia.
  apply Z.mod_add. lia.
Qed.

(** ** createPixelDim *)

Lemma createPixelDim_single_entries (N shift : Z) (i : nat) :
  1 <= N -> Z.of_nat i < N ->
  Z.of_nat (length (createPixelDim N "single" shift)) = N /\
  nth i (createPixelDim N "single" shift) 0
  = Z.of_nat i - (if (N mod 2 =? 0) && negb (shift =? 1) then N / 2 - 1 else N / 2).
Proof.
  intros HN Hi. unfold createPixelDim.
  change (String.eqb "single" "single") with true. cbv iota.
  pose proof (Z.div_mod N 2 ltac:(lia)) as Hdm.
  pose proof (Z.mod_pos_bound N 2 ltac:(lia)) as Hmb.
  destruct (N mod 2 =? 0) eqn:Hpar.
  - apply Z.eqb_eq in Hpar.
    destruct (shift =? 1); cbn [andb negb]; rewrite arange_length, nth_arange by lia;
      split; lia.
  - apply Z.eqb_neq in Hpar. cbn [andb].
    assert (Hh : (N - 1) / 2 = N / 2).
    { assert (N mod 2 = 1) by lia.
      symmetry. apply (Z.div_unique (N - 1) 2 (N / 2) 0); lia. }
    rewrite Hh. rewrite arange_length, nth_arange by lia. split; lia.
Qed.

(** X1.  With the single origin and a positive size [N] the vector has [N]
    entries, consecutive integers with the zero at index [N / 2]; for an even
    size and [shift <> 1] the zero is one index earlier. *)
Theorem createPixelDim_single (N shift : Z) (i : nat) :
  1 <= N -> Z.of_nat i < N ->
  Z.of_nat (length (createPixelDim N "single" shift)) = N /\
  nth i (createPixelDim N "single" shift) 0
  = Z.of_nat i - (if (N mod 2 =? 0) && negb (shift =? 1) then N / 2 - 1 else N / 2).
Proof. apply createPixelDim_single_entries. Qed.

Lemma createPixelDim_single_witness :
  (1 <= 4 /\ Z.of_nat 2 < 4) /\
  Z.of_nat (length (createPixelDim 4 "single" 1)) = 4 /\
  nth 2 (createPixelDim 4 "single" 1) 0
  = Z.of_nat 2 - (if (4 mod 2 =? 0) && negb (1 =? 1) then 4 / 2 - 1 else 4 / 2).
Proof.
  split; [simpl; lia|]. apply (createPixelDim_single 4 1 2); simpl; lia.
Defined.

(** X2.  With the double origin and an odd size [N >= 3] the vector has [N]
    entries and two neighbouring zeros: at the indices [h] and [h + 1] for
    [shift = 1], at [h - 1] and [h] otherwise, where [h = (N - 1) / 2]; the
    entries before them count up to zero and the entries after them count up
    from zero. *)
Theorem createPixelDim_odd_double (N shift : Z) (i : nat) :
  3 <= N -> N mod 2 = 1 -> Z.of_nat i < N ->
  let h := (N - 1) / 2 in
  let z := if shift =? 1 then h else h - 1 in
  Z.of_nat (length (createPixelDim N "double" shift)) = N /\
  nth i (createPixelDim N "double" shift) 0
  = if Z.of_nat i <=? z then Z.of_nat i - z else Z.of_nat i - z - 1.
Proof.
  intros HN Hodd Hi h z. unfold createPixelDim.
  rewrite Hodd. change (1 =? 0) with false. change (String.eqb "double" "single") with false.
  cbv iota. fold h.
  assert (Hh : N = 2 * h + 1).
  { unfold h. pose proof (Z.div_mod (N - 1) 2 ltac:(lia)).
    assert ((N - 1) mod 2 = 0); [|lia].
    replace (N - 1) with (N + (-1) * 1) by lia.
    rewrite <- Zplus_mod_idemp_l, Hodd. reflexivity. }
  subst z. destruct (shift =? 1).
  - rewrite length_app, !arange_length. split; [lia|].
    destruct (Z.of_nat i <=? h) eqn:E.
    + apply Z.leb_le in E. rewrite app_nth1 by (rewrite arange_length; lia).
      rewrite nth_arange by lia. lia.
    + apply Z.leb_gt in E. rewrite app_nth2 by (rewrite arange_length; lia).
      rewrite arange_length. rewrite nth_arange by lia. lia.
  - rewrite length_app, !arange_length. split; [lia|].
    destruct (Z.of_nat i <=? h - 1) eqn:E.
    + apply Z.leb_le in E. rewrite app_nth1 by (rewrite arange_length; lia).
      rewrite nth_arange by lia. lia.
    + apply Z.leb_gt in E. rewrite app_nth2 by (rewrite arange_length; lia).
      rewrite arange_length. rewrite nth_arange by lia. lia.
Qed.

Lemma createPixelDim_odd_double_witness :
  (3 <= 5 /\ 5 mod 2 = 1 /\ Z.of_nat 3 < 5) /\
  Z.of_nat (length (createPixelDim 5 "double" 1)) = 5 /\
  nth 3 (createPixelDim 5 "double" 1) 0 = 0.
Proof.
  split; [repeat split; simpl; lia|].
  apply (createPixelDim_odd_double 5 1 3); [lia|reflexivity|simpl; lia].
Defined.

(** ** makePixelMap *)

Lemma cell_outer (f : Z -> Z -> Z) (nx ny : list Z) (i j : nat) :
  (i < length nx)%nat -> (j < length ny)%nat ->
  cell (map (fun rx => map (fun ry => f rx ry) ny) nx) i j = f (nth i nx 0) (nth j ny 0).
Proof.
  intros Hi Hj. unfold cell.
  set (row := fun rx : Z => map (fun ry => f rx ry) ny).
  rewrite (nth_indep _ [] (row 0)) by (rewrite length_map; exact Hi).
  rewrite (map_nth row). unfold row.
  rewrite (nth_indep _ 0 (f (nth i nx 0) 0)) by (rewrite length_map; exact Hj).
  now rewrite (map_nth (fun ry => f (nth i nx 0) ry)).
Qed.

Lemma shape_outer (f : Z -> Z -> Z) (nx ny : list Z) :
  shape (map (fun rx => map (fun ry => f rx ry) ny) nx)
        (Z.of_nat (length nx)) (Z.of_nat (length ny)).
Proof.
  split; [now rewrite length_map|].
  apply Forall_forall. intros row Hrow. apply in_map_iff in Hrow.
  destruct Hrow as (rx & <- & _). now rewrite length_map.
Qed.

(** The pixel map of the single origin: its shape and its entries. *)
Lemma makePixelMap_single (Nx Ny s0 s1 : Z) (args : list argval) :
  1 <= Nx -> 1 <= Ny ->
  (args = [] /\ s0 = 1 /\ s1 = 1) \/ args = [AStr "Shift"; AInts [s0; s1]] ->
  exists r, makePixelMap Nx Ny args = Ok r /\ shape r Nx Ny /\
    forall i j, Z.of_nat i < Nx -> Z.of_nat j < Ny ->
      cell r i j
      = nth i (createPixelDim Nx "single" s0) 0 * nth i (createPixelDim Nx "single" s0) 0
        + nth j (createPixelDim Ny "single" s1) 0 * nth j (createPixelDim Ny "single" s1) 0.
Proof.
  intros Hx Hy Hargs.
  assert (Hlx : Z.of_nat (length (createPixelDim Nx "single" s0)) = Nx)
    by (apply (createPixelDim_single_entries Nx s0 O); lia).
  assert (Hly : Z.of_nat (length (createPixelDim Ny "single" s1)) = Ny)
    by (apply (createPixelDim_single_entries Ny s1 O); lia).
  exists (map (fun rx => map (fun ry => rx * rx + ry * ry) (createPixelDim Ny "single" s1))
              (createPixelDim Nx "single" s0)).
  split; [|split].
  - destruct Hargs as [(-> & -> & ->)| ->]; reflexivity.
  - pose proof (shape_outer (fun rx ry => rx * rx + ry * ry)
                  (createPixelDim Nx "single" s0) (createPixelDim Ny "single" s1)) as H.
    rewrite Hlx, Hly in H. exact H.
  - intros i j Hi Hj.
    apply (cell_outer (fun rx ry => rx * rx + ry * ry)); lia.
Qed.

(** X3.  Without optional inputs the pixel map of an [Nx] x [Ny] grid has
    that shape, and its entry at the 0-based index [(i, j)] is the squared
    distance from [(Nx / 2, Ny / 2)]: a single centre pixel, shifted towards
    the final row and column when a size is even.  (The source takes the
    square root of this entry.) *)
Theorem makePixelMap_default (Nx Ny : Z) :
  1 <= Nx -> 1 <= Ny ->
  exists r, makePixelMap Nx Ny [] = Ok r /\ shape r Nx Ny /\
    forall i j, Z.of_nat i < Nx -> Z.of_nat j < Ny ->
      cell r i j = (Z.of_nat i - Nx / 2) * (Z.of_nat i - Nx / 2)
                   + (Z.of_nat j - Ny / 2) * (Z.of_nat j - Ny / 2).
Proof.
  intros Hx Hy.
  destruct (makePixelMap_single Nx Ny 1 1 [] Hx Hy) as (r & E & Hs & Hcell); [now left|].
  exists r. split; [exact E|]. split; [exact Hs|].
  intros i j Hi Hj. rewrite (Hcell i j Hi Hj).
  destruct (createPixelDim_single_entries Nx 1 i Hx Hi) as [_ ->].
  destruct (createPixelDim_single_entries Ny 1 j Hy Hj) as [_ ->].
  change (negb (1 =? 1)) with false. rewrite !andb_false_r. reflexivity.
Qed.

Lemma makePixelMap_default_witness :
  (1 <= 4 /\ 1 <= 4) /\
  exists r, makePixelMap 4 4 [] = Ok r /\ shape r 4 4 /\
    forall i j, Z.of_nat i < 4 -> Z.of_nat j < 4 ->
      cell r i j = (Z.of_nat i - 4 / 2) * (Z.of_nat i - 4 / 2)
                   + (Z.of_nat j - 4 / 2) * (Z.of_nat j - 4 / 2).
Proof.
  split; [lia|]. apply (makePixelMap_default 4 4); lia.
Defined.

(** X4.  The optional inputs of [makePixelMap] are checked before any map is
    built: a [Shift] that does not have two entries and an origin size other
    than ['single'] and ['double'] fail the assertions, and a parameter name
    other than ['Shift'] and ['OriginSize'] raises a [ValueError]. *)
Theorem makePixelMap_rejects (Nx Ny : Z) (shift : list Z) (origin name : string)
        (value : argval) (rest : list argval) :
  length shift <> 2%nat ->
  String.eqb origin "single" = false -> String.eqb origin "double" = false ->
  String.eqb name "Shift" = false -> String.eqb name "OriginSize" = false ->
  Nat.even (length rest) = true ->
  makePixelMap Nx Ny [AStr "Shift"; AInts shift] = Raise AssertionError /\
  makePixelMap Nx Ny [AStr "OriginSize"; AStr origin] = Raise AssertionError /\
  makePixelMap Nx Ny (AStr name :: value :: rest) = Raise ValueError.
Proof.
  intros Hshift Ho1 Ho2 Hn1 Hn2 Hrest. repeat split.
  - unfold makePixelMap. cbn [length].
    change (Z.of_nat 2 mod 2 =? 0) with true. cbn [negb parse_args is_name].
    change (String.eqb "Shift" "Shift") with true. cbv iota. cbn [bind shift_entries].
    change (String.eqb "single" "single") with true. cbn [orb negb].
    destruct shift as [|a [|b [|c l]]]; try reflexivity. now elim Hshift.
  - unfold makePixelMap. cbn [length].
    change (Z.of_nat 2 mod 2 =? 0) with true. cbn [negb parse_args is_name].
    change (String.eqb "OriginSize" "Shift") with false.
    change (String.eqb "OriginSize" "OriginSize") with true. cbv iota. cbn [bind].
    now rewrite Ho1, Ho2.
  - unfold makePixelMap. cbn [length].
    replace (Z.of_nat (S (S (length rest))) mod 2 =? 0) with true.
    + cbn [negb parse_args is_name]. rewrite Hn1, Hn2. reflexivity.
    + symmetry. apply Z.eqb_eq.
      apply Nat.even_spec in Hrest. destruct Hrest as [k Hk]. rewrite Hk.
      replace (Z.of_nat (S (S (2 * k)))) with (0 + (Z.of_nat k + 1) * 2) by lia.
      now rewrite Z.mod_add.
Qed.

Lemma makePixelMap_rejects_witness :
  makePixelMap 4 4 [AStr "Shift"; AInts [0; 0; 0]] = Raise AssertionError /\
  makePixelMap 4 4 [AStr "OriginSize"; AStr "triple"] = Raise AssertionError /\
  makePixelMap 4 4 [AStr "Centre"; AInts [0; 0]] = Raise ValueError.
Proof.
  apply (makePixelMap_rejects 4 4 [0; 0; 0] "triple" "Centre" (AInts [0; 0]) []);
    try reflexivity. discriminate.
Defined.

(** ** makeDisc *)

Lemma ceil_half_value (N : Z) :
  ceil_half N = if N mod 2 =? 0 then N / 2 else N / 2 + 1.
Proof.
  unfold ceil_half.
  pose proof (Z.div_mod N 2 ltac:(lia)) as Hdm.
  pose proof (Z.mod_pos_bound N 2 ltac:(lia)) as Hmb.
  destruct (N mod 2 =? 0) eqn:E.
  - apply Z.eqb_eq in E.
    rewrite <- (Z.div_unique (- N) 2 (- (N / 2)) 0); lia.
  - apply Z.eqb_neq in E.
    rewrite <- (Z.div_unique (- N) 2 (- (N / 2) - 1) 1); lia.
Qed.

Lemma same_shape_of_shape (a b : grid) (Nx Ny : Z) :
  shape a Nx Ny -> shape b Nx Ny -> same_shape a b = true.
Proof.
  intros [Ha Hra] [Hb Hrb]. unfold same_shape.
  apply andb_true_iff. split; [apply Nat.eqb_eq; lia|].
  apply forallb_forall. intros [ra rb] Hin. cbn [fst snd].
  rewrite Forall_forall in Hra, Hrb.
  apply Nat.eqb_eq.
  pose proof (Hra ra (in_combine_l _ _ _ _ Hin)).
  pose proof (Hrb rb (in_combine_r _ _ _ _ Hin)). lia.
Qed.

(** [disc[r <= radius] = magnitude] on arrays of one shape. *)
Lemma mask_assign_cells (disc r : grid) (Nx Ny radius magnitude : Z) :
  shape disc Nx Ny -> shape r Nx Ny ->
  exists m, mask_assign disc r radius magnitude = Ok m /\ shape m Nx Ny /\
    forall i j, Z.of_nat i < Nx -> Z.of_nat j < Ny ->
      cell m i j = if within_radius (cell r i j) radius then magnitude else cell disc i j.
Proof.
  intros Hd Hr. unfold mask_assign.
  rewrite (same_shape_of_shape disc r Nx Ny Hd Hr).
  eexists; split; [reflexivity|].
  set (G := fun q : Z * Z => if within_radius (snd q) radius then magnitude else fst q).
  set (F := fun p : list Z * list Z => map G (combine (fst p) (snd p))).
  assert (Hlen : length disc = length r) by (destruct Hd, Hr; lia).
  assert (Hcell : forall i, Z.of_nat i < Nx ->
            nth i (map F (combine disc r)) [] = F (nth i disc [], nth i r [])).
  { intros i Hi. apply nth_map_combine; [exact Hlen|destruct Hd; lia]. }
  split.
  - split.
    + rewrite length_map, length_combine. destruct Hd, Hr. lia.
    + apply Forall_forall. intros row Hrow. apply in_map_iff in Hrow.
      destruct Hrow as ([ra rb] & <- & Hin). unfold F. cbn [fst snd].
      rewrite length_map, length_combine.
      destruct Hd as [_ Hra], Hr as [_ Hrb]. rewrite Forall_forall in Hra, Hrb.
      pose proof (Hra ra (in_combine_l _ _ _ _ Hin)).
      pose proof (Hrb rb (in_combine_r _ _ _ _ Hin)). lia.
  - intros i j Hi Hj. unfold cell. rewrite (Hcell i Hi). unfold F. cbn [fst snd].
    pose proof (shape_row disc Nx Ny i Hd Hi) as H1.
    pose proof (shape_row r Nx Ny i Hr Hi) as H2.
    rewrite (nth_map_combine G _ _ j 0 0 0) by lia. reflexivity.
Qed.

(** [np.roll] along both axes. *)
Lemma roll2_cells (g : grid) (Nx Ny sx sy : Z) :
  shape g Nx Ny ->
  shape (roll2 sx sy g) Nx Ny /\
  forall i j, Z.of_nat i < Nx -> Z.of_nat j < Ny ->
    cell (roll2 sx sy g) i j
    = cell g (Z.to_nat ((Z.of_nat i - sx) mod Nx)) (Z.to_nat ((Z.of_nat j - sy) mod Ny)).
Proof.
  intros Hs. pose proof Hs as [Hlen Hrows]. unfold roll2. split.
  - split; [now rewrite length_map, length_roll|].
    apply Forall_forall. intros row Hrow. apply in_map_iff in Hrow.
    destruct Hrow as (row0 & <- & Hin). rewrite length_roll.
    unfold roll in Hin. apply in_map_iff in Hin. destruct Hin as (k & <- & Hk).
    apply in_seq in Hk.
    apply (shape_row g Nx Ny _ Hs).
    pose proof (Z.mod_pos_bound (Z.of_nat k - sx) (Z.of_nat (length g)) ltac:(lia)). lia.
  - intros i j Hi Hj. unfold cell.
    rewrite (nth_indep _ [] (roll 0 sy [])) by (rewrite length_map, length_roll; lia).
    rewrite (map_nth (roll 0 sy)).
    rewrite (nth_roll [] sx g i) by lia. rewrite Hlen.
    set (i' := Z.to_nat ((Z.of_nat i - sx) mod Nx)).
    assert (Hi' : Z.of_nat i' < Nx).
    { unfold i'. pose proof (Z.mod_pos_bound (Z.of_nat i - sx) Nx ltac:(lia)). lia. }
    pose proof (shape_row g Nx Ny i' Hs Hi') as Hrow.
    rewrite nth_roll by lia. now rewrite Hrow.
Qed.

(** The cells of a disc: the offsets from the centre are taken modulo the
    grid size. *)
Lemma makeDisc_cells (Nx Ny cx cy radius : Z) :
  1 <= effective_centre Nx cx < Nx -> 1 <= effective_centre Ny cy < Ny ->
  exists g, makeDisc Nx Ny cx cy radius = Ok g /\ shape g Nx Ny /\
    forall px py, 1 <= px <= Nx -> 1 <= py <= Ny ->
      at1 g px py =
      if within_radius
           (wrap_offset Nx (px - effective_centre Nx cx)
              * wrap_offset Nx (px - effective_centre Nx cx)
            + wrap_offset Ny (py - effective_centre Ny cy)
              * wrap_offset Ny (py - effective_centre Ny cy)) radius
      then 1 else 0.
Proof.
  intros Hcx Hcy. unfold makeDisc. cbv zeta.
  fold (effective_centre Nx cx). fold (effective_centre Ny cy).
  set (ex := effective_centre Nx cx) in *. set (ey := effective_centre Ny cy) in *.
  replace (negb ((0 <=? ex) && (ex <? Nx) && ((0 <=? ey) && (ey <? Ny)))) with false.
  2:{ symmetry. apply negb_false_iff. rewrite !andb_true_iff, !Z.leb_le, !Z.ltb_lt. lia. }
  destruct (np_zeros_ok Nx Ny) as (disc & E0 & Hs0 & Hz0); [lia|lia|].
  rewrite E0. cbn [bind].
  destruct (makePixelMap_single Nx Ny 0 0 [AStr "Shift"; AInts [0; 0]])
    as (r & Er & Hsr & Hr); [lia|lia|now right|].
  rewrite Er. cbn [bind].
  destruct (mask_assign_cells disc r Nx Ny radius 1 Hs0 Hsr) as (m & Em & Hsm & Hm).
  rewrite Em. cbn [bind].
  destruct (roll2_cells m Nx Ny (ex - ceil_half Nx) (ey - ceil_half Ny) Hsm) as [Hsg Hg].
  eexists; split; [reflexivity|]. split; [exact Hsg|].
  intros px py Hpx Hpy. unfold at1.
  replace ((1 <=? px) && (1 <=? py)) with true
    by (symmetry; rewrite andb_true_iff, !Z.leb_le; lia).
  rewrite Hg by lia.
  set (i' := Z.to_nat ((Z.of_nat (Z.to_nat (px - 1)) - (ex - ceil_half Nx)) mod Nx)).
  set (j' := Z.to_nat ((Z.of_nat (Z.to_nat (py - 1)) - (ey - ceil_half Ny)) mod Ny)).
  assert (Hi' : 0 <= (px - ex + (ceil_half Nx - 1)) mod Nx < Nx)
    by (apply Z.mod_pos_bound; lia).
  assert (Hj' : 0 <= (py - ey + (ceil_half Ny - 1)) mod Ny < Ny)
    by (apply Z.mod_pos_bound; lia).
  assert (Ei : Z.of_nat i' = (px - ex + (ceil_half Nx - 1)) mod Nx).
  { unfold i'. rewrite (Z2Nat.id (px - 1)) by lia.
    replace (px - 1 - (ex - ceil_half Nx)) with (px - ex + (ceil_half Nx - 1)) by lia.
    apply Z2Nat.id. lia. }
  assert (Ej : Z.of_nat j' = (py - ey + (ceil_half Ny - 1)) mod Ny).
  { unfold j'. rewrite (Z2Nat.id (py - 1)) by lia.
    replace (py - 1 - (ey - ceil_half Ny)) with (py - ey + (ceil_half Ny - 1)) by lia.
    apply Z2Nat.id. lia. }
  rewrite Hm by lia. rewrite Hr by lia.
  replace (cell disc i' j') with 0.
  2:{ symmetry. specialize (Hz0 (Z.of_nat i' + 1) (Z.of_nat j' + 1)). unfold at1 in Hz0.
      replace ((1 <=? Z.of_nat i' + 1) && (1 <=? Z.of_nat j' + 1)) with true in Hz0
        by (symmetry; rewrite andb_true_iff, !Z.leb_le; lia).
      replace (Z.to_nat (Z.of_nat i' + 1 - 1)) with i' in Hz0 by lia.
      replace (Z.to_nat (Z.of_nat j' + 1 - 1)) with j' in Hz0 by lia. exact Hz0. }
  destruct (createPixelDim_single_entries Nx 0 i' ltac:(lia) ltac:(lia)) as [_ ->].
  destruct (createPixelDim_single_entries Ny 0 j' ltac:(lia) ltac:(lia)) as [_ ->].
  change (negb (0 =? 1)) with true. rewrite !andb_true_r.
  assert (Hox : (if Nx mod 2 =? 0 then Nx / 2 - 1 else Nx / 2) = ceil_half Nx - 1)
    by (rewrite ceil_half_value; destruct (Nx mod 2 =? 0); lia).
  assert (Hoy : (if Ny mod 2 =? 0 then Ny / 2 - 1 else Ny / 2) = ceil_half Ny - 1)
    by (rewrite ceil_half_value; destruct (Ny mod 2 =? 0); lia).
  rewrite Hox, Hoy, Ei, Ej. unfold wrap_offset. reflexivity.
Qed.

Lemma wrap_offset_spec (N d : Z) :
  1 <= N ->
  exists k, wrap_offset N d = d + k * N /\ 2 * Z.abs (wrap_offset N d) <= N.
Proof.
  intros HN. unfold wrap_offset.
  set (c := ceil_half N - 1).
  assert (Hc : c = N / 2 \/ (c = N / 2 - 1 /\ N mod 2 = 0)).
  { unfold c. rewrite ceil_half_value. destruct (N mod 2 =? 0) eqn:E.
    - apply Z.eqb_eq in E. right. lia.
    - left. lia. }
  pose proof (Z.div_mod N 2 ltac:(lia)) as H2.
  pose proof (Z.mod_pos_bound N 2 ltac:(lia)) as H2b.
  pose proof (Z.div_mod (d + c) N ltac:(lia)) as Hdm.
  pose proof (Z.mod_pos_bound (d + c) N ltac:(lia)) as Hmb.
  exists (- ((d + c) / N)). split; [lia|].
  destruct Hc as [Hc|[Hc Hev]]; lia.
Qed.

(** The wrapped offset is a least one among the offsets to the periodic
    images of the centre. *)
Lemma wrap_offset_least (N d k : Z) :
  1 <= N -> Z.abs (wrap_offset N d) <= Z.abs (d + k * N).
Proof.
  intros HN. destruct (wrap_offset_spec N d HN) as (k0 & E & Hhalf).
  set (w := wrap_offset N d) in *.
  replace (d + k * N) with (w + (k - k0) * N) by lia.
  set (j := k - k0).
  destruct (Z.lt_trichotomy j 0) as [Hj|[Hj|Hj]].
  - assert (j * N <= - N) by nia. lia.
  - rewrite Hj. simpl. rewrite Z.add_0_r. lia.
  - assert (N <= j * N) by nia. lia.
Qed.

(** Where the disc fits between the edges, an offset within the radius is
    not changed by the wrapping, and an offset beyond it stays beyond it. *)
Lemma wrap_offset_fits (N e r d : Z) :
  0 <= r -> 1 <= e - r -> e + r <= N -> 1 - e <= d <= N - e ->
  wrap_offset N d = d \/ (r < Z.abs (wrap_offset N d) /\ r < Z.abs d).
Proof.
  intros Hr Hlo Hhi Hd.
  destruct (wrap_offset_spec N d ltac:(lia)) as (k & E & Hhalf).
  set (w := wrap_offset N d) in *.
  destruct (Z.lt_trichotomy k 0) as [Hk|[Hk|Hk]].
  - right. assert (k * N <= - N) by nia. lia.
  - left. rewrite E, Hk. lia.
  - right. assert (N <= k * N) by nia. lia.
Qed.

Lemma sum_squares_beyond (r a b : Z) : 0 <= r -> r < Z.abs a -> r * r < a * a + b * b.
Proof.
  intros Hr Ha. rewrite <- (Z.abs_square a). pose proof (Z.square_nonneg b). nia.
Qed.

(** X5.  A disc that fits between the edges of the grid is the Euclidean
    disc: a grid point is set exactly when its squared distance from the
    centre is at most [radius * radius]; a zero centre coordinate stands for
    [N / 2 + 1]. *)
Theorem makeDisc_fits (Nx Ny cx cy radius : Z) :
  let ex := effective_centre Nx cx in
  let ey := effective_centre Ny cy in
  0 <= radius ->
  1 <= ex - radius -> ex + radius <= Nx -> ex < Nx ->
  1 <= ey - radius -> ey + radius <= Ny -> ey < Ny ->
  exists g, makeDisc Nx Ny cx cy radius = Ok g /\ shape g Nx Ny /\
    forall px py, 1 <= px <= Nx -> 1 <= py <= Ny ->
      at1 g px py =
      if (px - ex) * (px - ex) + (py - ey) * (py - ey) <=? radius * radius then 1 else 0.
Proof.
  intros ex ey Hr Hx1 Hx2 Hx3 Hy1 Hy2 Hy3.
  destruct (makeDisc_cells Nx Ny cx cy radius) as (g & E & Hs & Hat);
    [fold ex; lia|fold ey; lia|].
  exists g. split; [exact E|]. split; [exact Hs|].
  intros px py Hpx Hpy. rewrite (Hat px py Hpx Hpy). fold ex ey.
  unfold within_radius. replace (0 <=? radius) with true by (symmetry; apply Z.leb_le; lia).
  cbn [andb].
  set (wx := wrap_offset Nx (px - ex)). set (wy := wrap_offset Ny (py - ey)).
  assert (Hbeyond : forall a b a' b', radius < Z.abs a -> radius < Z.abs a' ->
            (a * a + b * b <=? radius * radius) = (a' * a' + b' * b' <=? radius * radius)).
  { intros a b a' b' Ha Ha'.
    pose proof (sum_squares_beyond radius a b Hr Ha).
    pose proof (sum_squares_beyond radius a' b' Hr Ha').
    transitivity false; [|symmetry]; apply Z.leb_gt; lia. }
  destruct (wrap_offset_fits Nx ex radius (px - ex)) as [Ex|[Hwx Hdx]]; try lia;
    fold wx in Ex || fold wx in Hwx.
  - destruct (wrap_offset_fits Ny ey radius (py - ey)) as [Ey|[Hwy Hdy]]; try lia;
      fold wy in Ey || fold wy in Hwy.
    + now rewrite Ex, Ey.
    + rewrite Ex. rewrite (Z.add_comm ((px - ex) * (px - ex))).
      rewrite (Z.add_comm ((px - ex) * (px - ex)) ((py - ey) * (py - ey))).
      now rewrite (Hbeyond wy (px - ex) (py - ey) (px - ex) Hwy Hdy).
  - now rewrite (Hbeyond wx wy (px - ex) (py - ey) Hwx Hdx).
Qed.

Lemma makeDisc_fits_witness :
  (0 <= 1 /\ 1 <= 3 - 1 /\ 3 + 1 <= 5 /\ 3 < 5) /\
  exists g, makeDisc 5 5 3 3 1 = Ok g /\ shape g 5 5 /\
    forall px py, 1 <= px <= 5 -> 1 <= py <= 5 ->
      at1 g px py =
      if (px - 3) * (px - 3) + (py - 3) * (py - 3) <=? 1 * 1 then 1 else 0.
Proof.
  split; [lia|].
  apply (makeDisc_fits 5 5 3 3 1); unfold effective_centre; cbn [Z.eqb]; lia.
Defined.

(** X6.  In general the disc is periodic: part of a disc that passes an
    edge of the grid comes back on the opposite side.  A grid point is set
    exactly when one of its translates by multiples of the grid size lies
    within [radius] of the centre. *)
Theorem makeDisc_wraps (Nx Ny cx cy radius : Z) :
  let ex := effective_centre Nx cx in
  let ey := effective_centre Ny cy in
  0 <= radius -> 1 <= ex < Nx -> 1 <= ey < Ny ->
  exists g, makeDisc Nx Ny cx cy radius = Ok g /\ shape g Nx Ny /\
    forall px py, 1 <= px <= Nx -> 1 <= py <= Ny ->
      (at1 g px py = 1 <->
       exists kx ky,
         (px + kx * Nx - ex) * (px + kx * Nx - ex)
         + (py + ky * Ny - ey) * (py + ky * Ny - ey) <= radius * radius) /\
      (at1 g px py = 1 \/ at1 g px py = 0).
Proof.
  intros ex ey Hr Hx Hy.
  destruct (makeDisc_cells Nx Ny cx cy radius Hx Hy) as (g & E & Hs & Hat).
  exists g. split; [exact E|]. split; [exact Hs|].
  intros px py Hpx Hpy. rewrite (Hat px py Hpx Hpy). fold ex ey.
  unfold within_radius. replace (0 <=? radius) with true by (symmetry; apply Z.leb_le; lia).
  cbn [andb].
  set (wx := wrap_offset Nx (px - ex)). set (wy := wrap_offset Ny (py - ey)).
  split.
  2:{ destruct (_ <=? _); auto. }
  destruct (wx * wx + wy * wy <=? radius * radius) eqn:Hin.
  - apply Z.leb_le in Hin. split; [intros _|reflexivity].
    destruct (wrap_offset_spec Nx (px - ex) ltac:(lia)) as (kx & Ex & _).
    destruct (wrap_offset_spec Ny (py - ey) ltac:(lia)) as (ky & Ey & _).
    exists kx, ky. fold wx in Ex. fold wy in Ey.
    replace (px + kx * Nx - ex) with wx by lia.
    replace (py + ky * Ny - ey) with wy by lia. exact Hin.
  - apply Z.leb_gt in Hin. split; [discriminate|].
    intros (kx & ky & Hk). exfalso.
    pose proof (wrap_offset_least Nx (px - ex) kx ltac:(lia)) as Lx.
    pose proof (wrap_offset_least Ny (py - ey) ky ltac:(lia)) as Ly.
    fold wx in Lx. fold wy in Ly.
    replace (px - ex + kx * Nx) with (px + kx * Nx - ex) in Lx by lia.
    replace (py - ey + ky * Ny) with (py + ky * Ny - ey) in Ly by lia.
    rewrite <- (Z.abs_square wx), <- (Z.abs_square wy) in Hin.
    rewrite <- (Z.abs_square (px + kx * Nx - ex)),
            <- (Z.abs_square (py + ky * Ny - ey)) in Hk.
    pose proof (Z.abs_nonneg wx). pose proof (Z.abs_nonneg wy).
    nia.
Qed.

Lemma makeDisc_wraps_witness :
  (0 <= 2 /\ 1 <= 1 < 5 /\ 1 <= 1 < 5) /\
  exists g, makeDisc 5 5 1 1 2 = Ok g /\ shape g 5 5 /\
    forall px py, 1 <= px <= 5 -> 1 <= py <= 5 ->
      (at1 g px py = 1 <->
       exists kx ky,
         (px + kx * 5 - 1) * (px + kx * 5 - 1)
         + (py + ky * 5 - 1) * (py + ky * 5 - 1) <= 2 * 2) /\
      (at1 g px py = 1 \/ at1 g px py = 0).
Proof.
  split; [lia|].
  apply (makeDisc_wraps 5 5 1 1 2); unfold effective_centre; cbn [Z.eqb]; lia.
Defined.

(** ** makeBall *)

(** The index arithmetic of one axis: after the roll, the centred coordinate
    found at the grid point [p] is the wrapped offset of [p] from the
    centre [e]. *)
Lemma rolled_coordinate (N e p : Z) :
  1 <= N -> 1 <= p <= N ->
  let i' := Z.to_nat ((Z.of_nat (Z.to_nat (p - 1)) - (e - ceil_half N)) mod N) in
  Z.of_nat i' < N /\
  nth i' (createPixelDim N "single" 0) 0 = wrap_offset N (p - e).
Proof.
  intros HN Hp i'.
  assert (Hb : 0 <= (p - e + (ceil_half N - 1)) mod N < N) by (apply Z.mod_pos_bound; lia).
  assert (Ei : Z.of_nat i' = (p - e + (ceil_half N - 1)) mod N).
  { unfold i'. rewrite (Z2Nat.id (p - 1)) by lia.
    replace (p - 1 - (e - ceil_half N)) with (p - e + (ceil_half N - 1)) by lia.
    apply Z2Nat.id. lia. }
  split; [lia|].
  destruct (createPixelDim_single_entries N 0 i' HN ltac:(lia)) as [_ ->].
  change (negb (0 =? 1)) with true. rewrite andb_true_r.
  replace (if N mod 2 =? 0 then N / 2 - 1 else N / 2) with (ceil_half N - 1)
    by (rewrite ceil_half_value; destruct (N mod 2 =? 0); lia).
  rewrite Ei. reflexivity.
Qed.

Lemma np_zeros_value (Nx Ny : Z) :
  0 <= Nx -> 0 <= Ny ->
  np_zeros Nx Ny = Ok (repeat (repeat 0 (Z.to_nat Ny)) (Z.to_nat Nx)).
Proof.
  intros Hx Hy. unfold np_zeros.
  now replace ((Nx <? 0) || (Ny <? 0)) with false
    by (symmetry; apply orb_false_iff; split; apply Z.ltb_ge; lia).
Qed.

Lemma cell_zero (g : grid) (i j : nat) :
  (forall px py, at1 g px py = 0) -> cell g i j = 0.
Proof.
  intros H. specialize (H (Z.of_nat i + 1) (Z.of_nat j + 1)).
  rewrite at1_cell in H by lia.
  replace (Z.to_nat (Z.of_nat i + 1 - 1)) with i in H by lia.
  replace (Z.to_nat (Z.of_nat j + 1 - 1)) with j in H by lia. exact H.
Qed.

Lemma mask_assign3_value (ball r : volume) (radius magnitude : Z) :
  (length ball =? length r)%nat
  && forallb (fun p => same_shape (fst p) (snd p)) (combine ball r) = true ->
  mask_assign3 ball r radius magnitude
  = Ok (map (fun p =>
               map (fun q =>
                      map (fun u => if within_radius (snd u) radius then magnitude else fst u)
                          (combine (fst q) (snd q)))
                   (combine (fst p) (snd p)))
            (combine ball r)).
Proof. unfold mask_assign3. now intros ->. Qed.

(** The cells of a ball: as for the disc the offsets from the centre are
    taken modulo the grid size, and the centre is not restricted. *)
Lemma makeBall_cells (Nx Ny Nz cx cy cz radius : Z) (binary : bool) :
  1 <= Nx -> 1 <= Ny -> 1 <= Nz ->
  exists v,
    makeBall Nx Ny Nz cx cy cz radius binary
      = Ok (if binary then np_bool else np_float32, v) /\
    shape3 v Nx Ny Nz /\
    forall px py pz, 1 <= px <= Nx -> 1 <= py <= Ny -> 1 <= pz <= Nz ->
      at3 v px py pz =
      if within_radius
           (wrap_offset Nx (px - effective_centre Nx cx)
              * wrap_offset Nx (px - effective_centre Nx cx)
            + wrap_offset Ny (py - effective_centre Ny cy)
              * wrap_offset Ny (py - effective_centre Ny cy)
            + wrap_offset Nz (pz - effective_centre Nz cz)
              * wrap_offset Nz (pz - effective_centre Nz cz)) radius
      then 1 else 0.
Proof.
  intros Hx Hy Hz. unfold makeBall. cbv zeta.
  fold (effective_centre Nx cx). fold (effective_centre Ny cy). fold (effective_centre Nz cz).
  set (ex := effective_centre Nx cx). set (ey := effective_centre Ny cy).
  set (ez := effective_centre Nz cz).
  unfold np_zeros3.
  replace ((Nx <? 0) || (Ny <? 0) || (Nz <? 0)) with false
    by (symmetry; rewrite !orb_false_iff, !Z.ltb_ge; lia).
  cbn [bind].
  set (zeros2 := repeat (repeat 0 (Z.to_nat Nz)) (Z.to_nat Ny)).
  set (nx := createPixelDim Nx "single" 0). set (ny := createPixelDim Ny "single" 0).
  set (nz := createPixelDim Nz "single" 0).
  assert (Hlx : Z.of_nat (length nx) = Nx)
    by (apply (createPixelDim_single_entries Nx 0 O); lia).
  assert (Hly : Z.of_nat (length ny) = Ny)
    by (apply (createPixelDim_single_entries Ny 0 O); lia).
  assert (Hlz : Z.of_nat (length nz) = Nz)
    by (apply (createPixelDim_single_entries Nz 0 O); lia).
  set (pm := fun rx : Z => map (fun ry => map (fun rz => rx * rx + ry * ry + rz * rz) nz) ny).
  change (makePixelMap3 Nx Ny Nz [AStr "Shift"; AInts [0; 0; 0]]) with (Ok (map pm nx)).
  cbn [bind].
  (* the slices *)
  destruct (np_zeros_ok Ny Nz) as (z2 & Ez & Hsz & Hz0); [lia|lia|].
  rewrite np_zeros_value in Ez by lia. injection Ez as Ez. fold zeros2 in Ez. subst z2.
  assert (Hpm : forall rx, shape (pm rx) Ny Nz).
  { intros rx. rewrite <- Hly, <- Hlz.
    apply (shape_outer (fun ry rz => rx * rx + ry * ry + rz * rz)). }
  set (G := fun u : Z * Z => if within_radius (snd u) radius then 1 else fst u).
  set (F2 := fun q : list Z * list Z => map G (combine (fst q) (snd q))).
  set (F3 := fun p : grid * grid => map F2 (combine (fst p) (snd p))).
  assert (Hmask : forall rx, mask_assign zeros2 (pm rx) radius 1 = Ok (F3 (zeros2, pm rx))).
  { intros rx. unfold mask_assign.
    now rewrite (same_shape_of_shape zeros2 (pm rx) Ny Nz Hsz (Hpm rx)). }
  assert (Hslice : forall rx, shape (F3 (zeros2, pm rx)) Ny Nz /\
            forall j k, Z.of_nat j < Ny -> Z.of_nat k < Nz ->
              cell (F3 (zeros2, pm rx)) j k
              = if within_radius (rx * rx + nth j ny 0 * nth j ny 0 + nth k nz 0 * nth k nz 0)
                                 radius then 1 else 0).
  { intros rx.
    destruct (mask_assign_cells zeros2 (pm rx) Ny Nz radius 1 Hsz (Hpm rx))
      as (m & Em & Hsm & Hm).
    rewrite Hmask in Em. injection Em as <-. split; [exact Hsm|].
    intros j k Hj Hk. rewrite (Hm j k Hj Hk). rewrite (cell_zero zeros2 j k Hz0).
    unfold pm.
    now rewrite (cell_outer (fun ry rz => rx * rx + ry * ry + rz * rz) ny nz j k) by lia. }
  assert (Hlen : length (repeat zeros2 (Z.to_nat Nx)) = length (map pm nx))
    by (rewrite repeat_length, length_map; lia).
  assert (Hcond : (length (repeat zeros2 (Z.to_nat Nx)) =? length (map pm nx))%nat
                  && forallb (fun p => same_shape (fst p) (snd p))
                             (combine (repeat zeros2 (Z.to_nat Nx)) (map pm nx)) = true).
  { apply andb_true_iff. split; [now apply Nat.eqb_eq|].
    apply forallb_forall. intros [a b] Hin. cbn [fst snd].
    pose proof (in_combine_l _ _ _ _ Hin) as Ha. apply repeat_spec in Ha. subst a.
    pose proof (in_combine_r _ _ _ _ Hin) as Hb. apply in_map_iff in Hb.
    destruct Hb as (rx & <- & _).
    apply (same_shape_of_shape _ _ Ny Nz Hsz (Hpm rx)). }
  set (masked := map F3 (combine (repeat zeros2 (Z.to_nat Nx)) (map pm nx))).
  assert (Hnth : forall i, Z.of_nat i < Nx ->
            nth i masked [] = F3 (zeros2, pm (nth i nx 0))).
  { intros i Hi. unfold masked.
    rewrite (nth_map_combine F3 _ _ i [] [] []) by (try exact Hlen; rewrite repeat_length; lia).
    rewrite nth_repeat_lt by lia.
    rewrite (nth_indep _ [] (pm 0)) by (rewrite length_map; lia).
    now rewrite (map_nth pm). }
  assert (Hlm : Z.of_nat (length masked) = Nx).
  { unfold masked. rewrite length_map, length_combine, repeat_length, length_map. lia. }
  assert (Hlm' : Z.of_nat (@length grid masked) = Nx) by exact Hlm.
  exists (roll3 (ex - ceil_half Nx) (ey - ceil_half Ny) (ez - ceil_half Nz) masked).
  split; [now rewrite (mask_assign3_value _ _ radius 1 Hcond)|]. split.
  - split; [unfold roll3; rewrite length_map, length_roll; exact Hlm|].
    apply Forall_forall. intros g Hg. unfold roll3 in Hg. apply in_map_iff in Hg.
    destruct Hg as (g0 & <- & Hin). unfold roll in Hin. apply in_map_iff in Hin.
    destruct Hin as (k & <- & Hk). apply in_seq in Hk.
    apply roll2_cells.
    set (i' := Z.to_nat ((Z.of_nat k - (ex - ceil_half Nx)) mod Z.of_nat (length masked))).
    assert (Hi' : Z.of_nat i' < Nx).
    { unfold i'. rewrite Hlm.
      pose proof (Z.mod_pos_bound (Z.of_nat k - (ex - ceil_half Nx)) Nx ltac:(lia)). lia. }
    rewrite (Hnth i' Hi'). apply Hslice.
  - intros px py pz Hpx Hpy Hpz. unfold at3.
    replace (1 <=? px) with true by (symmetry; apply Z.leb_le; lia).
    unfold roll3.
    rewrite (nth_indep _ [] (roll2 (ey - ceil_half Ny) (ez - ceil_half Nz) []))
      by (rewrite length_map, length_roll; lia).
    rewrite (map_nth (roll2 (ey - ceil_half Ny) (ez - ceil_half Nz))).
    rewrite (nth_roll [] _ masked) by lia. rewrite Hlm.
    destruct (rolled_coordinate Nx ex px Hx Hpx) as [Hi' Ex].
    destruct (rolled_coordinate Ny ey py Hy Hpy) as [Hj' Ey].
    destruct (rolled_coordinate Nz ez pz Hz Hpz) as [Hk' Ek].
    cbv zeta in Hi', Ex, Hj', Ey, Hk', Ek.
    rewrite (Hnth _ Hi').
    destruct (Hslice (nth (Z.to_nat ((Z.of_nat (Z.to_nat (px - 1)) - (ex - ceil_half Nx))
                                       mod Nx)) nx 0)) as [Hss Hsc].
    rewrite at1_cell by lia.
    destruct (roll2_cells _ Ny Nz (ey - ceil_half Ny) (ez - ceil_half Nz) Hss) as [_ Hroll].
    rewrite Hroll by lia. rewrite Hsc by lia.
    fold nx in Ex. fold ny in Ey. fold nz in Ek. rewrite Ex, Ey, Ek. reflexivity.
Qed.

Lemma abs_le_square (a b : Z) : Z.abs a <= Z.abs b -> a * a <= b * b.
Proof.
  intros H. rewrite <- (Z.abs_square a), <- (Z.abs_square b).
  pose proof (Z.abs_nonneg a). nia.
Qed.

Lemma square_le_radius (r a s : Z) : 0 <= r -> 0 <= s -> a * a + s <= r * r -> Z.abs a <= r.
Proof.
  intros Hr Hs H. rewrite <- (Z.abs_square a) in H. pose proof (Z.abs_nonneg a). nia.
Qed.

(** X7.  [makeBall] does not restrict the centre: for every centre the ball
    is periodic in the grid.  A grid point is set exactly when one of its
    translates by multiples of the grid size lies within [radius] of the
    centre (a zero centre coordinate stands for [N / 2 + 1]); [binary] chooses
    the element type and nothing else. *)
Theorem makeBall_wraps (Nx Ny Nz cx cy cz radius : Z) (binary : bool) :
  let ex := effective_centre Nx cx in
  let ey := effective_centre Ny cy in
  let ez := effective_centre Nz cz in
  1 <= Nx -> 1 <= Ny -> 1 <= Nz -> 0 <= radius ->
  exists v,
    makeBall Nx Ny Nz cx cy cz radius binary
      = Ok (if binary then np_bool else np_float32, v) /\
    shape3 v Nx Ny Nz /\
    forall px py pz, 1 <= px <= Nx -> 1 <= py <= Ny -> 1 <= pz <= Nz ->
      (at3 v px py pz = 1 <->
       exists kx ky kz,
         (px + kx * Nx - ex) * (px + kx * Nx - ex)
         + (py + ky * Ny - ey) * (py + ky * Ny - ey)
         + (pz + kz * Nz - ez) * (pz + kz * Nz - ez) <= radius * radius) /\
      (at3 v px py pz = 1 \/ at3 v px py pz = 0).
Proof.
  intros ex ey ez Hx Hy Hz Hr.
  destruct (makeBall_cells Nx Ny Nz cx cy cz radius binary Hx Hy Hz) as (v & E & Hs & Hat).
  exists v. split; [exact E|]. split; [exact Hs|].
  intros px py pz Hpx Hpy Hpz. rewrite (Hat px py pz Hpx Hpy Hpz). fold ex ey ez.
  unfold within_radius. replace (0 <=? radius) with true by (symmetry; apply Z.leb_le; lia).
  cbn [andb].
  set (wx := wrap_offset Nx (px - ex)). set (wy := wrap_offset Ny (py - ey)).
  set (wz := wrap_offset Nz (pz - ez)).
  split.
  2:{ destruct (_ <=? _); auto. }
  destruct (wx * wx + wy * wy + wz * wz <=? radius * radius) eqn:Hin.
  - apply Z.leb_le in Hin. split; [intros _|reflexivity].
    destruct (wrap_offset_spec Nx (px - ex) Hx) as (kx & Ex & _).
    destruct (wrap_offset_spec Ny (py - ey) Hy) as (ky & Ey & _).
    destruct (wrap_offset_spec Nz (pz - ez) Hz) as (kz & Ez & _).
    exists kx, ky, kz. fold wx in Ex. fold wy in Ey. fold wz in Ez.
    replace (px + kx * Nx - ex) with wx by lia.
    replace (py + ky * Ny - ey) with wy by lia.
    replace (pz + kz * Nz - ez) with wz by lia. exact Hin.
  - apply Z.leb_gt in Hin. split; [discriminate|].
    intros (kx & ky & kz & Hk). exfalso.
    pose proof (abs_le_square _ _ (wrap_offset_least Nx (px - ex) kx Hx)) as Lx.
    pose proof (abs_le_square _ _ (wrap_offset_least Ny (py - ey) ky Hy)) as Ly.
    pose proof (abs_le_square _ _ (wrap_offset_least Nz (pz - ez) kz Hz)) as Lz.
    fold wx in Lx. fold wy in Ly. fold wz in Lz.
    replace (px - ex + kx * Nx) with (px + kx * Nx - ex) in Lx by lia.
    replace (py - ey + ky * Ny) with (py + ky * Ny - ey) in Ly by lia.
    replace (pz - ez + kz * Nz) with (pz + kz * Nz - ez) in Lz by lia.
    lia.
Qed.

Lemma makeBall_wraps_witness :
  (1 <= 3 /\ 1 <= 3 /\ 1 <= 3 /\ 0 <= 1) /\
  exists v,
    makeBall 3 3 3 4 2 2 1 true = Ok (np_bool, v) /\
    shape3 v 3 3 3 /\
    forall px py pz, 1 <= px <= 3 -> 1 <= py <= 3 -> 1 <= pz <= 3 ->
      (at3 v px py pz = 1 <->
       exists kx ky kz,
         (px + kx * 3 - 4) * (px + kx * 3 - 4)
         + (py + ky * 3 - 2) * (py + ky * 3 - 2)
         + (pz + kz * 3 - 2) * (pz + kz * 3 - 2) <= 1 * 1) /\
      (at3 v px py pz = 1 \/ at3 v px py pz = 0).
Proof.
  split; [lia|].
  apply (makeBall_wraps 3 3 3 4 2 2 1 true); lia.
Defined.

(** X8.  A ball that fits between the faces of the grid is the Euclidean
    ball: a grid point is set exactly when its squared distance from the
    centre is at most [radius * radius]. *)
Theorem makeBall_fits (Nx Ny Nz cx cy cz radius : Z) (binary : bool) :
  let ex := effective_centre Nx cx in
  let ey := effective_centre Ny cy in
  let ez := effective_centre Nz cz in
  0 <= radius ->
  1 <= ex - radius -> ex + radius <= Nx ->
  1 <= ey - radius -> ey + radius <= Ny ->
  1 <= ez - radius -> ez + radius <= Nz ->
  exists v,
    makeBall Nx Ny Nz cx cy cz radius binary
      = Ok (if binary then np_bool else np_float32, v) /\
    shape3 v Nx Ny Nz /\
    forall px py pz, 1 <= px <= Nx -> 1 <= py <= Ny -> 1 <= pz <= Nz ->
      at3 v px py pz =
      if (px - ex) * (px - ex) + (py - ey) * (py - ey) + (pz - ez) * (pz - ez)
         <=? radius * radius then 1 else 0.
Proof.
  intros ex ey ez Hr Hx1 Hx2 Hy1 Hy2 Hz1 Hz2.
  destruct (makeBall_cells Nx Ny Nz cx cy cz radius binary) as (v & E & Hs & Hat);
    [lia|lia|lia|].
  exists v. split; [exact E|]. split; [exact Hs|].
  intros px py pz Hpx Hpy Hpz. rewrite (Hat px py pz Hpx Hpy Hpz). fold ex ey ez.
  unfold within_radius. replace (0 <=? radius) with true by (symmetry; apply Z.leb_le; lia).
  cbn [andb].
  set (wx := wrap_offset Nx (px - ex)). set (wy := wrap_offset Ny (py - ey)).
  set (wz := wrap_offset Nz (pz - ez)).
  pose proof (wrap_offset_least Nx (px - ex) 0 ltac:(lia)) as Lx.
  pose proof (wrap_offset_least Ny (py - ey) 0 ltac:(lia)) as Ly.
  pose proof (wrap_offset_least Nz (pz - ez) 0 ltac:(lia)) as Lz.
  fold wx in Lx. fold wy in Ly. fold wz in Lz.
  rewrite Z.mul_0_l, Z.add_0_r in Lx, Ly, Lz.
  apply abs_le_square in Lx, Ly, Lz.
  pose proof (wrap_offset_fits Nx ex radius (px - ex) Hr Hx1 Hx2 ltac:(lia)) as Fx.
  pose proof (wrap_offset_fits Ny ey radius (py - ey) Hr Hy1 Hy2 ltac:(lia)) as Fy.
  pose proof (wrap_offset_fits Nz ez radius (pz - ez) Hr Hz1 Hz2 ltac:(lia)) as Fz.
  fold wx in Fx. fold wy in Fy. fold wz in Fz.
  pose proof (Z.square_nonneg wx). pose proof (Z.square_nonneg wy).
  pose proof (Z.square_nonneg wz).
  destruct (wx * wx + wy * wy + wz * wz <=? radius * radius) eqn:Hin.
  - apply Z.leb_le in Hin.
    assert (Z.abs wx <= radius) by (apply (square_le_radius radius wx (wy * wy + wz * wz)); lia).
    assert (Z.abs wy <= radius) by (apply (square_le_radius radius wy (wx * wx + wz * wz)); lia).
    assert (Z.abs wz <= radius) by (apply (square_le_radius radius wz (wx * wx + wy * wy)); lia).
    destruct Fx as [Fx|Fx]; [|lia]. destruct Fy as [Fy|Fy]; [|lia].
    destruct Fz as [Fz|Fz]; [|lia].
    rewrite <- Fx, <- Fy, <- Fz.
    now replace (_ <=? _) with true by (symmetry; apply Z.leb_le; lia).
  - apply Z.leb_gt in Hin.
    now replace (_ <=? _) with false by (symmetry; apply Z.leb_gt; lia).
Qed.

Lemma makeBall_fits_witness :
  (0 <= 1 /\ 1 <= 2 - 1 /\ 2 + 1 <= 3) /\
  exists v,
    makeBall 3 3 3 2 2 2 1 false = Ok (np_float32, v) /\
    shape3 v 3 3 3 /\
    forall px py pz, 1 <= px <= 3 -> 1 <= py <= 3 -> 1 <= pz <= 3 ->
      at3 v px py pz =
      if (px - 2) * (px - 2) + (py - 2) * (py - 2) + (pz - 2) * (pz - 2)
         <=? 1 * 1 then 1 else 0.
Proof.
  split; [lia|].
  apply (makeBall_fits 3 3 3 2 2 2 1 false); unfold effective_centre; cbn [Z.eqb]; lia.
Defined.

(** ** makeCircle: the distance of the set cells from the centre *)

Section MidpointCircleRing.

Variable in_arc : Z -> Z -> bool.
Variables Nx Ny cx cy r : Z.
Hypothesis r_nonneg : 0 <= r.

(** The rule of the [while] loop with the decision variable in the
    invariant. *)
Lemma circle_loop_rule_d (P : Z -> Z -> Z -> grid -> Prop) :
  (forall x y d g, P x y d g -> x < y - 1 ->
     let '(x', y', d') := midpoint_step x y d in
     exists g', plot_all in_arc Nx Ny cx cy (octant_points cx cy x' y') g = Ok g' /\
                P x' y' d' g') ->
  forall n x y d g,
    P x y d g -> y - 1 - x <= Z.of_nat n ->
    exists x' y' d' g',
      circle_loop in_arc Nx Ny cx cy n x y d g = Ok (x', y', d', g') /\
      P x' y' d' g' /\ y' - 1 <= x'.
Proof.
  intros Hbody. induction n as [|n IH]; intros x y d g HP Hn; cbn [circle_loop].
  - exists x, y, d, g. repeat split; auto. lia.
  - destruct (x <? y - 1) eqn:Hc.
    + apply Z.ltb_lt in Hc.
      specialize (Hbody x y d g HP Hc).
      pose proof (midpoint_step_measure x y d) as Hm.
      destruct (midpoint_step x y d) as [[x1 y1] d1].
      destruct Hbody as (g1 & E1 & HP1). rewrite E1. cbn [bind].
      apply IH; [exact HP1|lia].
    + apply Z.ltb_ge in Hc.
      exists x, y, d, g. repeat split; auto.
Qed.

Lemma hits_point (qx qy : Z) (pts : list (Z * Z)) :
  existsb (hits in_arc Nx Ny cx cy qx qy) pts = true -> In (qx, qy) pts.
Proof.
  intros H. apply existsb_exists in H. destruct H as ([px py] & Hin & H).
  unfold hits in H. cbn [fst snd] in H.
  apply andb_true_iff in H. destruct H as [H Hy].
  apply andb_true_iff in H. destruct H as [_ Hx].
  apply Z.eqb_eq in Hx, Hy. now subst.
Qed.

Lemma midpoint_step_decision (x y d : Z) :
  decision r x y d -> x < y - 1 ->
  let '(x', y', d') := midpoint_step x y d in
  decision r x' y' d' /\
  r * r - r <= x' * x' + y' * y' <= r * r + r.
Proof.
  unfold decision, midpoint_step. intros (Hxy & Hyr & Hd & Hb & Hl) Hlt.
  destruct (d <? 0) eqn:E; [apply Z.ltb_lt in E|apply Z.ltb_ge in E];
    repeat split; nia.
Qed.

Lemma plot_all_ring (first : Z) (pts : list (Z * Z)) (g : grid) :
  (forall p, In p pts ->
     r * r - r <= (fst p - cx) * (fst p - cx) + (snd p - cy) * (snd p - cy) <= r * r + r) ->
  shape g Nx Ny -> on_ring cx cy r g -> (in_grid Nx Ny cx first = true -> at1 g cx first = 1) ->
  exists g', plot_all in_arc Nx Ny cx cy pts g = Ok g' /\ shape g' Nx Ny /\ on_ring cx cy r g' /\
             (in_grid Nx Ny cx first = true -> at1 g' cx first = 1).
Proof.
  intros Hpts Hs Hring Hfirst.
  destruct (plot_all_spec in_arc Nx Ny cx cy pts g Hs) as (g' & E & Hs' & Hat).
  exists g'. split; [exact E|]. split; [exact Hs'|]. split.
  - intros px py Hne. rewrite Hat in Hne.
    destruct (existsb (hits in_arc Nx Ny cx cy px py) pts) eqn:Hh.
    + apply hits_point in Hh. apply (Hpts (px, py) Hh).
    + now apply Hring.
  - intros Hin. rewrite Hat. destruct (existsb _ pts); [reflexivity|now apply Hfirst].
Qed.

Lemma octant_points_ring (x y : Z) :
  r * r - r <= x * x + y * y <= r * r + r ->
  forall p, In p (octant_points cx cy x y) ->
    r * r - r <= (fst p - cx) * (fst p - cx) + (snd p - cy) * (snd p - cy) <= r * r + r.
Proof.
  intros H [px py] Hin. cbn [fst snd]. unfold octant_points in Hin.
  simpl in Hin.
  repeat (destruct Hin as [Hin|Hin]; [injection Hin as <- <-; nia|]).
  contradiction.
Qed.

Lemma circle_body_ring (g0 : grid) :
  shape g0 Nx Ny -> (forall px py, at1 g0 px py = 0) ->
  exists g1 g2 x y d g,
    plot_first Nx Ny cx cy r g0 = Ok g1 /\
    plot_all in_arc Nx Ny cx cy (cardinal_points cx cy r) g1 = Ok g2 /\
    circle_loop in_arc Nx Ny cx cy (Z.to_nat (r - 1 - 0)) 0 r (1 - r) g2
      = Ok (x, y, d, g) /\
    shape g Nx Ny /\ on_ring cx cy r g /\
    (in_grid Nx Ny cx (cy - r) = true -> at1 g cx (cy - r) = 1).
Proof.
  intros Hs H0.
  destruct (plot_first_spec Nx Ny cx cy r g0 Hs) as (g1 & E1 & Hs1 & Hat1).
  assert (Hr1 : on_ring cx cy r g1).
  { intros px py Hne. rewrite Hat1, H0 in Hne.
    destruct (in_grid Nx Ny cx (cy - r)); cbn [andb] in Hne; [|congruence].
    destruct (px =? cx) eqn:Ex; cbn [andb] in Hne; [|congruence].
    destruct (py =? cy - r) eqn:Ey; [|congruence].
    apply Z.eqb_eq in Ex, Ey. subst. nia. }
  assert (Hf1 : in_grid Nx Ny cx (cy - r) = true -> at1 g1 cx (cy - r) = 1).
  { intros Hin. rewrite Hat1, Hin, !Z.eqb_refl. reflexivity. }
  destruct (plot_all_ring (cy - r) (cardinal_points cx cy r) g1) as (g2 & E2 & Hs2 & Hr2 & Hf2);
    auto.
  { intros [px py] Hin. cbn [fst snd]. unfold cardinal_points in Hin. simpl in Hin.
    repeat (destruct Hin as [Hin|Hin]; [injection Hin as <- <-; nia|]). contradiction. }
  destruct (Z.eq_dec r 0) as [Hz|Hnz].
  - exists g1, g2, 0, r, (1 - r), g2.
    replace (Z.to_nat (r - 1 - 0)) with O by lia. cbn [circle_loop]. auto 10.
  - destruct (circle_loop_rule_d
                (fun x y d g => shape g Nx Ny /\ on_ring cx cy r g /\ decision r x y d /\
                   (in_grid Nx Ny cx (cy - r) = true -> at1 g cx (cy - r) = 1)))
      with (n := Z.to_nat (r - 1 - 0)) (x := 0) (y := r) (d := 1 - r) (g := g2)
      as (x & y & d & g & E3 & (Hs3 & Hr3 & _ & Hf3) & _).
    + intros x y d g (Hsg & Hrg & Hdec & Hfg) Hlt.
      pose proof (midpoint_step_decision x y d Hdec Hlt) as Hstep.
      destruct (midpoint_step x y d) as [[x' y'] d']. destruct Hstep as [Hdec' Hxy'].
      destruct (plot_all_ring (cy - r) (octant_points cx cy x' y') g
                  (octant_points_ring x' y' Hxy') Hsg Hrg Hfg) as (g' & E & Hs' & Hr' & Hf').
      exists g'. auto.
    + split; [exact Hs2|]. split; [exact Hr2|]. split; [|exact Hf2].
      unfold decision. repeat split; nia.
    + lia.
    + exists g1, g2, x, y, d, g. auto 10.
Qed.

End MidpointCircleRing.

Lemma makeCircle_with_ring (in_arc : Z -> Z -> bool) (Nx Ny cx cy r : Z) :
  0 <= Nx -> 0 <= Ny -> 0 <= r ->
  exists g, makeCircle_with in_arc Nx Ny cx cy r = Ok g /\ shape g Nx Ny /\
    on_ring (effective_centre Nx cx) (effective_centre Ny cy) r g /\
    (in_grid Nx Ny (effective_centre Nx cx) (effective_centre Ny cy - r) = true ->
     at1 g (effective_centre Nx cx) (effective_centre Ny cy - r) = 1).
Proof.
  intros Hx Hy Hr. unfold makeCircle_with.
  destruct (np_zeros_ok Nx Ny Hx Hy) as (g0 & E0 & Hs0 & Hz0). rewrite E0. cbn [bind].
  fold (effective_centre Nx cx). fold (effective_centre Ny cy).
  destruct (circle_body_ring in_arc Nx Ny (effective_centre Nx cx)
              (effective_centre Ny cy) r Hr g0 Hs0 Hz0)
    as (g1 & g2 & x & y & d & g & E1 & E2 & E3 & Hs & Hring & Hfirst).
  rewrite E1. cbn [bind]. rewrite E2. cbn [bind]. rewrite E3. cbn [bind snd].
  exists g. auto.
Qed.

(** X9.  Every set cell of [makeCircle] lies on a thin ring about the ideal
    circle: its squared distance from the centre differs from
    [radius * radius] by at most [radius], for every aperture and every
    position of the centre. *)
Theorem makeCircle_ring (Nx Ny cx cy radius : Z) (arc_angle : option R) (g : grid) :
  0 <= radius ->
  makeCircle Nx Ny cx cy radius arc_angle = Ok g ->
  forall px py, at1 g px py <> 0 ->
    radius * radius - radius
    <= (px - effective_centre Nx cx) * (px - effective_centre Nx cx)
       + (py - effective_centre Ny cy) * (py - effective_centre Ny cy)
    <= radius * radius + radius.
Proof.
  intros Hr E. unfold makeCircle in E.
  destruct (Z_lt_le_dec Nx 0) as [Hx|Hx].
  { rewrite makeCircle_with_raises in E by (left; exact Hx). discriminate. }
  destruct (Z_lt_le_dec Ny 0) as [Hy|Hy].
  { rewrite makeCircle_with_raises in E by (right; exact Hy). discriminate. }
  destruct (makeCircle_with_ring (arc_filter (clamp_arc_angle arc_angle))
              Nx Ny cx cy radius Hx Hy Hr) as (g' & E' & _ & Hring & _).
  rewrite E' in E. injection E as <-. exact Hring.
Qed.

Lemma makeCircle_ring_witness :
  0 <= 3 /\ makeCircle 9 9 5 5 3 None = Ok circle_9_full /\
  at1 circle_9_full 6 8 <> 0 /\
  3 * 3 - 3 <= (6 - effective_centre 9 5) * (6 - effective_centre 9 5)
               + (8 - effective_centre 9 5) * (8 - effective_centre 9 5) <= 3 * 3 + 3.
Proof.
  split; [lia|]. split; [apply makeCircle_9_full|]. split; [discriminate|].
  apply (makeCircle_ring 9 9 5 5 3 None circle_9_full); [lia|apply makeCircle_9_full|discriminate].
Defined.

(** X10.  The centre and the radius of [makeCircle] are not constrained by
    the grid: for every centre, radius and aperture the call returns an array
    of the requested shape, points outside the grid being left out.  The
    first point [(cx, cy - radius)] is set whenever it is inside the grid, and
    the image is blank when the square about the circle misses the grid. *)
Theorem makeCircle_sections (Nx Ny cx cy radius : Z) (arc_angle : option R) :
  let ex := effective_centre Nx cx in
  let ey := effective_centre Ny cy in
  0 <= Nx -> 0 <= Ny -> 0 <= radius ->
  exists g, makeCircle Nx Ny cx cy radius arc_angle = Ok g /\ shape g Nx Ny /\
    (1 <= ex <= Nx -> 1 <= ey - radius <= Ny -> at1 g ex (ey - radius) = 1) /\
    (ex + radius < 1 \/ Nx < ex - radius \/ ey + radius < 1 \/ Ny < ey - radius ->
     forall px py, at1 g px py = 0).
Proof.
  intros ex ey Hx Hy Hr. unfold makeCircle.
  set (f := arc_filter (clamp_arc_angle arc_angle)).
  destruct (makeCircle_with_ring f Nx Ny cx cy radius Hx Hy Hr) as (g & E & Hs & Hring & Hfirst).
  destruct (makeCircle_with_returns f Nx Ny cx cy radius Hx Hy) as (g' & E' & _ & Hf).
  rewrite E in E'. injection E' as <-.
  exists g. split; [exact E|]. split; [exact Hs|]. fold ex ey in Hring, Hfirst, Hf. split.
  - intros Hex Hey. apply Hfirst. apply in_grid_bounds. lia.
  - intros Hmiss px py.
    destruct (Z.eq_dec (at1 g px py) 0) as [H0|Hne]; [exact H0|exfalso].
    destruct (Hf px py Hne) as [Hin _]. apply in_grid_bounds in Hin.
    pose proof (Hring px py Hne) as Hd.
    assert (Z.abs (px - ex) <= radius).
    { pose proof (Z.square_nonneg (py - ey)).
      rewrite <- (Z.abs_square (px - ex)) in Hd. pose proof (Z.abs_nonneg (px - ex)). nia. }
    assert (Z.abs (py - ey) <= radius).
    { pose proof (Z.square_nonneg (px - ex)).
      rewrite <- (Z.abs_square (py - ey)) in Hd. pose proof (Z.abs_nonneg (py - ey)). nia. }
    lia.
Qed.

Lemma makeCircle_sections_witness :
  (0 <= 5 /\ 0 <= 5 /\ 0 <= 2) /\
  exists g, makeCircle 5 5 9 3 2 None = Ok g /\ shape g 5 5 /\
    (1 <= 9 <= 5 -> 1 <= 3 - 2 <= 5 -> at1 g 9 (3 - 2) = 1) /\
    (9 + 2 < 1 \/ 5 < 9 - 2 \/ 3 + 2 < 1 \/ 5 < 3 - 2 ->
     forall px py, at1 g px py = 0).
Proof.
  split; [lia|]. apply (makeCircle_sections 5 5 9 3 2 None); lia.
Defined.

(** ** makeCartCircle *)

Lemma arange_succ (n : Z) : 0 <= n -> arange 0 (n + 1) = (arange 0 n ++ [n])%list.
Proof.
  intros Hn. unfold arange. rewrite !Z.sub_0_r.
  replace (Z.to_nat (n + 1)) with (Z.to_nat n + 1)%nat by lia.
  rewrite seq_app, map_app. cbn [seq map]. f_equal. f_equal. lia.
Qed.

Lemma on_circle (radius t cx cy : R) :
  ((radius * cos t + cx - cx) * (radius * cos t + cx - cx)
   + (radius * sin (- t) + cy - cy) * (radius * sin (- t) + cy - cy)
   = radius * radius)%R.
Proof.
  rewrite sin_neg. pose proof (sin2_cos2 t) as H. unfold Rsqr in H. nra.
Qed.

Lemma makeCartCircle_points (radius : R) (n : Z) (center_pos : option (R * R)) (arc_angle : R) :
  let m := angle_divisor n arc_angle in
  let cx := fst (match center_pos with None => (0%R, 0%R) | Some c => c end) in
  let cy := snd (match center_pos with None => (0%R, 0%R) | Some c => c end) in
  let angle k := (IZR k * arc_angle / IZR m + PI / 2)%R in
  m <> 0 -> 0 <= m ->
  makeCartCircle radius n center_pos arc_angle
  = (map (fun k => Fin (cart_x radius cx (angle k)))
         (if Reqb arc_angle (2 * PI) then arange 0 m else arange 0 (m + 1)),
     map (fun k => Fin (cart_y radius cy (angle k)))
         (if Reqb arc_angle (2 * PI) then arange 0 m else arange 0 (m + 1))).
Proof.
  intros m cx cy angle Hm Hm0. unfold makeCartCircle.
  subst cx cy. destruct (match center_pos with None => _ | Some c => c end) as [cx cy].
  cbn [fst snd].
  assert (Hn : (if negb (Reqb arc_angle (2 * PI)) then n - 1 else n) = m).
  { unfold m, angle_divisor. now destruct (Reqb arc_angle (2 * PI)). }
  rewrite Hn.
  assert (Hang : forall k, np_add (np_divide (IZR k * arc_angle) m) (PI / 2) = Fin (angle k)).
  { intros k. unfold np_divide. apply Z.eqb_neq in Hm. now rewrite Hm. }
  assert (Hmap : forall l, map (fun k => np_add (np_divide (IZR k * arc_angle) m) (PI / 2)) l
                           = map (fun k => Fin (angle k)) l)
    by (intros l; apply map_ext; exact Hang).
  rewrite Hmap.
  destruct (Reqb arc_angle (2 * PI)).
  - rewrite arange_succ by lia. rewrite map_app. cbn [map]. rewrite removelast_last.
    rewrite !map_map. reflexivity.
  - rewrite !map_map. reflexivity.
Qed.

(** X11.  On the full circle ([arc_angle = 2 pi]) [makeCartCircle] returns
    exactly [num_points] points, the repeated end point being dropped; the
    point of index [k] is the point of the circle at the angle
    [k * 2 pi / num_points + pi / 2], at the distance [radius] from the
    centre. *)
Theorem makeCartCircle_full_circle (radius : R) (n : Z) (cx cy : R) (k : nat) :
  1 <= n -> Z.of_nat k < n ->
  let circle := makeCartCircle radius n (Some (cx, cy)) (2 * PI) in
  let t := (IZR (Z.of_nat k) * (2 * PI) / IZR n + PI / 2)%R in
  Z.of_nat (length (fst circle)) = n /\ Z.of_nat (length (snd circle)) = n /\
  nth k (fst circle) NaN = Fin (cart_x radius cx t) /\
  nth k (snd circle) NaN = Fin (cart_y radius cy t) /\
  ((cart_x radius cx t - cx) * (cart_x radius cx t - cx)
   + (cart_y radius cy t - cy) * (cart_y radius cy t - cy) = radius * radius)%R.
Proof.
  intros Hn Hk circle t. subst circle.
  assert (Hm : angle_divisor n (2 * PI) = n)
    by (unfold angle_divisor; now rewrite Reqb_true).
  rewrite makeCartCircle_points by (rewrite Hm; lia).
  rewrite Hm, Reqb_true. cbn [fst snd].
  rewrite !length_map, arange_length.
  split; [lia|]. split; [lia|].
  set (fx := fun k0 : Z => Fin (cart_x radius cx (IZR k0 * (2 * PI) / IZR n + PI / 2))).
  set (fy := fun k0 : Z => Fin (cart_y radius cy (IZR k0 * (2 * PI) / IZR n + PI / 2))).
  split; [|split].
  - rewrite (nth_indep _ NaN (fx 0)) by (rewrite length_map, arange_length; lia).
    rewrite (map_nth fx). rewrite nth_arange by lia. reflexivity.
  - rewrite (nth_indep _ NaN (fy 0)) by (rewrite length_map, arange_length; lia).
    rewrite (map_nth fy). rewrite nth_arange by lia. reflexivity.
  - apply on_circle.
Qed.

Lemma makeCartCircle_full_circle_witness :
  (1 <= 4 /\ Z.of_nat 1 < 4) /\
  Z.of_nat (length (fst (makeCartCircle 1 4 (Some (0%R, 0%R)) (2 * PI)))) = 4.
Proof.
  split; [simpl; lia|].
  apply (makeCartCircle_full_circle 1 4 0 0 1); simpl; lia.
Defined.

(** X12.  On a partial arc ([arc_angle <> 2 pi]) with [num_points >= 2]
    [makeCartCircle] returns exactly [num_points] points, both end points
    included: the point of index [k] is at the angle
    [k * arc_angle / (num_points - 1) + pi / 2], so that the first point is
    [(cx, cy - radius)] and the last one is at [arc_angle + pi / 2]. *)
Theorem makeCartCircle_arc (radius : R) (n : Z) (cx cy arc_angle : R) (k : nat) :
  arc_angle <> (2 * PI)%R -> 2 <= n -> Z.of_nat k < n ->
  let circle := makeCartCircle radius n (Some (cx, cy)) arc_angle in
  let t := (IZR (Z.of_nat k) * arc_angle / IZR (n - 1) + PI / 2)%R in
  Z.of_nat (length (fst circle)) = n /\ Z.of_nat (length (snd circle)) = n /\
  nth k (fst circle) NaN = Fin (cart_x radius cx t) /\
  nth k (snd circle) NaN = Fin (cart_y radius cy t) /\
  nth 0 (fst circle) NaN = Fin cx /\
  nth 0 (snd circle) NaN = Fin (cy - radius) /\
  nth (Z.to_nat (n - 1)) (fst circle) NaN = Fin (cart_x radius cx (arc_angle + PI / 2)) /\
  nth (Z.to_nat (n - 1)) (snd circle) NaN = Fin (cart_y radius cy (arc_angle + PI / 2)).
Proof.
  intros Harc Hn Hk circle t. subst circle.
  assert (Hm : angle_divisor n arc_angle = n - 1)
    by (unfold angle_divisor; now rewrite Reqb_false).
  rewrite makeCartCircle_points by (rewrite Hm; lia).
  rewrite Hm, Reqb_false by exact Harc. cbn [fst snd].
  replace (n - 1 + 1) with n by lia.
  rewrite !length_map, arange_length.
  split; [lia|]. split; [lia|].
  set (fx := fun k0 : Z => Fin (cart_x radius cx (IZR k0 * arc_angle / IZR (n - 1) + PI / 2))).
  set (fy := fun k0 : Z => Fin (cart_y radius cy (IZR k0 * arc_angle / IZR (n - 1) + PI / 2))).
  assert (Hx : forall i, Z.of_nat i < n -> nth i (map fx (arange 0 n)) NaN = fx (Z.of_nat i)).
  { intros i Hi. rewrite (nth_indep _ NaN (fx 0)) by (rewrite length_map, arange_length; lia).
    rewrite (map_nth fx). now rewrite nth_arange by lia. }
  assert (Hy : forall i, Z.of_nat i < n -> nth i (map fy (arange 0 n)) NaN = fy (Z.of_nat i)).
  { intros i Hi. rewrite (nth_indep _ NaN (fy 0)) by (rewrite length_map, arange_length; lia).
    rewrite (map_nth fy). now rewrite nth_arange by lia. }
  assert (Hn1 : (IZR (n - 1) <> 0)%R) by (apply not_0_IZR; lia).
  rewrite !Hx, !Hy by lia. repeat split.
  - unfold fx, cart_x. cbn [Z.of_nat]. f_equal.
    replace (0 * arc_angle / IZR (n - 1) + PI / 2)%R with (PI / 2)%R by (field; exact Hn1).
    rewrite cos_PI2. lra.
  - unfold fy, cart_y. cbn [Z.of_nat]. f_equal.
    replace (0 * arc_angle / IZR (n - 1) + PI / 2)%R with (PI / 2)%R by (field; exact Hn1).
    rewrite sin_neg, sin_PI2. lra.
  - unfold fx. rewrite Z2Nat.id by lia. f_equal. f_equal. field. exact Hn1.
  - unfold fy. rewrite Z2Nat.id by lia. f_equal. f_equal. field. exact Hn1.
Qed.

Lemma makeCartCircle_arc_witness :
  (PI <> (2 * PI)%R /\ 2 <= 3 /\ Z.of_nat 1 < 3) /\
  Z.of_nat (length (fst (makeCartCircle 1 3 (Some (0%R, 0%R)) PI))) = 3.
Proof.
  assert (H : PI <> (2 * PI)%R) by (pose proof PI_RGT_0; lra).
  split; [split; [exact H|simpl; lia]|].
  apply (makeCartCircle_arc 1 3 0 0 PI 1 H); simpl; lia.
Defined.

(** ** makeLine, two-point mode: the three branches *)

Lemma py_index_wrap (n : nat) (i : Z) :
  - Z.of_nat n <= i < Z.of_nat n -> py_index n i = py_index n (i mod Z.of_nat n).
Proof.
  intros H. unfold py_index.
  destruct (Z_lt_le_dec i 0) as [Hneg|Hpos].
  - replace ((0 <=? i) && (i <? Z.of_nat n)) with false
      by (symmetry; apply andb_false_iff; left; apply Z.leb_gt; lia).
    replace ((- Z.of_nat n <=? i) && (i <? 0)) with true
      by (symmetry; rewrite andb_true_iff, Z.leb_le, Z.ltb_lt; lia).
    assert (Hm : i mod Z.of_nat n = i + Z.of_nat n).
    { symmetry. apply (Z.mod_unique _ _ (-1)); lia. }
    rewrite Hm.
    replace ((0 <=? i + Z.of_nat n) && (i + Z.of_nat n <? Z.of_nat n)) with true
      by (symmetry; rewrite andb_true_iff, Z.leb_le, Z.ltb_lt; lia).
    reflexivity.
  - rewrite Z.mod_small by lia. reflexivity.
Qed.

(** A write through indices that numpy accepts changes one cell: the one
    the indices name once negative ones are counted from the end. *)
Lemma grid_set_wrap (g : grid) (Nx Ny i j v : Z) :
  shape g Nx Ny -> - Nx <= i < Nx -> - Ny <= j < Ny ->
  exists g', grid_set g i j v = Ok g' /\ shape g' Nx Ny /\
    forall qx qy, at1 g' qx qy
                  = if (qx =? i mod Nx + 1) && (qy =? j mod Ny + 1) then v else at1 g qx qy.
Proof.
  intros Hs Hi Hj.
  assert (HNx : 0 < Nx) by lia. assert (HNy : 0 < Ny) by lia.
  pose proof (Z.mod_pos_bound i Nx HNx) as Hmi.
  pose proof (Z.mod_pos_bound j Ny HNy) as Hmj.
  destruct (grid_set_in_grid g Nx Ny (i mod Nx + 1) (j mod Ny + 1) v Hs)
    as (g' & E & Hs' & Hat); [lia|lia|].
  exists g'. split; [|split; [exact Hs'|exact Hat]].
  rewrite <- E. destruct Hs as [Hlen Hrows]. unfold grid_set.
  replace (i mod Nx + 1 - 1) with (i mod Z.of_nat (length g)) by (rewrite Hlen; lia).
  rewrite <- py_index_wrap by lia.
  destruct (py_index_valid (length g) i) as (i' & Ei & Hi'); [lia|]. rewrite Ei.
  assert (Hrow : Z.of_nat (length (nth i' g [])) = Ny).
  { rewrite Forall_forall in Hrows. apply Hrows. now apply nth_In. }
  replace (j mod Ny + 1 - 1) with (j mod Z.of_nat (length (nth i' g [])))
    by (rewrite Hrow; lia).
  rewrite <- py_index_wrap by lia. reflexivity.
Qed.

Lemma grid_set_at (g : grid) (Nx Ny i j v : Z) :
  shape g Nx Ny -> 0 <= i < Nx -> 0 <= j < Ny ->
  exists g', grid_set g i j v = Ok g' /\ shape g' Nx Ny /\
    forall qx qy, at1 g' qx qy
                  = if (qx =? i + 1) && (qy =? j + 1) then v else at1 g qx qy.
Proof.
  intros Hs Hi Hj.
  destruct (grid_set_wrap g Nx Ny i j v Hs) as (g' & E & Hs' & Hat); [lia|lia|].
  rewrite !Z.mod_small in Hat by lia. eauto.
Qed.

(** Case analysis on the integer comparisons of a goal. *)
Ltac split_tests :=
  repeat match goal with
         | |- context [?a =? ?b] => destruct (Z.eqb_spec a b)
         | |- context [?a <? ?b] => destruct (Z.ltb_spec a b)
         | |- context [?a <=? ?b] => destruct (Z.leb_spec a b)
         end;
  cbn [andb orb negb]; try reflexivity; try lia.

(** The loop of the branch [m = +-Inf]: it sets the cells above the current
    one up to the end row, in the column of the start point. *)
Lemma vertical_loop_segment (Nx Ny : Z) (n : nat) (y_end x y : Z) (line : grid) :
  shape line Nx Ny -> 0 <= x < Nx -> 0 <= y -> y_end < Ny ->
  Z.of_nat n = y_end - y ->
  exists g, vertical_loop n y_end x y line = Ok g /\ shape g Nx Ny /\
    forall px py, at1 g px py
                  = if (px =? x + 1) && (y + 1 <? py) && (py <=? y_end + 1) then 1
                    else at1 line px py.
Proof.
  revert y line; induction n as [|n IH]; intros y line Hs Hx Hy Hend Hn;
    cbn [vertical_loop].
  - replace (y <? y_end) with false by (symmetry; apply Z.ltb_ge; lia).
    exists line. split; [reflexivity|]. split; [exact Hs|].
    intros px py. split_tests.
  - replace (y <? y_end) with true by (symmetry; apply Z.ltb_lt; lia).
    destruct (grid_set_at line Nx Ny x (y + 1) 1 Hs) as (line1 & E1 & Hs1 & Hat1);
      [lia|lia|].
    rewrite E1. cbn [bind].
    destruct (IH (y + 1) line1 Hs1 Hx ltac:(lia) Hend ltac:(lia)) as (g & Eg & Hsg & Hat).
    exists g. split; [exact Eg|]. split; [exact Hsg|].
    intros px py. rewrite Hat, Hat1. split_tests.
Qed.

Lemma makeLine_two_points_accepts (Nx Ny : Z) (a b : Z * Z)
      (angle : option R) (length : option Z) :
  inside Nx Ny a -> inside Nx Ny b -> a <> b ->
  makeLine Nx Ny a (Some b) angle length
  = line_a_to_b Nx Ny (fst a - 1, snd a - 1) (fst b - 1, snd b - 1).
Proof.
  destruct a as [ax ay], b as [bx by_]. unfold inside. cbn [fst snd].
  intros Ha Hb Hab. unfold makeLine. cbv zeta. cbn [fst snd].
  replace ((ax - 1 =? bx - 1) && (ay - 1 =? by_ - 1)) with false.
  2:{ symmetry. apply andb_false_iff.
      destruct (Z.eq_dec ax bx) as [->|Hx]; [right|left]; apply Z.eqb_neq; [|lia].
      intros H. apply Hab. f_equal. lia. }
  match goal with |- (if ?b then _ else _) = _ => replace b with false; [reflexivity|] end.
  symmetry. rewrite !orb_false_iff, !Z.ltb_ge. lia.
Qed.

(** The branch [m = +-Inf] of the section "calculate a line from a to b". *)
Lemma line_a_to_b_vertical (Nx Ny x y1 y2 : Z) :
  1 <= x <= Nx -> 1 <= y1 <= Ny -> 1 <= y2 <= Ny -> y1 <> y2 ->
  exists g, line_a_to_b Nx Ny (x - 1, y1 - 1) (x - 1, y2 - 1) = Ok g /\
    shape g Nx Ny /\
    forall px py, at1 g px py
                  = if (px =? x) && (Z.min y1 y2 <=? py) && (py <=? Z.max y1 y2) then 1
                    else 0.
Proof.
  intros Hx H1 H2 Hne.
  unfold line_a_to_b. cbn [fst snd].
  destruct (np_zeros_ok Nx Ny) as (g0 & E0 & Hs0 & Hz0); [lia|lia|].
  rewrite E0. cbn [bind].
  replace (x - 1 - (x - 1) =? 0) with true by (symmetry; apply Z.eqb_eq; lia).
  destruct (Z.ltb_spec (y1 - 1) (y2 - 1)) as [Hlt|Hge].
  - destruct (grid_set_at g0 Nx Ny (x - 1) (y1 - 1) 1 Hs0) as (g1 & E1 & Hs1 & Hat1);
      [lia|lia|].
    rewrite E1. cbn [bind].
    destruct (vertical_loop_segment Nx Ny (Z.to_nat (y2 - 1 - (y1 - 1))) (y2 - 1) (x - 1)
                (y1 - 1) g1 Hs1) as (g & Eg & Hsg & Hat); [lia|lia|lia|lia|].
    exists g. split; [exact Eg|]. split; [exact Hsg|].
    intros px py. rewrite Hat, Hat1, Hz0. split_tests.
  - destruct (grid_set_at g0 Nx Ny (x - 1) (y2 - 1) 1 Hs0) as (g1 & E1 & Hs1 & Hat1);
      [lia|lia|].
    rewrite E1. cbn [bind].
    destruct (vertical_loop_segment Nx Ny (Z.to_nat (y1 - 1 - (y2 - 1))) (y1 - 1) (x - 1)
                (y2 - 1) g1 Hs1) as (g & Eg & Hsg & Hat); [lia|lia|lia|lia|].
    exists g. split; [exact Eg|]. split; [exact Hsg|].
    intros px py. rewrite Hat, Hat1, Hz0. split_tests.
Qed.

(** X13.  In the two-point mode a segment parallel to the y axis (both end
    points have the same x) is drawn exactly: the set cells are the cells
    with that x whose y lies between those of the two end points, whichever
    of them is given first. *)
Theorem makeLine_vertical (Nx Ny x y1 y2 : Z) (angle : option R) (length : option Z) :
  1 <= x <= Nx -> 1 <= y1 <= Ny -> 1 <= y2 <= Ny -> y1 <> y2 ->
  exists g, makeLine Nx Ny (x, y1) (Some (x, y2)) angle length = Ok g /\
    shape g Nx Ny /\
    forall px py, at1 g px py
                  = if (px =? x) && (Z.min y1 y2 <=? py) && (py <=? Z.max y1 y2) then 1
                    else 0.
Proof.
  intros Hx H1 H2 Hne.
  rewrite makeLine_two_points_accepts
    by (unfold inside; cbn [fst snd]; try lia; intros H; injection H; lia).
  now apply line_a_to_b_vertical.
Qed.

Lemma makeLine_vertical_witness :
  (1 <= 2 <= 3 /\ 1 <= 4 <= 5 /\ 1 <= 2 <= 5 /\ 4 <> 2) /\
  exists g, makeLine 3 5 (2, 4) (Some (2, 2)) None None = Ok g /\ shape g 3 5 /\
    forall px py, at1 g px py
                  = if (px =? 2) && (Z.min 4 2 <=? py) && (py <=? Z.max 4 2) then 1 else 0.
Proof.
  split; [lia|]. apply (makeLine_vertical 3 5 2 4 2 None None); lia.
Defined.

Section SteepLine.

Variables x0 y0 p q : Z.
Hypothesis q_pos : 1 <= q.
Hypothesis p_nonzero : p <> 0.
Hypothesis p_le_q : Z.abs p <= q.

Variables m c : Q.
Hypothesis m_value : (m == inject_Z q / inject_Z p)%Q.
Hypothesis c_value : (c == inject_Z y0 - m * inject_Z x0)%Q.

Lemma steep_entry_scaled (px py : Z) :
  (diff_x_entry m c px py * (inject_Z q * inject_Z q)
   == inject_Z (deviation_from x0 y0 p q px py * deviation_from x0 y0 p q px py))%Q.
Proof.
  unfold diff_x_entry, deviation_from, deviation. cbv zeta.
  rewrite c_value, m_value.
  rewrite !inject_Z_mult, !inject_Z_sub, !inject_Z_mult, !inject_Z_sub.
  assert (Hq : ~ (inject_Z q == 0)%Q).
  { intros H. apply (proj1 (inject_Z_injective q 0)) in H. lia. }
  assert (Hp : ~ (inject_Z p == 0)%Q).
  { intros H. apply (proj1 (inject_Z_injective p 0)) in H. lia. }
  field. split; assumption.
Qed.

Lemma steep_entry_le (px py px' py' : Z) :
  Qle_bool (diff_x_entry m c px py) (diff_x_entry m c px' py') = true ->
  Z.abs (deviation_from x0 y0 p q px py) <= Z.abs (deviation_from x0 y0 p q px' py').
Proof.
  rewrite Qle_bool_iff. intros H.
  apply square_le_abs. rewrite Zle_Qle.
  rewrite <- !steep_entry_scaled.
  apply Qmult_le_compat_r; [exact H|].
  rewrite <- inject_Z_mult. change 0%Q with (inject_Z 0). rewrite <- Zle_Qle. nia.
Qed.

Lemma diff_x_nth_any (poss_x poss_y : list Z) (k : nat) :
  length poss_x = length poss_y -> (k < length poss_x)%nat ->
  nth k (diff_x Q inject_Z Qminus Qmult Qdiv m c poss_x poss_y) 0%Q
  = diff_x_entry m c (nth k poss_x 0) (nth k poss_y 0).
Proof.
  intros Hlen Hk. unfold diff_x.
  set (f := fun p0 : Z * Z => _).
  rewrite (nth_indep _ 0%Q (f (0, 0))) by (rewrite length_map, length_combine; lia).
  rewrite (map_nth f). rewrite combine_nth by exact Hlen. reflexivity.
Qed.

(** One iteration: the next point is one step further along y, at most one
    step away along x, and again within half a cell of the line. *)
Lemma steep_step_any (x y : Z) :
  steep_near p q (deviation_from x0 y0 p q x y) ->
  exists x',
    Qclosest_x m c [x - 1; x + 1; x - 1; x; x + 1] [y; y; y + 1; y + 1; y + 1]
      = Ok (x', y + 1) /\
    steep_near p q (deviation_from x0 y0 p q x' (y + 1)).
Proof.
  intros [Hnear Hdiag]. unfold Qclosest_x, closest_x.
  set (poss_x := [x - 1; x + 1; x - 1; x; x + 1]).
  set (poss_y := [y; y; y + 1; y + 1; y + 1]).
  destruct (closest_least Q Qle_bool Qle_bool_total Qle_bool_trans poss_x poss_y
              (diff_x Q inject_Z Qminus Qmult Qdiv m c poss_x poss_y) 0%Q)
    as (k & Hk & E & Hleast); try reflexivity; [discriminate|].
  rewrite E. clear E.
  assert (Hdev : forall j, (j < 5)%nat ->
            Z.abs (deviation_from x0 y0 p q (nth k poss_x 0) (nth k poss_y 0))
            <= Z.abs (deviation_from x0 y0 p q (nth j poss_x 0) (nth j poss_y 0))).
  { intros j Hj. apply steep_entry_le.
    rewrite <- !diff_x_nth_any by (try reflexivity; simpl in *; lia).
    apply Hleast. simpl. lia. }
  clear Hleast.
  pose proof (Hdev 0%nat ltac:(lia)) as L0.
  pose proof (Hdev 1%nat ltac:(lia)) as L1.
  pose proof (Hdev 2%nat ltac:(lia)) as L2.
  pose proof (Hdev 3%nat ltac:(lia)) as L3.
  pose proof (Hdev 4%nat ltac:(lia)) as L4.
  clear Hdev. simpl in Hk.
  unfold steep_near, deviation_from, deviation in *.
  set (d := (x - x0) * q - (y - y0) * p) in *.
  destruct k as [|[|[|[|[|k]]]]]; [ .. | lia];
    cbn [nth poss_x poss_y] in *;
    replace ((x - 1 - x0) * q - (y - y0) * p) with (d - q) in * by (unfold d; ring);
    replace ((x + 1 - x0) * q - (y - y0) * p) with (d + q) in * by (unfold d; ring);
    replace ((x - 1 - x0) * q - (y + 1 - y0) * p) with (d - q - p) in * by (unfold d; ring);
    replace ((x - x0) * q - (y + 1 - y0) * p) with (d - p) in * by (unfold d; ring);
    replace ((x + 1 - x0) * q - (y + 1 - y0) * p) with (d + q - p) in * by (unfold d; ring).
  - exfalso. lia.
  - exfalso. lia.
  - exists (x - 1). split; [reflexivity|lia].
  - exists x. split; [reflexivity|lia].
  - exists (x + 1). split; [reflexivity|lia].
Qed.

Lemma steep_near_bounds (x y : Z) :
  steep_near p q (deviation_from x0 y0 p q x y) -> y0 <= y <= y0 + q ->
  Z.min x0 (x0 + p) <= x <= Z.max x0 (x0 + p).
Proof.
  unfold steep_near, deviation_from, deviation. intros [H _] Hy.
  split.
  - destruct (Z_lt_le_dec x (Z.min x0 (x0 + p))) as [Hlow|Hok]; [exfalso; nia|exact Hok].
  - destruct (Z_lt_le_dec (Z.max x0 (x0 + p)) x) as [Hhigh|Hok]; [exfalso; nia|exact Hok].
Qed.

Lemma steep_near_first (x : Z) :
  2 * Z.abs (deviation_from x0 y0 p q x y0) <= q -> x = x0.
Proof.
  unfold deviation_from, deviation. intros H. nia.
Qed.

Lemma steep_near_last (x : Z) :
  2 * Z.abs (deviation_from x0 y0 p q x (y0 + q)) <= q -> x = x0 + p.
Proof.
  unfold deviation_from, deviation. intros H.
  replace ((x - x0) * q - (y0 + q - y0) * p) with ((x - x0 - p) * q) in H by ring.
  nia.
Qed.

(** The loop [while y < y_end] of the branch [abs(m) >= 1]: it ends within
    its iteration bound and sets one cell for every y
    after the current one up to the end one, [x_at r] being the x of
    the cell set at y = [r] (0-based). *)
Lemma steep_loop_line (Nx Ny : Z) (n : nat) (x y : Z) (line : grid) :
  shape line Nx Ny ->
  0 <= x0 < Nx -> 0 <= x0 + p < Nx -> 0 <= y0 -> y0 + q < Ny ->
  steep_near p q (deviation_from x0 y0 p q x y) -> y0 <= y ->
  Z.of_nat n = y0 + q - y ->
  exists g x_at,
    steep_loop m c n (y0 + q) x y line = Ok g /\ shape g Nx Ny /\
    (forall r, y < r <= y0 + q ->
       2 * Z.abs (deviation_from x0 y0 p q (x_at r) r) <= q) /\
    forall px py, at1 g px py
                  = if (y + 1 <? py) && (py <=? y0 + q + 1) && (px =? x_at (py - 1) + 1)
                    then 1 else at1 line px py.
Proof.
  intros Hs Hx0 Hx1 Hy0 Hy1. revert x y line Hs.
  induction n as [|n IH]; intros x y line Hs Hnear Hy Hn; cbn [steep_loop].
  - replace (y <? y0 + q) with false by (symmetry; apply Z.ltb_ge; lia).
    exists line, (fun _ => 0). split; [reflexivity|]. split; [exact Hs|].
    split; [intros r Hr; lia|].
    intros px py. split_tests.
  - replace (y <? y0 + q) with true by (symmetry; apply Z.ltb_lt; lia).
    destruct (steep_step_any x y Hnear) as (x' & E & Hnear').
    rewrite E. cbn [bind].
    pose proof (steep_near_bounds x' (y + 1) Hnear' ltac:(lia)) as Hb.
    destruct (grid_set_at line Nx Ny x' (y + 1) 1 Hs) as (line1 & E1 & Hs1 & Hat1);
      [lia|lia|].
    rewrite E1. cbn [bind].
    destruct (IH x' (y + 1) line1 Hs1 Hnear' ltac:(lia) ltac:(lia))
      as (g & x_at & Eg & Hsg & Hcol & Hat).
    exists g, (fun r => if r =? y + 1 then x' else x_at r).
    split; [exact Eg|]. split; [exact Hsg|]. split.
    + intros r Hr. destruct (Z.eqb_spec r (y + 1)) as [->|Hne].
      * apply Hnear'.
      * apply Hcol. lia.
    + intros px py. rewrite Hat, Hat1.
      destruct (Z.eqb_spec (py - 1) (y + 1)) as [Heq|Hne]; split_tests.
Qed.

End SteepLine.

Lemma Qabs_quotient (p q : Z) :
  (Qabs (inject_Z q / inject_Z p) == inject_Z (Z.abs q) / inject_Z (Z.abs p))%Q.
Proof.
  unfold Qdiv. rewrite Qabs_Qmult, Qabs_Qinv. reflexivity.
Qed.

Lemma gradient_steep (p q : Z) :
  p <> 0 -> Z.abs p <= Z.abs q -> Qltb (Qabs (inject_Z q / inject_Z p)) 1 = false.
Proof.
  intros Hp H. unfold Qltb. apply negb_false_iff. apply Qle_bool_iff.
  rewrite Qabs_quotient.
  assert (Hpos : (0 < inject_Z (Z.abs p))%Q)
    by (change 0%Q with (inject_Z 0); rewrite <- Zlt_Qlt; lia).
  apply Qle_shift_div_l; [exact Hpos|]. rewrite Qmult_1_l. rewrite <- Zle_Qle. exact H.
Qed.

Lemma gradient_shallow (p q : Z) :
  Z.abs q < Z.abs p -> Qltb (Qabs (inject_Z q / inject_Z p)) 1 = true.
Proof.
  intros H. unfold Qltb. apply negb_true_iff.
  destruct (Qle_bool 1 (Qabs (inject_Z q / inject_Z p))) eqn:E; [|reflexivity].
  exfalso. apply Qle_bool_iff in E. rewrite Qabs_quotient in E.
  assert (Hpos : (0 < inject_Z (Z.abs p))%Q)
    by (change 0%Q with (inject_Z 0); rewrite <- Zlt_Qlt; lia).
  apply (Qmult_le_compat_r _ _ (inject_Z (Z.abs p))) in E; [|now apply Qlt_le_weak].
  rewrite Qmult_1_l in E.
  assert (Hcancel : (inject_Z (Z.abs q) / inject_Z (Z.abs p) * inject_Z (Z.abs p)
                     == inject_Z (Z.abs q))%Q).
  { field. intros H0. apply (proj1 (inject_Z_injective _ 0)) in H0. lia. }
  rewrite Hcancel in E. rewrite <- Zle_Qle in E. lia.
Qed.

(** The gradient and the intercept of the line, seen from either end. *)
Lemma gradient_value (ax ay bx by_ : Z) :
  ax <> bx ->
  (inject_Z (by_ - ay) / inject_Z (bx - ax) == inject_Z (ay - by_) / inject_Z (ax - bx))%Q.
Proof.
  intros H. rewrite !inject_Z_sub. field.
  split; intros H0; rewrite <- inject_Z_sub in H0;
    apply (proj1 (inject_Z_injective _ 0)) in H0; lia.
Qed.

Lemma intercept_value (ax ay bx by_ : Z) (m : Q) :
  ax <> bx -> (m == inject_Z (by_ - ay) / inject_Z (bx - ax))%Q ->
  (inject_Z ay - m * inject_Z ax == inject_Z by_ - m * inject_Z bx)%Q.
Proof.
  intros H Hm. rewrite Hm. rewrite !inject_Z_sub. field.
  intros H0. rewrite <- inject_Z_sub in H0.
  apply (proj1 (inject_Z_injective _ 0)) in H0. lia.
Qed.

(** The branch [abs(m) >= 1], finite, of the section "calculate a line from
    a to b". *)
Lemma line_a_to_b_steep (Nx Ny : Z) (a b : Z * Z) :
  inside Nx Ny a -> inside Nx Ny b -> fst a <> fst b ->
  Z.abs (fst b - fst a) <= Z.abs (snd b - snd a) ->
  exists g x_at,
    line_a_to_b Nx Ny (fst a - 1, snd a - 1) (fst b - 1, snd b - 1) = Ok g /\ shape g Nx Ny /\
    x_at (snd a) = fst a /\ x_at (snd b) = fst b /\
    (forall py, Z.min (snd a) (snd b) <= py <= Z.max (snd a) (snd b) ->
       2 * Z.abs (line_offset a b (x_at py) py) <= Z.abs (snd b - snd a)) /\
    forall px py, at1 g px py
                  = if (Z.min (snd a) (snd b) <=? py) && (py <=? Z.max (snd a) (snd b))
                       && (px =? x_at py)
                    then 1 else 0.
Proof.
  destruct a as [ax ay], b as [bx by_]. unfold line_offset. cbn [fst snd].
  intros Ha Hb Hx Hsteep.
  unfold inside in Ha, Hb. cbn [fst snd] in *.
  unfold line_a_to_b. cbn [fst snd].
  destruct (np_zeros_ok Nx Ny) as (g0 & E0 & Hs0 & Hz0); [lia|lia|].
  rewrite E0. cbn [bind].
  replace (bx - 1 - (ax - 1) =? 0) with false by (symmetry; apply Z.eqb_neq; lia).
  rewrite gradient_steep by lia.
  set (m := (inject_Z (by_ - 1 - (ay - 1)) / inject_Z (bx - 1 - (ax - 1)))%Q).
  set (c := (inject_Z (ay - 1) - m * inject_Z (ax - 1))%Q).
  assert (Hm : (m == inject_Z (by_ - ay) / inject_Z (bx - ax))%Q).
  { unfold m. replace (by_ - 1 - (ay - 1)) with (by_ - ay) by lia.
    replace (bx - 1 - (ax - 1)) with (bx - ax) by lia. reflexivity. }
  destruct (Z.ltb_spec (ay - 1) (by_ - 1)) as [Hlt|Hge].
  - destruct (grid_set_at g0 Nx Ny (ax - 1) (ay - 1) 1 Hs0) as (g1 & E1 & Hs1 & Hat1);
      [lia|lia|].
    rewrite E1. cbn [bind].
    destruct (steep_loop_line (ax - 1) (ay - 1) (bx - ax) (by_ - ay)
                ltac:(lia) ltac:(lia) ltac:(lia) m c Hm ltac:(reflexivity)
                Nx Ny (Z.to_nat (by_ - 1 - (ay - 1))) (ax - 1) (ay - 1) g1 Hs1)
      as (g & x_at & Eg & Hsg & Hcol & Hat); try lia.
    { unfold steep_near, deviation_from, deviation.
      replace ((ax - 1 - (ax - 1)) * (by_ - ay) - (ay - 1 - (ay - 1)) * (bx - ax))
        with 0 by ring. lia. }
    replace (ay - 1 + (by_ - ay)) with (by_ - 1) in Eg by lia.
    exists g, (fun py => if py =? ay then ax else x_at (py - 1) + 1).
    split; [exact Eg|]. split; [exact Hsg|].
    assert (Hdev : forall py, ay < py <= by_ ->
              (x_at (py - 1) + 1 - ax) * (by_ - ay) - (py - ay) * (bx - ax)
              = deviation_from (ax - 1) (ay - 1) (bx - ax) (by_ - ay) (x_at (py - 1)) (py - 1)).
    { intros py Hpy. unfold deviation_from, deviation. ring. }
    split; [now rewrite Z.eqb_refl|]. split.
    { replace (by_ =? ay) with false by (symmetry; apply Z.eqb_neq; lia).
      pose proof (Hcol (by_ - 1) ltac:(lia)) as Hlast.
      replace (by_ - 1) with (ay - 1 + (by_ - ay)) in Hlast at 2 by lia.
      apply steep_near_last in Hlast; lia. }
    split.
    { intros py Hpy. destruct (Z.eqb_spec py ay) as [->|Hne].
      - replace ((ax - ax) * (by_ - ay) - (ay - ay) * (bx - ax)) with 0 by ring. lia.
      - rewrite Hdev by lia. specialize (Hcol (py - 1) ltac:(lia)). lia. }
    intros px py. rewrite Hat, Hat1, Hz0.
    replace (ay - 1 + (by_ - ay) + 1) with by_ by lia.
    destruct (Z.eqb_spec py ay) as [->|Hne]; split_tests.
  - destruct (grid_set_at g0 Nx Ny (bx - 1) (by_ - 1) 1 Hs0) as (g1 & E1 & Hs1 & Hat1);
      [lia|lia|].
    rewrite E1. cbn [bind].
    assert (Hm' : (m == inject_Z (ay - by_) / inject_Z (ax - bx))%Q)
      by (rewrite Hm; apply gradient_value; lia).
    assert (Hc : (c == inject_Z (by_ - 1) - m * inject_Z (bx - 1))%Q).
    { unfold c. apply intercept_value with (m := m); [lia|].
      rewrite Hm. replace (by_ - 1 - (ay - 1)) with (by_ - ay) by lia.
      replace (bx - 1 - (ax - 1)) with (bx - ax) by lia. reflexivity. }
    destruct (steep_loop_line (bx - 1) (by_ - 1) (ax - bx) (ay - by_)
                ltac:(lia) ltac:(lia) ltac:(lia) m c Hm' Hc
                Nx Ny (Z.to_nat (ay - 1 - (by_ - 1))) (bx - 1) (by_ - 1) g1 Hs1)
      as (g & x_at & Eg & Hsg & Hcol & Hat); try lia.
    { unfold steep_near, deviation_from, deviation.
      replace ((bx - 1 - (bx - 1)) * (ay - by_) - (by_ - 1 - (by_ - 1)) * (ax - bx))
        with 0 by ring. lia. }
    replace (by_ - 1 + (ay - by_)) with (ay - 1) in Eg by lia.
    exists g, (fun py => if py =? by_ then bx else x_at (py - 1) + 1).
    split; [exact Eg|]. split; [exact Hsg|].
    assert (Hdev : forall py, by_ < py <= ay ->
              (x_at (py - 1) + 1 - ax) * (by_ - ay) - (py - ay) * (bx - ax)
              = - deviation_from (bx - 1) (by_ - 1) (ax - bx) (ay - by_) (x_at (py - 1)) (py - 1)).
    { intros py Hpy. unfold deviation_from, deviation. ring. }
    split.
    { replace (ay =? by_) with false by (symmetry; apply Z.eqb_neq; lia).
      pose proof (Hcol (ay - 1) ltac:(lia)) as Hlast.
      replace (ay - 1) with (by_ - 1 + (ay - by_)) in Hlast at 2 by lia.
      apply steep_near_last in Hlast; lia. }
    split; [now rewrite Z.eqb_refl|]. split.
    { intros py Hpy. destruct (Z.eqb_spec py by_) as [->|Hne].
      - replace ((bx - ax) * (by_ - ay) - (by_ - ay) * (bx - ax)) with 0 by ring. lia.
      - rewrite Hdev by lia. specialize (Hcol (py - 1) ltac:(lia)). lia. }
    intros px py. rewrite Hat, Hat1, Hz0.
    replace (by_ - 1 + (ay - by_) + 1) with ay by lia.
    destruct (Z.eqb_spec py by_) as [->|Hne]; split_tests.
Qed.

(** X14.  In the two-point mode a line that is at least as long along y as
    along x (and not parallel to the y axis) is drawn as follows, whichever
    end point is given first: for every y between the end points exactly
    one cell [(x_at y, y)] is set, it lies within half a cell of the exact
    line along x, and the two end points are among the set cells; no other
    cell is set. *)
Theorem makeLine_steep (Nx Ny : Z) (a b : Z * Z) (angle : option R) (length : option Z) :
  inside Nx Ny a -> inside Nx Ny b -> fst a <> fst b ->
  Z.abs (fst b - fst a) <= Z.abs (snd b - snd a) ->
  exists g x_at,
    makeLine Nx Ny a (Some b) angle length = Ok g /\ shape g Nx Ny /\
    x_at (snd a) = fst a /\ x_at (snd b) = fst b /\
    (forall py, Z.min (snd a) (snd b) <= py <= Z.max (snd a) (snd b) ->
       2 * Z.abs (line_offset a b (x_at py) py) <= Z.abs (snd b - snd a)) /\
    forall px py, at1 g px py
                  = if (Z.min (snd a) (snd b) <=? py) && (py <=? Z.max (snd a) (snd b))
                       && (px =? x_at py)
                    then 1 else 0.
Proof.
  intros Ha Hb Hx Hsteep.
  rewrite makeLine_two_points_accepts by (try assumption; intros H; apply Hx; now rewrite H).
  now apply line_a_to_b_steep.
Qed.

Lemma makeLine_steep_witness :
  (inside 4 5 (3, 5) /\ inside 4 5 (1, 1) /\ 3 <> 1 /\ Z.abs (1 - 3) <= Z.abs (1 - 5)) /\
  exists g x_at,
    makeLine 4 5 (3, 5) (Some (1, 1)) None None = Ok g /\ shape g 4 5 /\
    x_at 5 = 3 /\ x_at 1 = 1 /\
    (forall py, Z.min 5 1 <= py <= Z.max 5 1 ->
       2 * Z.abs (line_offset (3, 5) (1, 1) (x_at py) py) <= Z.abs (1 - 5)) /\
    forall px py, at1 g px py
                  = if (Z.min 5 1 <=? py) && (py <=? Z.max 5 1) && (px =? x_at py)
                    then 1 else 0.
Proof.
  assert (H : inside 4 5 (3, 5) /\ inside 4 5 (1, 1) /\ 3 <> 1
              /\ Z.abs (1 - 3) <= Z.abs (1 - 5))
    by (unfold inside; simpl; lia).
  split; [exact H|].
  destruct H as (Ha & Hb & Hx & Hsteep).
  exact (makeLine_steep 4 5 (3, 5) (1, 1) None None Ha Hb Hx Hsteep).
Defined.

(** The branch [abs(m) < 1] of the section "calculate a line from a to b":
    the array is built and the first point written, and the first pass of
    the loop ends in the [TypeError] of [m * poss_x]. *)
Lemma line_a_to_b_shallow (Nx Ny : Z) (a b : Z * Z) :
  inside Nx Ny a -> inside Nx Ny b ->
  Z.abs (snd b - snd a) < Z.abs (fst b - fst a) ->
  line_a_to_b Nx Ny (fst a - 1, snd a - 1) (fst b - 1, snd b - 1) = Raise TypeError.
Proof.
  destruct a as [ax ay], b as [bx by_]. cbn [fst snd].
  intros Ha Hb Hshallow.
  unfold inside in Ha, Hb. cbn [fst snd] in *.
  unfold line_a_to_b. cbn [fst snd].
  destruct (np_zeros_ok Nx Ny) as (g0 & E0 & Hs0 & Hz0); [lia|lia|].
  rewrite E0. cbn [bind].
  replace (bx - 1 - (ax - 1) =? 0) with false by (symmetry; apply Z.eqb_neq; lia).
  rewrite gradient_shallow by lia.
  destruct (Z.ltb_spec (ax - 1) (bx - 1)) as [Hlt|Hge].
  - destruct (grid_set_at g0 Nx Ny (ax - 1) (ay - 1) 1 Hs0) as (g1 & E1 & Hs1 & Hat1);
      [lia|lia|].
    rewrite E1. cbn [bind].
    destruct (Z.to_nat (bx - 1 - (ax - 1))) as [|n] eqn:En; [lia|].
    cbn [shallow_loop].
    replace (ax - 1 <? bx - 1) with true by (symmetry; apply Z.ltb_lt; lia).
    reflexivity.
  - destruct (grid_set_at g0 Nx Ny (bx - 1) (by_ - 1) 1 Hs0) as (g1 & E1 & Hs1 & Hat1);
      [lia|lia|].
    rewrite E1. cbn [bind].
    destruct (Z.to_nat (ax - 1 - (bx - 1))) as [|n] eqn:En; [lia|].
    cbn [shallow_loop].
    replace (bx - 1 <? ax - 1) with true by (symmetry; apply Z.ltb_lt; lia).
    reflexivity.
Qed.

(** X15.  In the two-point mode no line that is longer along x than along y
    is drawn: for every two points inside the grid with [|dy| < |dx|] the
    call raises a [TypeError] on the first pass of the loop of the branch
    [abs(m) < 1], at [true_y = m * poss_x + c], where [poss_x] is a Python
    list and [m] a [numpy.float64]; no array is returned. *)
Theorem makeLine_shallow (Nx Ny : Z) (a b : Z * Z) (angle : option R) (length : option Z) :
  inside Nx Ny a -> inside Nx Ny b ->
  Z.abs (snd b - snd a) < Z.abs (fst b - fst a) ->
  makeLine Nx Ny a (Some b) angle length = Raise TypeError.
Proof.
  intros Ha Hb Hshallow.
  rewrite makeLine_two_points_accepts
    by (try assumption; intros H; rewrite H in Hshallow; lia).
  now apply line_a_to_b_shallow.
Qed.

Lemma makeLine_shallow_witness :
  (inside 6 4 (5, 2) /\ inside 6 4 (1, 4) /\ Z.abs (4 - 2) < Z.abs (1 - 5)) /\
  makeLine 6 4 (5, 2) (Some (1, 4)) None None = Raise TypeError.
Proof.
  assert (H : inside 6 4 (5, 2) /\ inside 6 4 (1, 4) /\ Z.abs (4 - 2) < Z.abs (1 - 5))
    by (unfold inside; simpl; lia).
  split; [exact H|].
  destruct H as (Ha & Hb & Hshallow).
  exact (makeLine_shallow 6 4 (5, 2) (1, 4) None None Ha Hb Hshallow).
Defined.

(** X16.  The outcome of every two-point request.  When one of the points
    lies outside the grid or the two points are the same, the call raises a
    [ValueError].  Otherwise, when the line is at least as long along y as
    along x, it returns an array of the shape [(Nx, Ny)] (no write raises an
    [IndexError] and every loop ends); and when the line is longer along x,
    it raises a [TypeError]. *)
Theorem makeLine_two_points_total (Nx Ny : Z) (a b : Z * Z)
        (angle : option R) (length : option Z) :
  (~ (inside Nx Ny a /\ inside Nx Ny b /\ a <> b) ->
   makeLine Nx Ny a (Some b) angle length = Raise ValueError) /\
  (inside Nx Ny a /\ inside Nx Ny b /\ a <> b ->
   (Z.abs (fst b - fst a) <= Z.abs (snd b - snd a) ->
    exists g, makeLine Nx Ny a (Some b) angle length = Ok g /\ shape g Nx Ny) /\
   (Z.abs (snd b - snd a) < Z.abs (fst b - fst a) ->
    makeLine Nx Ny a (Some b) angle length = Raise TypeError)).
Proof.
  split.
  - intros Hnot. destruct a as [ax ay], b as [bx by_]. unfold inside in Hnot.
    unfold makeLine. cbv zeta. cbn [fst snd] in *.
    destruct ((ax - 1 =? bx - 1) && (ay - 1 =? by_ - 1)) eqn:Esame; [reflexivity|].
    match goal with |- (if ?t then _ else _) = _ => destruct t eqn:Eout; [reflexivity|] end.
    exfalso. apply Hnot.
    rewrite !orb_false_iff, !Z.ltb_ge in Eout.
    apply andb_false_iff in Esame. rewrite !Z.eqb_neq in Esame.
    repeat split; try lia.
    intros H. injection H as -> ->. lia.
  - intros (Ha & Hb & Hab). rewrite makeLine_two_points_accepts by assumption. split.
    + intros Hsteep. destruct (Z.eq_dec (fst a) (fst b)) as [Hx|Hx].
      * destruct a as [ax ay], b as [bx by_]. unfold inside in *. cbn [fst snd] in *.
        subst bx.
        destruct (line_a_to_b_vertical Nx Ny ax ay by_) as (g & E & Hs & _); try lia.
        { intros ->. now apply Hab. }
        eauto.
      * destruct (line_a_to_b_steep Nx Ny a b Ha Hb Hx Hsteep) as (g & x_at & E & Hs & _).
        eauto.
    + intros Hshallow. now apply line_a_to_b_shallow.
Qed.

(** ** makeLine, angle mode: lines along the axes *)

Lemma trace_axis (Nx Ny sx sy L : Z) (s : sector) :
  axis_sector s = true -> 1 <= sx <= Nx -> 1 <= sy <= Ny ->
  forall (n : nat) (k : Z) (line : grid),
    shape line Nx Ny -> 0 <= k ->
    1 <= sx + k * fst (sector_dir s) <= Nx -> 1 <= sy + k * snd (sector_dir s) <= Ny ->
    L - k <= Z.of_nat n ->
    exists g,
      trace (sx, sy) L (sector_next (sx, sy) s) (sector_stop Nx Ny s) n
            (sx + k * fst (sector_dir s)) (sy + k * snd (sector_dir s)) (k * k) line = Ok g /\
      shape g Nx Ny /\
      forall px py, at1 g px py
                    = if axis_cell Nx Ny sx sy (fst (sector_dir s)) (snd (sector_dir s))
                                   k L px py
                      then 1 else at1 line px py.
Proof.
  intros Haxis Hsx Hsy n. induction n as [|n IH]; intros k line Hs Hk Hx Hy Hn;
    cbn [trace]; unfold shorter.
  - replace ((0 <? L) && (k * k <? L * L)) with false
      by (symmetry; apply andb_false_iff; rewrite !Z.ltb_ge; nia).
    exists line. split; [reflexivity|]. split; [exact Hs|].
    intros px py. unfold axis_cell. cbv zeta. split_tests.
  - destruct ((0 <? L) && (k * k <? L * L)) eqn:Hshort.
    2:{ exists line. split; [reflexivity|]. split; [exact Hs|].
        apply andb_false_iff in Hshort. rewrite !Z.ltb_ge in Hshort.
        assert (HL : L <= k) by nia.
        intros px py. unfold axis_cell. cbv zeta. split_tests. }
    apply andb_true_iff in Hshort. rewrite !Z.ltb_lt in Hshort.
    assert (HL : k < L) by nia.
    destruct s; try discriminate Haxis; cbn [sector_dir sector_next sector_stop fst snd bind] in *.
    all: match goal with
         | |- context [if ?b then Ok _ else _] => destruct b eqn:Hstop
         end.
    all: try (eexists; split; [reflexivity|]; split; [exact Hs|];
              apply Z.ltb_lt in Hstop;
              intros px py; unfold axis_cell; cbv zeta; split_tests).
    all: apply Z.ltb_ge in Hstop.
    all: match goal with
         | |- context [grid_set ?l ?i ?j 1] =>
             destruct (grid_set_at l Nx Ny i j 1 Hs) as (line1 & E1 & Hs1 & Hat1);
             [lia|lia|]; rewrite E1; cbn [bind]
         end.
    all: specialize (IH (k + 1) line1 Hs1 ltac:(lia) ltac:(lia) ltac:(lia) ltac:(lia)).
    all: destruct IH as (g & Eg & Hsg & Hat).
    all: exists g; split;
      [|split; [exact Hsg|
                intros px py; rewrite Hat, Hat1; unfold axis_cell; cbv zeta; split_tests]].
    all: rewrite <- Eg; f_equal; unfold length2; cbn [fst snd]; ring.
Qed.

Lemma Rmod_negative (a b : R) : (- b <= a < 0)%R -> Rmod a b = (a + b)%R.
Proof.
  intros H. unfold Rmod.
  set (t := (a / b)%R).
  assert (Ht : (t * b = a)%R) by (unfold t; field; lra).
  assert (Hi : Int_part t = -1).
  { symmetry. apply Int_part_spec. simpl. nra. }
  rewrite Hi. simpl. lra.
Qed.

Lemma normalise_angle_minus_half_pi : normalise_angle (- PI / 2) = (- PI / 2)%R.
Proof.
  pose proof PI_RGT_0 as Hpi. unfold normalise_angle.
  rewrite Rmod_negative by lra. rewrite Rltb_true by lra. lra.
Qed.

Lemma sector_of_pi : sector_of PI = Some AlongPi.
Proof.
  pose proof PI_RGT_0 as Hpi. unfold sector_of.
  rewrite Rabs_pos_eq by lra. now rewrite Reqb_true.
Qed.

Lemma axis_direction_sector (angle : R) (u : Z * Z) :
  axis_direction angle u ->
  exists s, sector_of (normalise_angle angle) = Some s /\ axis_sector s = true /\
            sector_dir s = u.
Proof.
  pose proof PI_RGT_0 as Hpi.
  intros [[-> ->] | [[-> ->] | [[-> ->] | [-> ->]]]].
  - exists AlongZero. rewrite normalise_angle_0, sector_of_0. auto.
  - exists AlongHalfPi. rewrite normalise_angle_low by lra. rewrite sector_of_half_pi. auto.
  - exists AlongPi. rewrite normalise_angle_low by lra. rewrite sector_of_pi. auto.
  - exists AlongMinusHalfPi.
    rewrite normalise_angle_minus_half_pi, sector_of_minus_half_pi. auto.
Qed.

Lemma line_angled_axis (Nx Ny sx sy L : Z) (angle : R) (s : sector) :
  1 <= sx <= Nx -> 1 <= sy <= Ny ->
  sector_of angle = Some s -> axis_sector s = true ->
  exists g, line_angled Nx Ny (sx, sy) angle (Some L) = Ok g /\ shape g Nx Ny /\
    forall px py, at1 g px py
                  = if ((px =? sx) && (py =? sy))
                       || axis_cell Nx Ny sx sy (fst (sector_dir s)) (snd (sector_dir s))
                                    0 L px py
                    then 1 else 0.
Proof.
  intros Hsx Hsy Hsec Haxis. unfold line_angled.
  destruct (np_zeros_ok Nx Ny) as (g0 & E0 & Hs0 & Hz0); [lia|lia|].
  rewrite E0. cbn [bind].
  destruct (grid_set_at g0 Nx Ny (sx - 1) (sy - 1) 1 Hs0) as (g1 & E1 & Hs1 & Hat1);
    [lia|lia|].
  rewrite E1. cbn [bind]. rewrite Hsec.
  pose proof (trace_axis Nx Ny sx sy L s Haxis Hsx Hsy (Z.to_nat (2 * L)) 0 g1 Hs1) as Ht.
  rewrite !Z.mul_0_l, !Z.add_0_r in Ht.
  destruct Ht as (g & Eg & Hsg & Hat); try lia.
  exists g. split; [exact Eg|]. split; [exact Hsg|].
  intros px py. rewrite Hat, Hat1, Hz0.
  replace (sx - 1 + 1) with sx by lia. replace (sy - 1 + 1) with sy by lia.
  destruct (axis_cell _ _ _ _ _ _ _ _ _ _); [now rewrite orb_true_r|].
  now rewrite orb_false_r.
Qed.

(** X17.  In the angle mode, from a start point inside the grid, the four
    angles [0], [pi/2], [pi] and [-pi/2] give a segment along an axis, in
    the directions [(0, -1)], [(-1, 0)], [(0, 1)] and [(1, 0)]: the set
    cells are the start point and the [length] following points in that
    direction, as far as they lie inside the grid.  A length below one
    leaves the start point alone. *)
Theorem makeLine_axis_angles (Nx Ny sx sy L : Z) (angle : R) (u : Z * Z) :
  inside Nx Ny (sx, sy) -> axis_direction angle u ->
  exists g, makeLine Nx Ny (sx, sy) None (Some angle) (Some L) = Ok g /\
    shape g Nx Ny /\
    forall px py,
      (at1 g px py = 1 \/ at1 g px py = 0) /\
      (at1 g px py = 1 <->
       inside Nx Ny (px, py) /\
       exists k, 0 <= k <= Z.max L 0 /\ px = sx + k * fst u /\ py = sy + k * snd u).
Proof.
  unfold inside. cbn [fst snd]. intros [Hsx Hsy] Hdir.
  destruct (axis_direction_sector angle u Hdir) as (s & Hsec & Haxis & Hu).
  unfold makeLine. cbv zeta.
  destruct (line_angled_axis Nx Ny sx sy L _ s Hsx Hsy Hsec Haxis) as (g & Eg & Hsg & Hat).
  exists g. split; [exact Eg|]. split; [exact Hsg|].
  intros px py. rewrite Hat. rewrite Hu. clear Hat Eg Hsec.
  assert (Hunit : u = (0, -1) \/ u = (-1, 0) \/ u = (0, 1) \/ u = (1, 0))
    by (destruct Hdir as [[_ H]|[[_ H]|[[_ H]|[_ H]]]]; auto).
  unfold axis_cell. cbv zeta.
  destruct Hunit as [-> | [-> | [-> | ->]]]; cbn [fst snd].
  all: split; [match goal with |- context [if ?b then _ else _] => destruct b end; auto|].
  all: match goal with |- context [if ?b then 1 else 0] => destruct b eqn:E end.
  all: rewrite ?orb_true_iff, ?orb_false_iff, ?andb_true_iff, ?andb_false_iff,
         ?Z.eqb_eq, ?Z.eqb_neq, ?Z.ltb_lt, ?Z.ltb_ge, ?Z.leb_le, ?Z.leb_gt in E.
  all: split; [intros H|].
  all: try discriminate H.
  all: try (intros _; reflexivity).
  all: try (split; [lia|];
            destruct E as [E|E];
            [exists 0; lia|
             match goal with
             | _ : context [0 < ?j] |- _ => exists j; lia
             end]).
  all: intros (Hin & k & Hk & Hpx & Hpy); exfalso; subst px py;
    rewrite ?orb_false_iff, ?andb_false_iff, ?Z.eqb_neq, ?Z.ltb_ge, ?Z.leb_gt in E; lia.
Qed.

Lemma makeLine_axis_angles_witness :
  (inside 5 5 (3, 3) /\ axis_direction PI (0, 1)) /\
  exists g, makeLine 5 5 (3, 3) None (Some PI) (Some 4) = Ok g /\
    shape g 5 5 /\
    forall px py,
      (at1 g px py = 1 \/ at1 g px py = 0) /\
      (at1 g px py = 1 <->
       inside 5 5 (px, py) /\
       exists k, 0 <= k <= Z.max 4 0 /\ px = 3 + k * fst (0, 1) /\ py = 3 + k * snd (0, 1)).
Proof.
  assert (Hin : inside 5 5 (3, 3)) by (unfold inside; simpl; lia).
  assert (Hdir : axis_direction PI (0, 1))
    by (unfold axis_direction; right; right; left; split; reflexivity).
  split; [split; assumption|].
  exact (makeLine_axis_angles 5 5 3 3 4 PI (0, 1) Hin Hdir).
Defined.

(** ** makeLine, angle mode: every angle *)

Lemma Rmod_range (a b : R) : (0 < b)%R -> (0 <= Rmod a b < b)%R.
Proof.
  intros Hb. unfold Rmod.
  set (t := (a / b)%R).
  assert (Ht : (t * b = a)%R) by (unfold t; field; lra).
  destruct (base_Int_part t) as [Hlow Hhigh].
  rewrite <- Ht. split; nra.
Qed.

Lemma normalise_angle_range (angle : R) : (- PI < normalise_angle angle <= PI)%R.
Proof.
  pose proof PI_RGT_0 as Hpi. unfold normalise_angle.
  pose proof (Rmod_range angle (2 * PI) ltac:(lra)) as H.
  unfold Rltb.
  destruct (Rlt_dec PI (Rmod angle (2 * PI))); [lra|].
  destruct (Rlt_dec (Rmod angle (2 * PI)) (- PI)); lra.
Qed.

Lemma sector_of_total (angle : R) :
  (- PI < angle <= PI)%R -> exists s, sector_of angle = Some s.
Proof.
  pose proof PI_RGT_0 as Hpi. intros H. unfold sector_of, Reqb, Rltb.
  destruct (Req_dec_T (Rabs angle) PI) as [_|Hne]; [eauto|].
  assert (Hlt : (angle < PI)%R).
  { destruct (Req_dec_T angle PI) as [->|Hne']; [|lra].
    exfalso. apply Hne. apply Rabs_pos_eq. lra. }
  repeat match goal with
         | |- context [Rlt_dec ?a ?b] => destruct (Rlt_dec a b)
         | |- context [Req_dec_T ?a ?b] => destruct (Req_dec_T a b)
         end;
    cbn [andb]; eauto; exfalso; lra.
Qed.

Section TraceCells.

Variables Nx Ny : Z.
Variable startpoint : Z * Z.
Variable linelength : Z.
Variable next : Z -> Z -> result (Z * Z).
Variable stop : Z -> Z -> bool.
Variable region : Z -> Z -> Prop.
Variable progress : Z -> Z -> Z.

Hypothesis next_ok : forall x y, region x y ->
  exists x' y', next x y = Ok (x', y') /\ region x' y' /\
    progress x y + 1 <= progress x' y' /\
    (stop x' y' = false -> - Nx <= x' - 1 < Nx /\ - Ny <= y' - 1 < Ny).

Hypothesis progress_length : forall x y, region x y ->
  0 <= progress x y /\ progress x y * progress x y <= 2 * length2 startpoint x y.

(** The loop only sets cells. *)
Lemma trace_cells (n : nat) (x y : Z) (line : grid) :
  shape line Nx Ny -> region x y ->
  2 * linelength - Z.of_nat n <= progress x y ->
  exists line',
    trace startpoint linelength next stop n x y (length2 startpoint x y) line = Ok line'
    /\ shape line' Nx Ny
    /\ forall px py, at1 line' px py = 1 \/ at1 line' px py = at1 line px py.
Proof.
  revert x y line; induction n as [|n IH]; intros x y line Hs Hr Hp; cbn [trace].
  - destruct (shorter linelength (length2 startpoint x y)) eqn:Hsh.
    + exfalso. unfold shorter in Hsh. apply andb_true_iff in Hsh.
      rewrite !Z.ltb_lt in Hsh. destruct (progress_length x y Hr). nia.
    + exists line. auto.
  - destruct (shorter linelength (length2 startpoint x y)) eqn:Hsh.
    2:{ exists line. auto. }
    destruct (next_ok x y Hr) as (x' & y' & E & Hr' & Hp' & Hidx).
    rewrite E. cbn [bind].
    destruct (stop x' y') eqn:Hstop.
    { exists line. auto. }
    destruct (Hidx eq_refl) as [Hi Hj].
    destruct (grid_set_wrap line Nx Ny (x' - 1) (y' - 1) 1 Hs Hi Hj)
      as (line1 & E1 & Hs1 & Hat1).
    rewrite E1. cbn [bind].
    destruct (IH x' y' line1 Hs1 Hr' ltac:(lia)) as (line' & E' & Hs' & Hat').
    exists line'. split; [exact E'|]. split; [exact Hs'|].
    intros px py. destruct (Hat' px py) as [H|H]; [now left|].
    rewrite H, Hat1.
    destruct ((px =? (x' - 1) mod Nx + 1) && (py =? (y' - 1) mod Ny + 1)); auto.
Qed.

End TraceCells.

Lemma line_angled_cells (Nx Ny sx sy : Z) (angle : R) (linelength : Z) :
  1 <= sx <= Nx -> 1 <= sy <= Ny ->
  exists line, line_angled Nx Ny (sx, sy) angle (Some linelength) = Ok line /\
    shape line Nx Ny /\ at1 line sx sy = 1 /\
    (forall px py, at1 line px py = 1 \/ at1 line px py = 0) /\
    (linelength <= 0 ->
     forall px py, at1 line px py = if (px =? sx) && (py =? sy) then 1 else 0).
Proof.
  intros Hsx Hsy. unfold line_angled.
  destruct (np_zeros_ok Nx Ny) as (g0 & E0 & Hs0 & Hz0); [lia|lia|].
  rewrite E0. cbn [bind].
  destruct (grid_set_in_grid g0 Nx Ny sx sy 1 Hs0) as (g1 & E1 & Hs1 & Hat1);
    [lia|lia|].
  rewrite E1. cbn [bind].
  assert (Hstart : at1 g1 sx sy = 1) by (rewrite Hat1, !Z.eqb_refl; reflexivity).
  assert (Hbin : forall px py, at1 g1 px py = 1 \/ at1 g1 px py = 0).
  { intros px py. rewrite Hat1, Hz0.
    destruct ((px =? sx) && (py =? sy)); auto. }
  assert (Hcells : forall px py, at1 g1 px py = if (px =? sx) && (py =? sy) then 1 else 0).
  { intros px py. now rewrite Hat1, Hz0. }
  destruct (sector_of angle) as [s|]; [|exists g1; auto 10].
  assert (H0 : length2 (sx, sy) sx sy = 0) by (unfold length2; cbn [fst snd]; lia).
  pose proof (trace_cells Nx Ny (sx, sy) linelength
                (sector_next (sx, sy) s) (sector_stop Nx Ny s)
                (sector_region (sx, sy) s) (sector_progress (sx, sy) s)) as Htrace.
  specialize (Htrace (fun x y Hr => sector_next_ok Nx Ny sx sy s x y Hsx Hsy Hr)).
  specialize (Htrace (fun x y Hr => sector_progress_length sx sy s x y Hr)).
  specialize (Htrace (Z.to_nat (2 * linelength)) sx sy g1 Hs1).
  rewrite H0 in Htrace.
  destruct Htrace as (line & E & Hs & Hat).
  - unfold sector_region. destruct (sector_dir s) as [ux uy].
    replace (sx - sx) with 0 by lia. replace (sy - sy) with 0 by lia. lia.
  - unfold sector_progress. destruct (sector_dir s) as [ux uy].
    replace (sx - sx) with 0 by lia. replace (sy - sy) with 0 by lia. lia.
  - exists line. split; [exact E|]. split; [exact Hs|]. split.
    { destruct (Hat sx sy) as [H|H]; [exact H|]. now rewrite H. }
    split.
    { intros px py. destruct (Hat px py) as [H|H]; [now left|]. rewrite H. apply Hbin. }
    intros HL px py.
    replace (Z.to_nat (2 * linelength)) with O in E by lia.
    cbn [trace] in E. unfold shorter in E.
    replace (0 <? linelength) with false in E by (symmetry; apply Z.ltb_ge; lia).
    cbn [andb] in E. injection E as <-. apply Hcells.
Qed.

(** X18.  The angle mode from a start point inside the grid.  The
    normalised angle lies in the interval from [-pi] (excluded) to [pi]
    (included), so that one of the eight direction branches is always taken
    (the test [angle < -pi] never holds).  With an angle and a length the
    call returns an array of the shape [(Nx, Ny)] whose cells are 0 or 1 and
    whose start cell is set; a length below one leaves the start cell
    alone.  Without the angle or without the length the call ends in a
    [TypeError]. *)
Theorem makeLine_angle_mode (Nx Ny sx sy : Z) (angle : option R) (length : option Z) :
  inside Nx Ny (sx, sy) ->
  match angle, length with
  | Some a, Some L =>
      (- PI < normalise_angle a <= PI)%R /\
      (exists s, sector_of (normalise_angle a) = Some s) /\
      exists g, makeLine Nx Ny (sx, sy) None angle length = Ok g /\
        shape g Nx Ny /\ at1 g sx sy = 1 /\
        (forall px py, at1 g px py = 1 \/ at1 g px py = 0) /\
        (L <= 0 -> forall px py, at1 g px py = if (px =? sx) && (py =? sy) then 1 else 0)
  | _, _ => makeLine Nx Ny (sx, sy) None angle length = Raise TypeError
  end.
Proof.
  unfold inside. cbn [fst snd]. intros [Hsx Hsy].
  destruct angle as [a|]; [|destruct length; reflexivity].
  pose proof (normalise_angle_range a) as Hrange.
  destruct (sector_of_total _ Hrange) as (s & Hsec).
  destruct length as [L|].
  - split; [exact Hrange|]. split; [eauto|].
    unfold makeLine. cbv zeta. now apply line_angled_cells.
  - unfold makeLine. cbv zeta. unfold line_angled.
    destruct (np_zeros_ok Nx Ny) as (g0 & E0 & Hs0 & Hz0); [lia|lia|].
    rewrite E0. cbn [bind].
    destruct (grid_set_in_grid g0 Nx Ny sx sy 1 Hs0) as (g1 & E1 & Hs1 & Hat1);
      [lia|lia|].
    rewrite E1. cbn [bind]. now rewrite Hsec.
Qed.

Lemma makeLine_angle_mode_witness :
  inside 4 4 (2, 2) /\
  (- PI < normalise_angle 1 <= PI)%R /\
  (exists s, sector_of (normalise_angle 1) = Some s) /\
  exists g, makeLine 4 4 (2, 2) None (Some 1%R) (Some 2) = Ok g /\
    shape g 4 4 /\ at1 g 2 2 = 1 /\
    (forall px py, at1 g px py = 1 \/ at1 g px py = 0) /\
    (2 <= 0 -> forall px py, at1 g px py = if (px =? 2) && (py =? 2) then 1 else 0).
Proof.
  assert (Hin : inside 4 4 (2, 2)) by (unfold inside; simpl; lia).
  split; [exact Hin|].
  exact (makeLine_angle_mode 4 4 2 2 (Some 1%R) (Some 2) Hin).
Defined.

(** ** makeArc *)

Lemma clip_arc_shape (above : Z * Z -> bool) (arc : grid) (Nx Ny : Z) :
  shape arc Nx Ny -> shape (clip_arc above arc) Nx Ny.
Proof.
  intros [Hl Hr]. unfold clip_arc. split.
  - rewrite length_map, length_combine, length_seq. lia.
  - apply Forall_forall. intros row Hrow. apply in_map_iff in Hrow.
    destruct Hrow as ([i r] & <- & Hin). cbn [fst snd].
    rewrite length_map, length_combine, length_seq.
    rewrite Forall_forall in Hr.
    pose proof (Hr r (in_combine_r _ _ _ _ Hin)). lia.
Qed.



Lemma makeArc_valid (theta_above : angle_test) (grid_size arc_pos : Z * Z)
      (radius : radius_t) (diameter : Z) (focus_pos : Z * Z) :
  valid_arc grid_size arc_pos radius diameter focus_pos ->
  makeArc theta_above grid_size arc_pos radius diameter focus_pos
  = arc_body theta_above grid_size arc_pos radius diameter focus_pos.
Proof.
  destruct grid_size as [Nx Ny], arc_pos as [ax ay], focus_pos as [fx fy].
  unfold valid_arc, inside. cbn [fst snd].
  intros (Hnx & Hny & Hr & Hd & Hodd & [Hax Hay] & Hfocus).
  unfold makeArc, arc_body, arc_centre. cbn [fst snd].
  replace ((Nx <? 1) || (Ny <? 1)) with false
    by (symmetry; apply orb_false_iff; rewrite !Z.ltb_ge; lia).
  replace (diameter <=? 0) with false by (symmetry; apply Z.leb_gt; lia).
  replace ((ax <? 1) || (ay <? 1) || ((Nx <? ax) || (Ny <? ay))) with false
    by (symmetry; rewrite !orb_false_iff, !Z.ltb_ge; lia).
  rewrite Hodd. cbn [Z.eqb negb Pos.eqb].
  replace ((ax =? fx) && (ay =? fy)) with false.
  2:{ symmetry. apply andb_false_iff.
      destruct (Z.eq_dec ax fx) as [->|Hne]; [right|left]; apply Z.eqb_neq; congruence. }
  destruct radius as [r| |]; [|reflexivity|contradiction].
  replace (r <=? 0) with false by (symmetry; apply Z.leb_gt; lia).
  replace (2 * r <? diameter) with false by (symmetry; apply Z.ltb_ge; lia).
  reflexivity.
Qed.

Lemma makeArc_invalid (theta_above : angle_test) (grid_size arc_pos : Z * Z)
      (radius : radius_t) (diameter : Z) (focus_pos : Z * Z) :
  ~ valid_arc grid_size arc_pos radius diameter focus_pos ->
  makeArc theta_above grid_size arc_pos radius diameter focus_pos = Raise ValueError.
Proof.
  destruct grid_size as [Nx Ny], arc_pos as [ax ay], focus_pos as [fx fy].
  unfold valid_arc, inside. cbn [fst snd]. intros Hnot.
  unfold makeArc. cbn [fst snd].
  repeat match goal with
         | |- (if ?t then Raise ValueError else _) = _ =>
             destruct t eqn:?; [reflexivity|]
         end.
  exfalso. apply Hnot.
  repeat match goal with
         | H : _ || _ = false |- _ => apply orb_false_iff in H; destruct H
         | H : negb _ = false |- _ => apply negb_false_iff in H
         | H : (_ <? _) = false |- _ => apply Z.ltb_ge in H
         | H : (_ <=? _) = false |- _ => apply Z.leb_gt in H
         | H : (_ =? _) = true |- _ => apply Z.eqb_eq in H
         end.
  repeat split; try lia.
  - destruct radius as [r| |];
      repeat match goal with
             | H : (_ <? _) = false |- _ => apply Z.ltb_ge in H
             | H : (_ <=? _) = false |- _ => apply Z.leb_gt in H
             end;
      [lia|exact I|discriminate].
  - intros Heq. injection Heq as -> ->.
    match goal with H : _ && _ = false |- _ => rewrite !Z.eqb_refl in H; discriminate H end.
Qed.

(** X19.  [makeArc] accepts exactly the inputs that pass its seven checks: a
    grid of positive size, a positive radius (possibly infinite), a positive
    odd diameter that is at most twice the radius, an arc position inside the
    grid and a focus that differs from it.  On these it returns an array of
    the size of the grid; on every other input it raises a [ValueError]. *)
Theorem makeArc_total (theta_above : angle_test) (grid_size arc_pos : Z * Z)
        (radius : radius_t) (diameter : Z) (focus_pos : Z * Z) :
  (valid_arc grid_size arc_pos radius diameter focus_pos ->
   exists g, makeArc theta_above grid_size arc_pos radius diameter focus_pos = Ok g /\
             shape g (fst grid_size) (snd grid_size)) /\
  (~ valid_arc grid_size arc_pos radius diameter focus_pos ->
   makeArc theta_above grid_size arc_pos radius diameter focus_pos = Raise ValueError).
Proof.
  split; [|apply makeArc_invalid].
  intros Hvalid. rewrite makeArc_valid by exact Hvalid.
  destruct grid_size as [Nx Ny].
  destruct Hvalid as (Hnx & Hny & Hr & Hd & Hodd & [Hax Hay] & Hfocus).
  cbn [fst snd] in *. unfold arc_body.
  destruct radius as [r| |]; [| |contradiction].
  - cbv zeta.
    destruct (makeCircle_returns Nx Ny (fst (arc_centre arc_pos focus_pos r))
                (snd (arc_centre arc_pos focus_pos r)) r None)
      as (arc & E & Hs); [lia|lia|].
    rewrite E. cbn [bind]. eexists. split; [reflexivity|].
    now apply clip_arc_shape.
  - cbv zeta.
    match goal with
    | |- context [makeLine Nx Ny arc_pos None (Some ?a) (Some ?l)] =>
        destruct (makeLine_angled_returns Nx Ny arc_pos a l Hax Hay) as (l1 & E1 & Hs1);
        destruct (makeLine_angled_returns Nx Ny arc_pos (a + PI) l Hax Hay)
          as (l2 & E2 & Hs2)
    end.
    rewrite E1. cbn [bind]. rewrite E2. cbn [bind].
    eexists. split; [reflexivity|].
    now apply logical_or_cells.
Qed.



Lemma normalise_angle_two_pi : normalise_angle (2 * PI) = 0%R.
Proof.
  pose proof PI_RGT_0 as Hpi. unfold normalise_angle, Rmod.
  assert (Hi : Int_part (2 * PI / (2 * PI)) = 1).
  { symmetry. apply Int_part_spec.
    replace (2 * PI / (2 * PI))%R with 1%R by (field; lra). simpl. lra. }
  rewrite Hi. replace (2 * PI - 1 * (2 * PI))%R with 0%R by lra.
  now rewrite !Rltb_false by lra.
Qed.

(** The two half lines of a flat arc whose focus lies on the row or on the
    column of the arc position: their branches step along the other axis,
    in opposite directions. *)
Lemma flat_arc_sectors (ax ay fx fy : Z) (u : Z * Z) :
  (fx = ax /\ fy <> ay /\ u = (1, 0)) \/ (fy = ay /\ fx <> ax /\ u = (0, 1)) ->
  let ang := (arctan_quotient (fx - ax) (fy - ay) + PI / 2)%R in
  exists s1 s2,
    sector_of (normalise_angle ang) = Some s1 /\
    sector_of (normalise_angle (ang + PI)) = Some s2 /\
    axis_sector s1 = true /\ axis_sector s2 = true /\
    ((sector_dir s1 = u /\ sector_dir s2 = (- fst u, - snd u)) \/
     (sector_dir s2 = u /\ sector_dir s1 = (- fst u, - snd u))).
Proof.
  pose proof PI_RGT_0 as Hpi. intros [(-> & Hy & ->)|(-> & Hx & ->)] ang; subst ang.
  - unfold arctan_quotient. rewrite Z.sub_diag.
    replace (fy - ay =? 0) with false by (symmetry; apply Z.eqb_neq; lia).
    replace (IZR 0 / IZR (fy - ay))%R with 0%R by (unfold Rdiv; ring).
    rewrite atan_0.
    replace (0 + PI / 2)%R with (PI / 2)%R by lra.
    exists AlongHalfPi, AlongMinusHalfPi.
    rewrite (normalise_angle_low (PI / 2)) by lra.
    rewrite (normalise_angle_high (PI / 2 + PI)) by lra.
    replace (PI / 2 + PI - 2 * PI)%R with (- PI / 2)%R by lra.
    rewrite sector_of_half_pi, sector_of_minus_half_pi. cbn. auto 10.
  - unfold arctan_quotient. rewrite Z.sub_diag. cbn [Z.eqb].
    destruct (Z.ltb_spec 0 (fx - ax)) as [Hpos|Hneg].
    + replace (PI / 2 + PI / 2)%R with PI by lra.
      replace (PI + PI)%R with (2 * PI)%R by lra.
      exists AlongPi, AlongZero.
      rewrite (normalise_angle_low PI) by lra.
      rewrite normalise_angle_two_pi, sector_of_pi, sector_of_0. cbn. auto 10.
    + replace (- PI / 2 + PI / 2)%R with 0%R by lra.
      replace (0 + PI)%R with PI by lra.
      exists AlongZero, AlongPi.
      rewrite (normalise_angle_low PI) by lra.
      rewrite normalise_angle_0, sector_of_pi, sector_of_0. cbn. auto 10.
Qed.

(** X21.  A flat arc (infinite radius) whose focus lies on the row or on the
    column of the arc position is the segment through the arc position at
    right angles to the direction of the focus: the [diameter] cells at most
    [(diameter - 1) / 2] steps away from the arc position along the other
    axis, as far as they lie inside the grid. *)
Theorem makeArc_flat_axis (theta_above : angle_test) (grid_size arc_pos : Z * Z)
        (diameter : Z) (focus_pos u : Z * Z) :
  valid_arc grid_size arc_pos RadiusInf diameter focus_pos ->
  (fst focus_pos = fst arc_pos /\ u = (1, 0)) \/
  (snd focus_pos = snd arc_pos /\ u = (0, 1)) ->
  exists g, makeArc theta_above grid_size arc_pos RadiusInf diameter focus_pos = Ok g /\
    shape g (fst grid_size) (snd grid_size) /\
    forall px py,
      (at1 g px py = 1 \/ at1 g px py = 0) /\
      (at1 g px py = 1 <->
       inside (fst grid_size) (snd grid_size) (px, py) /\
       exists k, Z.abs k <= (diameter - 1) / 2 /\
                 px = fst arc_pos + k * fst u /\ py = snd arc_pos + k * snd u).
Proof.
  intros Hvalid Hu. rewrite makeArc_valid by exact Hvalid.
  destruct grid_size as [Nx Ny], arc_pos as [ax ay], focus_pos as [fx fy].
  destruct Hvalid as (Hnx & Hny & _ & Hd & Hodd & [Hax Hay] & Hfocus).
  cbn [fst snd] in *. unfold arc_body. cbv zeta. cbn [fst snd].
  assert (HL : 0 <= (diameter - 1) / 2) by (apply Z.div_pos; lia).
  set (L := (diameter - 1) / 2) in *.
  destruct (flat_arc_sectors ax ay fx fy u) as (s1 & s2 & E1 & E2 & A1 & A2 & Hdirs).
  { destruct Hu as [[-> ->]|[-> ->]]; [left|right]; repeat split; auto;
      intros ->; now apply Hfocus. }
  unfold makeLine. cbv zeta.
  destruct (line_angled_axis Nx Ny ax ay L _ s1 Hax Hay E1 A1) as (l1 & El1 & Hs1 & Hat1).
  destruct (line_angled_axis Nx Ny ax ay L _ s2 Hax Hay E2 A2) as (l2 & El2 & Hs2 & Hat2).
  rewrite El1. cbn [bind]. rewrite El2. cbn [bind].
  destruct (logical_or_cells l1 l2 Nx Ny Hs1 Hs2) as [Hs Hat].
  eexists. split; [reflexivity|]. split; [exact Hs|].
  intros px py. rewrite Hat, Hat1, Hat2. clear Hat Hat1 Hat2 El1 El2 E1 E2.
  assert (Hunit : u = (1, 0) \/ u = (0, 1)) by (destruct Hu as [[_ H]|[_ H]]; auto).
  unfold axis_cell, inside. cbv zeta. cbn [fst snd].
  destruct Hdirs as [[-> ->]|[-> ->]]; destruct Hunit as [-> | ->]; cbn [fst snd Z.opp].
  all: split; [match goal with |- context [if ?b then 1 else 0] => destruct b end; auto|].
  all: match goal with |- context [if ?b then 1 else 0] => destruct b eqn:E end.
  all: rewrite ?orb_true_iff, ?orb_false_iff, ?negb_true_iff, ?negb_false_iff in E.
  all: repeat match type of E with
              | context [if ?b then 1 else 0] => destruct b eqn:?
              end.
  all: cbn [Z.eqb] in E.
  all: repeat match goal with
              | H : _ || _ = true |- _ => apply orb_true_iff in H; destruct H
              | H : _ || _ = false |- _ => apply orb_false_iff in H; destruct H
              | H : _ && _ = true |- _ => apply andb_true_iff in H; destruct H
              end.
  all: rewrite ?Z.eqb_eq, ?Z.ltb_lt, ?Z.leb_le in *.
  all: split; [intros Hone|].
  all: try discriminate Hone.
  all: try (intros _; reflexivity).
  all: try (destruct E as [E|E]; discriminate E).
  all: try (destruct E as [E E']; discriminate E || discriminate E').
  all: try (split; [lia|]).
  all: try match goal with
           | _ : 0 < ?j |- exists k, _ => exists j; lia
           | _ : 0 < ?j |- exists k, _ => exists (- j); lia
           | |- exists k, _ => exists 0; lia
           end.
  all: intros (Hin & k & Hk & Hpx & Hpy); exfalso; subst px py;
    repeat match goal with
           | H : _ && _ = false |- _ =>
               rewrite ?andb_false_iff, ?Z.eqb_neq, ?Z.ltb_ge, ?Z.leb_gt in H
           end; lia.
Qed.

Lemma makeArc_flat_axis_witness :
  (valid_arc (5, 5) (3, 3) RadiusInf 3 (3, 5) /\
   ((fst (3, 5) = fst (3, 3) /\ (1, 0) = (1, 0)) \/
    (snd (3, 5) = snd (3, 3) /\ (1, 0) = (0, 1)))) /\
  exists g, makeArc (fun _ _ _ _ _ => false) (5, 5) (3, 3) RadiusInf 3 (3, 5) = Ok g /\
    shape g 5 5 /\
    forall px py,
      (at1 g px py = 1 \/ at1 g px py = 0) /\
      (at1 g px py = 1 <->
       inside 5 5 (px, py) /\
       exists k, Z.abs k <= (3 - 1) / 2 /\ px = 3 + k * 1 /\ py = 3 + k * 0).
Proof.
  assert (Hvalid : valid_arc (5, 5) (3, 3) RadiusInf 3 (3, 5)).
  { unfold valid_arc, inside. cbn [fst snd].
    repeat split; try lia; try reflexivity. discriminate. }
  assert (Hu : (fst (3, 5) = fst (3, 3) /\ (1, 0) = (1, 0)) \/
               (snd (3, 5) = snd (3, 3) /\ (1, 0) = (0, 1)))
    by (left; split; reflexivity).
  split; [split; assumption|].
  exact (makeArc_flat_axis (fun _ _ _ _ _ => false) (5, 5) (3, 3) 3 (3, 5) (1, 0)
           Hvalid Hu).
Defined.

(** ** ind2sub *)

(** X22.  [ind2sub] inverts the column-major numbering of the cells of an
    [Nx] by [Ny] array: the linear index [i] of [1 .. Nx * Ny] is sent to the
    one grid point [(x, y)] inside the grid with [i = x + (y - 1) * Nx], and
    the linear index of every grid point is sent back to that point.  An
    index outside [1 .. Nx * Ny] anywhere in [ind] raises a [ValueError]. *)
Theorem ind2sub_round_trip (Nx Ny : Z) :
  1 <= Nx -> 1 <= Ny ->
  (forall i rest,
     1 <= i <= Nx * Ny -> Forall (fun j => 1 <= j <= Nx * Ny) rest ->
     exists x y, ind2sub (Nx, Ny) (i :: rest) = Ok (x, y) /\
                 inside Nx Ny (x, y) /\ i = x + (y - 1) * Nx) /\
  (forall x y, inside Nx Ny (x, y) -> ind2sub (Nx, Ny) [x + (y - 1) * Nx] = Ok (x, y)) /\
  (forall ind, Exists (fun j => j < 1 \/ Nx * Ny < j) ind ->
               ind2sub (Nx, Ny) ind = Raise ValueError).
Proof.
  intros Hx Hy.
  assert (Hvalid : forall ind, Forall (fun j => 1 <= j <= Nx * Ny) ind ->
            existsb (fun i => (i - 1 <? 0) || (Nx * Ny <=? i - 1)) ind = false).
  { intros ind Hall. induction Hall as [|j rest Hj _ IH]; [reflexivity|].
    cbn [existsb]. rewrite IH.
    replace (j - 1 <? 0) with false by (symmetry; apply Z.ltb_ge; lia).
    replace (Nx * Ny <=? j - 1) with false by (symmetry; apply Z.leb_gt; lia).
    reflexivity. }
  split; [|split].
  - intros i rest Hi Hrest. unfold ind2sub.
    rewrite Hvalid by (constructor; assumption).
    exists ((i - 1) mod Nx + 1), ((i - 1) / Nx + 1). split; [reflexivity|].
    pose proof (Z.mod_pos_bound (i - 1) Nx ltac:(lia)) as Hm.
    pose proof (Z.div_mod (i - 1) Nx ltac:(lia)) as Hdm.
    assert (Hq : 0 <= (i - 1) / Nx < Ny).
    { split; [apply Z.div_pos; lia|]. apply Z.div_lt_upper_bound; lia. }
    unfold inside. cbn [fst snd]. repeat split; try lia.
  - intros x y [Hix Hiy]. cbn [fst snd] in Hix, Hiy. unfold ind2sub.
    rewrite Hvalid by (constructor; [nia|constructor]).
    f_equal. f_equal.
    + replace (x + (y - 1) * Nx - 1) with (x - 1 + (y - 1) * Nx) by lia.
      rewrite Z.mod_add by lia. rewrite Z.mod_small by lia. lia.
    + replace (x + (y - 1) * Nx - 1) with (x - 1 + (y - 1) * Nx) by lia.
      rewrite Z.div_add by lia. rewrite Z.div_small by lia. lia.
  - intros ind Hex. unfold ind2sub.
    replace (existsb _ ind) with true; [reflexivity|].
    symmetry. apply existsb_exists. apply Exists_exists in Hex.
    destruct Hex as (j & Hin & Hj). exists j. split; [exact Hin|].
    apply orb_true_iff. rewrite Z.ltb_lt, Z.leb_le. lia.
Qed.

Lemma ind2sub_round_trip_witness :
  (1 <= 3 /\ 1 <= 4) /\ ind2sub (3, 4) [2 + (3 - 1) * 3] = Ok (2, 3).
Proof.
  split; [lia|].
  apply (ind2sub_round_trip 3 4); [lia|lia|unfold inside; simpl; lia].
Defined.

